(** * ForgeDB: a shallow embedding of the LSM core and its properties

    The development follows the packages of the repository:
    - [Enc]      little-endian integers as [encoding/binary] writes and reads them;
    - [Wal]      the write-ahead log ([internal/wal]);
    - [Memtable] the skip list and the memtable over it ([internal/memtable]);
    - [Sstable]  the table writer, footer, index, Bloom filter and point lookup
                 ([internal/sstable]);
    - [Db]       the engine ([internal/db]).

    Conventions.  A Go [string] and a Go [[]byte] are both [list byte]; a nil
    slice and an empty one are the same list.  Unsigned machine integers are
    [Z] with the wrap-around written where the code converts or adds.  The
    file system is a finite map from path to content. *)

From stdpp Require Import base option list sorting gmap strings pretty.
From Stdlib Require Import ZArith Lia Strings.Byte.

Open Scope Z_scope.

(** ** Shared types *)

Abbreviation bytes := (list byte).

(** The file system: one content per path. *)
Abbreviation FS := (gmap string (list byte)).

(** [types.Entry] *)
Record Entry := mkEntry {
  Key : bytes;
  Value : bytes;
  Tombstone : bool
}.

(** The errors the core returns.  [ErrOS] stands for whatever the operating
    system reported (missing file, permission, disk full, rename failure). *)
Inductive error :=
| EOF
| ErrUnexpectedEOF
| ErrCorruptWAL
| ErrCorruptSST
| ErrOS (code : nat).

Inductive result (A : Type) :=
| Ok (a : A)
| Err (e : error).
Arguments Ok {A} a.
Arguments Err {A} e.

(** A string literal as the bytes Go holds for it. *)
Definition B (s : string) : bytes := String.list_byte_of_string s.

#[global] Instance byte_eq_dec : EqDecision byte := Byte.byte_eq_dec.
#[global] Instance Entry_eq_dec : EqDecision Entry.
Proof. solve_decision. Defined.

(** ** Little-endian integers *)

Module Enc.

Definition Z_of_byte (b : byte) : Z := Z.of_N (Byte.to_N b).

Definition byte_of_Z (z : Z) : byte :=
  default x00 (Byte.of_N (Z.to_N (z mod 256))).

(** [binary.Write(w, binary.LittleEndian, uint32(n))]: the conversion to
    [uint32] keeps the low 32 bits. *)
Definition le32 (n : Z) : bytes :=
  let n := n mod 2 ^ 32 in
  [byte_of_Z n; byte_of_Z (n / 2 ^ 8); byte_of_Z (n / 2 ^ 16); byte_of_Z (n / 2 ^ 24)].

Definition le64 (n : Z) : bytes :=
  let n := n mod 2 ^ 64 in
  [byte_of_Z n; byte_of_Z (n / 2 ^ 8); byte_of_Z (n / 2 ^ 16); byte_of_Z (n / 2 ^ 24);
   byte_of_Z (n / 2 ^ 32); byte_of_Z (n / 2 ^ 40); byte_of_Z (n / 2 ^ 48);
   byte_of_Z (n / 2 ^ 56)].

(** [binary.LittleEndian.UintNN]: the value of a byte string, least
    significant byte first. *)
Fixpoint le_value (bs : bytes) : Z :=
  match bs with
  | [] => 0
  | b :: r => Z_of_byte b + 256 * le_value r
  end.

(** [len(x)] of a string or a slice. *)
Definition len {A} (l : list A) : Z := Z.of_nat (length l).

(** [io.ReadFull(r, buf)] with [len(buf) = n] on a reader that still holds
    [r]: the first [n] bytes and the rest, [io.EOF] when nothing was left and
    [n > 0], [io.ErrUnexpectedEOF] when fewer than [n] bytes were. *)
Definition read_full (n : Z) (r : bytes) : result (bytes * bytes) :=
  if n <=? len r then Ok (take (Z.to_nat n) r, drop (Z.to_nat n) r)
  else match r with
       | [] => Err EOF
       | _ => Err ErrUnexpectedEOF
       end.

(** [binary.Read(r, binary.LittleEndian, &x)] for [x : uint32]. *)
Definition read_u32 (r : bytes) : result (Z * bytes) :=
  match read_full 4 r with
  | Ok (bs, r') => Ok (le_value bs, r')
  | Err e => Err e
  end.

(** [binary.Read(r, binary.LittleEndian, &x)] for [x : uint64]. *)
Definition read_u64 (r : bytes) : result (Z * bytes) :=
  match read_full 8 r with
  | Ok (bs, r') => Ok (le_value bs, r')
  | Err e => Err e
  end.

(** [r.ReadByte()] *)
Definition read_byte (r : bytes) : result (byte * bytes) :=
  match r with
  | [] => Err EOF
  | b :: r' => Ok (b, r')
  end.

Lemma Z_of_byte_range b : 0 <= Z_of_byte b < 256.
Proof.
  unfold Z_of_byte. pose proof (Byte.to_N_bounded b). lia.
Qed.

Lemma Z_of_byte_of_Z z : Z_of_byte (byte_of_Z z) = z mod 256.
Proof.
  unfold Z_of_byte, byte_of_Z.
  assert (Hr : 0 <= z mod 256 < 256) by (apply Z.mod_pos_bound; lia).
  destruct (Byte.of_N (Z.to_N (z mod 256))) as [b|] eqn:Hb.
  - apply Byte.to_of_N in Hb. simpl. rewrite Hb. lia.
  - apply Byte.of_N_None_iff in Hb. lia.
Qed.

Lemma byte_of_Z_of_byte b : byte_of_Z (Z_of_byte b) = b.
Proof.
  unfold byte_of_Z. pose proof (Z_of_byte_range b) as Hr.
  rewrite Z.mod_small by lia. unfold Z_of_byte. rewrite N2Z.id.
  by rewrite Byte.of_to_N.
Qed.

Lemma length_le32 n : length (le32 n) = 4%nat.
Proof. reflexivity. Qed.

Lemma length_le64 n : length (le64 n) = 8%nat.
Proof. reflexivity. Qed.

Lemma le_value_le32 n : le_value (le32 n) = n mod 2 ^ 32.
Proof.
  unfold le32. cbn [le_value]. rewrite !Z_of_byte_of_Z.
  assert (Hr : 0 <= n mod 2 ^ 32 < 2 ^ 32) by (apply Z.mod_pos_bound; lia).
  revert Hr. generalize (n mod 2 ^ 32). intros m Hm.
  change (2 ^ 8) with 256. change (2 ^ 16) with 65536. change (2 ^ 24) with 16777216.
  change (2 ^ 32) with 4294967296 in Hm.
  pose proof (Z.div_mod m 256 ltac:(lia)).
  pose proof (Z.div_mod (m / 256) 256 ltac:(lia)).
  pose proof (Z.div_mod (m / 256 / 256) 256 ltac:(lia)).
  pose proof (Z.mod_pos_bound m 256 ltac:(lia)).
  pose proof (Z.mod_pos_bound (m / 256) 256 ltac:(lia)).
  pose proof (Z.mod_pos_bound (m / 256 / 256) 256 ltac:(lia)).
  replace (m / 65536) with (m / 256 / 256) by (rewrite Z.div_div by lia; reflexivity).
  replace (m / 16777216) with (m / 256 / 256 / 256)
    by (rewrite !Z.div_div by lia; reflexivity).
  assert (0 <= m / 256 / 256 / 256 < 256).
  { split; [repeat apply Z.div_pos; lia|].
    repeat (apply Z.div_lt_upper_bound; [lia|]). lia. }
  rewrite (Z.mod_small (m / 256 / 256 / 256)) by lia.
  lia.
Qed.

(** Reading back what [le32] wrote, in front of anything. *)
Lemma read_u32_le32 n r : read_u32 (le32 n ++ r) = Ok (n mod 2 ^ 32, r).
Proof.
  unfold read_u32, read_full, len.
  rewrite length_app, length_le32.
  destruct (4 <=? Z.of_nat (4 + length r)) eqn:E; [|apply Z.leb_gt in E; lia].
  change (Z.to_nat 4) with (length (le32 n)).
  rewrite take_app_length, drop_app_length. by rewrite le_value_le32.
Qed.

Lemma read_full_app (l r : bytes) : read_full (len l) (l ++ r) = Ok (l, r).
Proof.
  unfold read_full, len. rewrite length_app.
  destruct (Z.of_nat (length l) <=? Z.of_nat (length l + length r)) eqn:E;
    [|apply Z.leb_gt in E; lia].
  rewrite Nat2Z.id. by rewrite take_app_length, drop_app_length.
Qed.

Lemma read_full_inv n r a b :
  read_full n r = Ok (a, b) -> 0 <= n -> r = a ++ b /\ len a = n.
Proof.
  unfold read_full, len. destruct (n <=? Z.of_nat (length r)) eqn:E.
  - intros [= <- <-] Hn. apply Z.leb_le in E. split; [by rewrite take_drop|].
    rewrite length_take. lia.
  - by destruct r.
Qed.

End Enc.

(** ** The write-ahead log ([internal/wal]) *)

Module Wal.
Import Enc.

(** [WAL]: the open file, named by its path, and the bytes the [bufio.Writer]
    still holds.  (The writer's own flush when its 64 KiB fill up sends the
    same bytes in the same order earlier; nothing here reads the file between
    two writes of one append.) *)
Record WAL := mkWAL {
  f : string;
  buf : bytes
}.

(** [Record] *)
Record Record_ := mkRecord {
  Op : byte;
  RKey : bytes;
  RValue : bytes
}.

Definition opPut : byte := x00.
Definition opDelete : byte := x01.

(** What a path holds; a path with no file reads as no bytes. *)
Definition content (path : string) (fs : FS) : bytes := default [] (fs !! path).

(** A write to a file opened with [O_APPEND]. *)
Definition file_append (path : string) (bs : bytes) (fs : FS) : FS :=
  <[path := content path fs ++ bs]> fs.

(** [Open]: [O_CREATE|O_RDWR|O_APPEND], so a missing file is created empty
    and an existing one keeps its bytes. *)
Definition Open (path : string) (fs : FS) : WAL * FS :=
  (mkWAL path [], match fs !! path with
                  | Some _ => fs
                  | None => <[path := []]> fs
                  end).

(** [w.buf.Flush()] *)
Definition Flush (w : WAL) (fs : FS) : WAL * FS :=
  (mkWAL (f w) [], file_append (f w) (buf w) fs).

(** [AppendPut] *)
Definition AppendPut (key value : bytes) (w : WAL) (fs : FS) : WAL * FS :=
  let b := buf w ++ [opPut] in
  let keyB := key in
  let b := b ++ le32 (len keyB) in
  let b := b ++ le32 (len value) in
  let b := b ++ keyB in
  let b := if 0 <? len value then b ++ value else b in
  Flush (mkWAL (f w) b) fs.

(** [AppendDelete] *)
Definition AppendDelete (key : bytes) (w : WAL) (fs : FS) : WAL * FS :=
  let b := buf w ++ [opDelete] in
  let keyB := key in
  let b := b ++ le32 (len keyB) in
  let b := b ++ le32 0 in
  let b := b ++ keyB in
  Flush (mkWAL (f w) b) fs.

(** The loop of [Replay] over the bytes the reader still holds.  One round
    reads one record; [None] only when [fuel] rounds were not enough. *)
Fixpoint replay_loop (fuel : nat) (r : bytes) (out : list Record_)
  : option (result (list Record_)) :=
  match fuel with
  | O => None
  | S fuel =>
    match read_byte r with
    | Err _ => Some (Ok out)
    | Ok (op, r) =>
      match read_u32 r with
      | Err _ => Some (Err ErrCorruptWAL)
      | Ok (keyLen, r) =>
        match read_u32 r with
        | Err _ => Some (Err ErrCorruptWAL)
        | Ok (valLen, r) =>
          match read_full keyLen r with
          | Err _ => Some (Err ErrCorruptWAL)
          | Ok (keyB, r) =>
            match (if 0 <? valLen then read_full valLen r else Ok ([], r)) with
            | Err _ => Some (Err ErrCorruptWAL)
            | Ok (valB, r) =>
              if negb (bool_decide (op = opPut)) && negb (bool_decide (op = opDelete))
              then Some (Err ErrCorruptWAL)
              else replay_loop fuel r (out ++ [mkRecord op keyB valB])
            end
          end
        end
      end
    end
  end.

(** [Replay]: a missing file is an empty log.  Every round takes at least
    the op byte, so one round more than the file has bytes is enough. *)
Definition Replay (path : string) (fs : FS) : option (result (list Record_)) :=
  match fs !! path with
  | None => Some (Ok [])
  | Some bs => replay_loop (S (length bs)) bs []
  end.

(** The operations a caller issues, and the record each one should replay to. *)
Inductive op :=
| Put (key value : bytes)
| Delete (key : bytes).

Definition append (o : op) (st : WAL * FS) : WAL * FS :=
  match o with
  | Put k v => AppendPut k v st.1 st.2
  | Delete k => AppendDelete k st.1 st.2
  end.

Definition append_all (ops : list op) (st : WAL * FS) : WAL * FS :=
  foldl (fun st o => append o st) st ops.

Definition record_of (o : op) : Record_ :=
  match o with
  | Put k v => mkRecord opPut k v
  | Delete k => mkRecord opDelete k []
  end.

(** The bytes of one record as the append operations lay them out. *)
Definition record_bytes (o : op) : bytes :=
  match o with
  | Put k v => [opPut] ++ le32 (len k) ++ le32 (len v) ++ k ++ v
  | Delete k => [opDelete] ++ le32 (len k) ++ le32 0 ++ k
  end.

(** Key and value lengths that the [uint32] length fields can hold. *)
Definition fits (o : op) : Prop :=
  match o with
  | Put k v => len k < 2 ^ 32 /\ len v < 2 ^ 32
  | Delete k => len k < 2 ^ 32
  end.

Lemma append_spec o w fs :
  buf w = [] ->
  append o (w, fs) = (w, file_append (f w) (record_bytes o) fs).
Proof.
  intros Hb. destruct w as [p b]. simpl in Hb. subst b.
  destruct o as [k v|k]; unfold append, AppendPut, AppendDelete, Flush, record_bytes;
    cbn [fst snd f buf app].
  - do 2 f_equal. destruct (0 <? len v) eqn:E.
    + by rewrite <- !app_assoc.
    + assert (v = []) as ->.
      { apply Z.ltb_ge in E. unfold len in E. destruct v; [done|simpl in E; lia]. }
      rewrite <- !app_assoc. by rewrite !app_nil_r.
  - do 2 f_equal; by rewrite <- ?app_assoc.
Qed.

Lemma content_file_append p bs fs :
  content p (file_append p bs fs) = content p fs ++ bs.
Proof. unfold content, file_append. by rewrite lookup_insert_eq. Qed.

Lemma append_all_spec ops w fs :
  buf w = [] ->
  exists fs', append_all ops (w, fs) = (w, fs') /\
    fs' !! f w = (if ops is [] then fs !! f w
                  else Some (content (f w) fs ++ concat (map record_bytes ops))).
Proof.
  intros Hb. revert fs. induction ops as [|o ops IH]; intros fs.
  - exists fs. done.
  - unfold append_all. simpl. fold (append_all ops (append o (w, fs))).
    rewrite append_spec by done.
    destruct (IH (file_append (f w) (record_bytes o) fs)) as (fs' & -> & Hl).
    exists fs'. split; [done|]. rewrite Hl. destruct ops.
    + unfold file_append. rewrite lookup_insert_eq. simpl. by rewrite app_nil_r.
    + rewrite content_file_append. by rewrite <- app_assoc.
Qed.

(** One round of the loop over a well-sized record. *)
Lemma replay_loop_record fuel o r out :
  fits o ->
  replay_loop (S fuel) (record_bytes o ++ r) out =
  replay_loop fuel r (out ++ [record_of o]).
Proof.
  intros Hf. destruct o as [k v|k]; simpl in Hf.
  - cbn [replay_loop record_bytes app read_byte].
    rewrite <- !app_assoc. rewrite read_u32_le32, read_u32_le32.
    assert (Hk : 0 <= len k) by (unfold len; lia).
    assert (Hv : 0 <= len v) by (unfold len; lia).
    rewrite !Z.mod_small by lia. rewrite read_full_app.
    destruct (0 <? len v) eqn:E.
    + rewrite read_full_app. reflexivity.
    + assert (v = []) as ->.
      { apply Z.ltb_ge in E. unfold len in E. destruct v; [done|simpl in E; lia]. }
      reflexivity.
  - cbn [replay_loop record_bytes app read_byte].
    rewrite <- !app_assoc. rewrite read_u32_le32, read_u32_le32.
    assert (Hk : 0 <= len k) by (unfold len; lia).
    rewrite !Z.mod_small by lia. rewrite read_full_app.
    reflexivity.
Qed.

Lemma replay_loop_records ops fuel out :
  Forall fits ops ->
  (length ops < fuel)%nat ->
  replay_loop fuel (concat (map record_bytes ops)) out =
  Some (Ok (out ++ map record_of ops)).
Proof.
  intros Hf. revert fuel out. induction Hf as [|o ops Ho Hf IH]; intros fuel out Hlt.
  - destruct fuel; [simpl in Hlt; lia|]. simpl. by rewrite app_nil_r.
  - destruct fuel; [simpl in Hlt; lia|]. cbn [map concat].
    rewrite replay_loop_record by done. rewrite IH by (simpl in Hlt; lia).
    by rewrite <- app_assoc.
Qed.

Lemma length_record_bytes o : (0 < length (record_bytes o))%nat.
Proof. destruct o; simpl; lia. Qed.

Lemma length_concat_records ops :
  (length ops <= length (concat (map record_bytes ops)))%nat.
Proof.
  induction ops as [|o ops IH]; simpl; [lia|].
  rewrite length_app. pose proof (length_record_bytes o). lia.
Qed.

(** What the loop has collected stays in front of what it returns. *)
Lemma replay_loop_prefix fuel r out res :
  replay_loop fuel r out = Some (Ok res) -> out `prefix_of` res.
Proof.
  revert r out. induction fuel as [|fuel IH]; intros r out; [done|].
  cbn [replay_loop].
  destruct (read_byte r) as [[o r1]|]; [|by intros [= <-]].
  destruct (read_u32 r1) as [[kl r2]|]; [|done].
  destruct (read_u32 r2) as [[vl r3]|]; [|done].
  destruct (read_full kl r3) as [[kb r4]|]; [|done].
  destruct (if 0 <? vl then read_full vl r4 else Ok ([], r4)) as [[vb r5]|]; [|done].
  destruct (negb _ && negb _); [done|].
  intros H. apply IH in H. etrans; [|exact H]. by apply prefix_app_r.
Qed.

(** [Replay] always comes back: the fuel it is given is never used up. *)
Lemma replay_loop_total fuel r out :
  (length r < fuel)%nat -> is_Some (replay_loop fuel r out).
Proof.
  revert r out. induction fuel as [|fuel IH]; intros r out Hlt; [lia|].
  cbn [replay_loop]. destruct r as [|o r1]; [by eexists|]. cbn [read_byte].
  destruct (read_u32 r1) as [[kl r2]|] eqn:E1; [|by eexists].
  destruct (read_u32 r2) as [[vl r3]|] eqn:E2; [|by eexists].
  destruct (read_full kl r3) as [[kb r4]|] eqn:E3; [|by eexists].
  destruct (if 0 <? vl then read_full vl r4 else Ok ([], r4)) as [[vb r5]|] eqn:E4;
    [|by eexists].
  destruct (negb _ && negb _); [by eexists|].
  apply IH.
  assert (Hsuf : forall n a b c, read_full n a = Ok (b, c) -> (length c <= length a)%nat).
  { intros n a b c. unfold read_full. destruct (n <=? len a); [|by destruct a].
    intros [= <- <-]. rewrite length_drop. lia. }
  assert (length r2 <= length r1)%nat.
  { unfold read_u32 in E1. destruct (read_full 4 r1) as [[? ?]|] eqn:E; [|done].
    injection E1 as <- <-. eauto. }
  assert (length r3 <= length r2)%nat.
  { unfold read_u32 in E2. destruct (read_full 4 r2) as [[? ?]|] eqn:E; [|done].
    injection E2 as <- <-. eauto. }
  assert (length r4 <= length r3)%nat by eauto.
  assert (length r5 <= length r4)%nat.
  { destruct (0 <? vl); [eauto|]. by injection E4 as <- <-. }
  simpl in Hlt. lia.
Qed.

Lemma Replay_total path fs : is_Some (Replay path fs).
Proof.
  unfold Replay. destruct (fs !! path) as [bs|]; [|by eexists].
  apply replay_loop_total. lia.
Qed.

(** A round over a put whose key is exactly [2^32] bytes long: the length
    field holds 0, so the loop takes an empty key and goes on inside the key. *)
Lemma replay_loop_wrapped_key fuel (k r : bytes) out :
  len k = 2 ^ 32 ->
  replay_loop (S fuel) (record_bytes (Put k []) ++ r) out =
  replay_loop fuel (k ++ r) (out ++ [mkRecord opPut [] []]).
Proof.
  intros Hk. cbn [replay_loop record_bytes app read_byte].
  rewrite <- !app_assoc. rewrite read_u32_le32, read_u32_le32.
  rewrite Hk. change (2 ^ 32 mod 2 ^ 32) with 0. change (len [] mod 2 ^ 32) with 0.
  unfold read_full at 1.
  destruct (0 <=? len (k ++ [] ++ r)) eqn:E; [|apply Z.leb_gt in E; unfold len in E; lia].
  change (Z.to_nat 0) with 0%nat. rewrite take_0, drop_0.
  reflexivity.
Qed.

(** The three appends of [TestWALAppendAndReplay]. *)
Definition sample_ops : list op :=
  [Put (B "a") (B "1"); Put (B "b") (B "hello"); Delete (B "a")].

(** A key of [2^32] zero bytes. *)
Definition wide_key : bytes := replicate (Z.to_nat (2 ^ 32)) x00.

(** C2, as amended.  For every sequence of appends whose keys and values are
    each shorter than [2^32] bytes, issued on a WAL opened on a new (or empty)
    file, [Replay] returns one record per append, in order: op byte 0 with the
    key and the value for a put, op byte 1 with the key and no value for a
    delete. *)
Theorem wal_replay_fidelity (path : string) (fs : FS) (ops : list op) :
  content path fs = [] ->
  Forall fits ops ->
  Replay path (append_all ops (Open path fs)).2 = Some (Ok (map record_of ops)).
Proof.
  intros Hfresh Hfits.
  unfold Open.
  set (fs0 := match fs !! path with Some _ => fs | None => <[path:=[]]> fs end).
  assert (H0 : fs0 !! path = Some []).
  { unfold fs0, content in *. destruct (fs !! path) as [bs|] eqn:E.
    - simpl in Hfresh. by subst bs.
    - by rewrite lookup_insert_eq. }
  destruct (append_all_spec ops (mkWAL path []) fs0 eq_refl) as (fs' & -> & Hl).
  cbn [snd f] in *. unfold Replay. rewrite Hl.
  destruct ops as [|o ops].
  - rewrite H0. reflexivity.
  - unfold content. rewrite H0. cbn [default from_option id app].
    apply (replay_loop_records (o :: ops) _ []); [done|].
    pose proof (length_concat_records (o :: ops)). lia.
Qed.

Lemma wal_replay_fidelity_witness :
  content "forge.wal" (∅ : FS) = [] /\
  Forall fits sample_ops /\
  Replay "forge.wal" (append_all sample_ops (Open "forge.wal" ∅)).2
  = Some (Ok [mkRecord opPut (B "a") (B "1"); mkRecord opPut (B "b") (B "hello");
              mkRecord opDelete (B "a") []]).
Proof.
  assert (Hf : Forall fits sample_ops).
  { repeat constructor; vm_compute; reflexivity. }
  split; [reflexivity|]. split; [exact Hf|].
  exact (wal_replay_fidelity "forge.wal" ∅ sample_ops eq_refl Hf).
Defined.

Lemma replay_wrapped_key_differs (k : bytes) :
  len k = 2 ^ 32 ->
  Replay "forge.wal" (append_all [Put k []] (Open "forge.wal" ∅)).2
  <> Some (Ok (map record_of [Put k []])).
Proof.
  intros Hlen.
  unfold Open. rewrite lookup_empty.
  destruct (append_all_spec [Put k []] (mkWAL "forge.wal" []) (<["forge.wal":=[]]> ∅)
              eq_refl) as (fs' & -> & Hl).
  cbn [snd f] in *. unfold Replay. rewrite Hl.
  unfold content. rewrite lookup_insert_eq. cbn [default from_option id map concat].
  rewrite app_nil_l.
  rewrite replay_loop_wrapped_key by exact Hlen.
  intros H. apply replay_loop_prefix in H.
  cbn [map record_of app] in H.
  destruct H as [t Ht]. injection Ht as Hk _.
  subst k. vm_compute in Hlen. discriminate Hlen.
Qed.

(** C2 as stated fails for a key of [2^32] bytes: its length is written as 0,
    and the replayed log does not hold the one record that was appended. *)
Lemma wal_replay_fidelity_wide_key :
  content "forge.wal" (∅ : FS) = [] /\
  Replay "forge.wal" (append_all [Put wide_key []] (Open "forge.wal" ∅)).2
  <> Some (Ok (map record_of [Put wide_key []])).
Proof.
  split; [reflexivity|].
  apply replay_wrapped_key_differs.
  unfold len, wide_key. rewrite length_replicate. rewrite Z2Nat.id; [reflexivity|lia].
Qed.

(** *** Reopening, torn tails and unknown operations *)

Lemma read_full_short n (r : bytes) :
  len r < n -> exists e, read_full n r = Err e.
Proof.
  intros Hl. unfold read_full.
  destruct (n <=? len r) eqn:E; [apply Z.leb_le in E; lia|].
  destruct r; by eexists.
Qed.

Lemma read_u32_short (r : bytes) :
  (length r < 4)%nat -> exists e, read_u32 r = Err e.
Proof.
  intros Hl. destruct (read_full_short 4 r) as [e He]; [unfold len; lia|].
  exists e. unfold read_u32. by rewrite He.
Qed.

(** The rounds over well-sized records, in front of anything. *)
Lemma replay_loop_skip ops fuel rest out :
  Forall fits ops ->
  replay_loop (length ops + fuel) (concat (map record_bytes ops) ++ rest) out =
  replay_loop fuel rest (out ++ map record_of ops).
Proof.
  intros Hf. revert out. induction Hf as [|o ops Ho Hf IH]; intros out.
  - by rewrite app_nil_r.
  - cbn [map concat length Nat.add]. rewrite <- app_assoc.
    rewrite replay_loop_record by done. rewrite IH. by rewrite <- app_assoc.
Qed.

(** Every record is an op byte, two lengths, the key and the value. *)
Lemma record_bytes_shape o :
  record_bytes o =
  [Op (record_of o)] ++ le32 (len (RKey (record_of o))) ++
  le32 (len (RValue (record_of o))) ++ RKey (record_of o) ++ RValue (record_of o).
Proof. destruct o as [k v|k]; [done|]. simpl. by rewrite app_nil_r. Qed.

(** A round over the first [c] bytes of a record, [c] short of the whole. *)
Lemma replay_loop_cut fuel (b : byte) (k v : bytes) (c : nat) out :
  len k < 2 ^ 32 -> len v < 2 ^ 32 ->
  (0 < c < length ([b] ++ le32 (len k) ++ le32 (len v) ++ k ++ v))%nat ->
  replay_loop (S fuel) (take c ([b] ++ le32 (len k) ++ le32 (len v) ++ k ++ v)) out =
  Some (Err ErrCorruptWAL).
Proof.
  intros Hk Hv [Hc1 Hc2].
  assert (Hk0 : 0 <= len k) by (unfold len; lia).
  assert (Hv0 : 0 <= len v) by (unfold len; lia).
  rewrite !length_app, !length_le32 in Hc2. simpl in Hc2.
  destruct c as [|c]; [lia|]. cbn [app take replay_loop read_byte].
  destruct (decide (c < 4)%nat) as [Hlt|Hge].
  { destruct (read_u32_short (take c (le32 (len k) ++ le32 (len v) ++ k ++ v))) as [e ->];
      [rewrite length_take; lia|done]. }
  rewrite take_app_ge by (rewrite length_le32; lia). rewrite length_le32.
  rewrite read_u32_le32, Z.mod_small by lia.
  destruct (decide (c - 4 < 4)%nat) as [Hlt|Hge2].
  { destruct (read_u32_short (take (c - 4) (le32 (len v) ++ k ++ v))) as [e ->];
      [rewrite length_take; lia|done]. }
  rewrite take_app_ge by (rewrite length_le32; lia). rewrite length_le32.
  rewrite read_u32_le32, Z.mod_small by lia.
  destruct (decide (c - 4 - 4 < length k)%nat) as [Hlt|Hge3].
  { destruct (read_full_short (len k) (take (c - 4 - 4) (k ++ v))) as [e ->];
      [unfold len; rewrite length_take; lia|done]. }
  rewrite take_app_ge by lia.
  rewrite read_full_app.
  destruct (0 <? len v) eqn:E.
  - destruct (read_full_short (len v) (take (c - 4 - 4 - length k) v)) as [e ->];
      [unfold len; rewrite length_take; lia|done].
  - apply Z.ltb_ge in E. unfold len in E. lia.
Qed.

Lemma record_fits o :
  fits o -> len (RKey (record_of o)) < 2 ^ 32 /\ len (RValue (record_of o)) < 2 ^ 32.
Proof. destruct o as [k v|k]; simpl; [done|]. intros ?. split; [done|]. by vm_compute. Qed.

(** X1.  A log that already holds the records of earlier appends is
    continued, not overwritten, by a WAL opened on it: after further appends
    [Replay] returns the old records followed by the new ones. *)
Theorem wal_reopen_continues (path : string) (fs : FS) (old ops : list op) :
  fs !! path = Some (concat (map record_bytes old)) ->
  Forall fits old -> Forall fits ops ->
  Replay path (append_all ops (Open path fs)).2 = Some (Ok (map record_of (old ++ ops))).
Proof.
  intros Hfile Hold Hops. unfold Open. rewrite Hfile.
  destruct (append_all_spec ops (mkWAL path []) fs eq_refl) as (fs' & -> & Hl).
  cbn [snd f] in *. unfold Replay. rewrite Hl.
  assert (Hall : Forall fits (old ++ ops)) by (apply Forall_app; done).
  assert (Hbytes : content path fs ++ concat (map record_bytes ops) =
                   concat (map record_bytes (old ++ ops))).
  { unfold content. rewrite Hfile. cbn [default from_option id].
    by rewrite map_app, concat_app. }
  pose proof (length_concat_records (old ++ ops)) as Hlen.
  destruct ops as [|o ops].
  - rewrite Hfile. rewrite app_nil_r in *.
    apply (replay_loop_records old _ []); [done|lia].
  - rewrite Hbytes. apply (replay_loop_records _ _ []); [done|lia].
Qed.

Lemma wal_reopen_continues_witness :
  Replay "forge.wal"
    (append_all [Delete (B "a")]
       (Open "forge.wal" {["forge.wal" := concat (map record_bytes [Put (B "a") (B "1")])]})).2
  = Some (Ok [mkRecord opPut (B "a") (B "1"); mkRecord opDelete (B "a") []]).
Proof.
  apply (wal_reopen_continues "forge.wal" _ [Put (B "a") (B "1")] [Delete (B "a")]).
  - apply lookup_singleton_eq.
  - repeat constructor; vm_compute; reflexivity.
  - repeat constructor; vm_compute; reflexivity.
Defined.

(** X2.  A torn tail is corruption: when the log ends inside a record, at
    least its op byte written and at least one byte missing, [Replay]
    returns [ErrCorruptWAL] and none of the records before it. *)
Theorem wal_torn_tail (path : string) (fs : FS) (ops : list op) (o : op) (c : nat) :
  Forall fits ops -> fits o ->
  (0 < c < length (record_bytes o))%nat ->
  fs !! path = Some (concat (map record_bytes ops) ++ take c (record_bytes o)) ->
  Replay path fs = Some (Err ErrCorruptWAL).
Proof.
  intros Hops Ho Hc Hfile. unfold Replay. rewrite Hfile.
  pose proof (length_concat_records ops) as Hlen.
  rewrite length_app.
  replace (S (length (concat (map record_bytes ops)) + length (take c (record_bytes o))))
    with (length ops + S (length (concat (map record_bytes ops)) - length ops +
                          length (take c (record_bytes o))))%nat by lia.
  rewrite replay_loop_skip by done.
  destruct (record_fits o Ho) as [Hk Hv].
  rewrite record_bytes_shape in *. by apply replay_loop_cut.
Qed.

Lemma wal_torn_tail_witness :
  Replay "forge.wal"
    {["forge.wal" := concat (map record_bytes [Put (B "a") (B "1")]) ++
                     take 10 (record_bytes (Put (B "b") (B "hello")))]}
  = Some (Err ErrCorruptWAL).
Proof.
  apply (wal_torn_tail "forge.wal" _ [Put (B "a") (B "1")] (Put (B "b") (B "hello")) 10).
  - repeat constructor; vm_compute; reflexivity.
  - split; vm_compute; reflexivity.
  - simpl. lia.
  - apply lookup_singleton_eq.
Defined.

(** X3.  A record whose op byte is neither 0 nor 1 is corruption, whatever
    follows it; the records before it are not returned. *)
Theorem wal_unknown_op (path : string) (fs : FS) (ops : list op) (b : byte)
    (k v rest : bytes) :
  Forall fits ops -> len k < 2 ^ 32 -> len v < 2 ^ 32 ->
  b <> opPut -> b <> opDelete ->
  fs !! path = Some (concat (map record_bytes ops) ++
                     [b] ++ le32 (len k) ++ le32 (len v) ++ k ++ v ++ rest) ->
  Replay path fs = Some (Err ErrCorruptWAL).
Proof.
  intros Hops Hk Hv Hb0 Hb1 Hfile. unfold Replay. rewrite Hfile.
  pose proof (length_concat_records ops) as Hlen.
  rewrite length_app.
  set (tail := [b] ++ _).
  replace (S (length (concat (map record_bytes ops)) + length tail))
    with (length ops + S (length (concat (map record_bytes ops)) - length ops +
                          length tail))%nat by lia.
  rewrite replay_loop_skip by done. unfold tail.
  assert (Hk0 : 0 <= len k) by (unfold len; lia).
  assert (Hv0 : 0 <= len v) by (unfold len; lia).
  cbn [app replay_loop read_byte].
  rewrite read_u32_le32, read_u32_le32, !Z.mod_small by lia.
  rewrite read_full_app.
  assert (Hval : (if 0 <? len v then read_full (len v) (v ++ rest) else Ok ([], v ++ rest))
                 = Ok (v, rest)).
  { destruct (0 <? len v) eqn:E; [apply read_full_app|].
    apply Z.ltb_ge in E. unfold len in E. destruct v; [done|simpl in E; lia]. }
  rewrite Hval. by rewrite !bool_decide_false.
Qed.

Lemma wal_unknown_op_witness :
  Replay "forge.wal"
    {["forge.wal" := concat (map record_bytes [Put (B "a") (B "1")]) ++
                     [x02] ++ le32 (len (B "k")) ++ le32 (len (B "v")) ++ B "k" ++ B "v" ++ []]}
  = Some (Err ErrCorruptWAL).
Proof.
  apply (wal_unknown_op "forge.wal" _ [Put (B "a") (B "1")] x02 (B "k") (B "v") []).
  - repeat constructor; vm_compute; reflexivity.
  - vm_compute. reflexivity.
  - vm_compute. reflexivity.
  - discriminate.
  - discriminate.
  - apply lookup_singleton_eq.
Defined.

(** X4.  [Replay] never gets stuck: on every file system and path it
    returns, and a path with no file replays as the empty log with no
    error. *)
Theorem replay_always_returns (path : string) (fs : FS) :
  (exists r, Replay path fs = Some r) /\
  (fs !! path = None -> Replay path fs = Some (Ok [])).
Proof.
  split.
  - destruct (Replay_total path fs) as [r Hr]. by exists r.
  - intros Hno. unfold Replay. by rewrite Hno.
Qed.

End Wal.

(** ** The skip list and the memtable ([internal/memtable]) *)

Module Memtable.

Local Open Scope nat_scope.

(** Go compares strings byte by byte, unsigned. *)
Fixpoint key_ltb (a b : bytes) : bool :=
  match a, b with
  | [], [] => false
  | [], _ :: _ => true
  | _ :: _, [] => false
  | x :: a', y :: b' =>
    if (Byte.to_N x <? Byte.to_N y)%N then true
    else if (Byte.to_N y <? Byte.to_N x)%N then false
    else key_ltb a' b'
  end.

Definition maxLevel : nat := 16.

(** A pointer to a node is its address in the heap; [None] is [nil]. *)
Abbreviation ptr := (option nat).

(** [node] *)
Record node := mkNode {
  key : bytes;
  entry : Entry;
  forward : list ptr
}.

(** [SkipList].  [heap] holds every node ever allocated, the head sentinel
    at address [head]; [rnd] is the random source as the sequence of answers
    [Intn(2) == 0] it will give, and [pos] how many were drawn. *)
Record SkipList := mkSkipList {
  heap : list node;
  level : nat;
  rnd : nat -> bool;
  pos : nat
}.

Definition head : nat := 0.

Definition emptyEntry : Entry := mkEntry [] [] false.

(** [NewSkipList] *)
Definition NewSkipList (coins : nat -> bool) : SkipList :=
  mkSkipList [mkNode [] emptyEntry (replicate maxLevel None)] 1 coins 0.

(** [x.forward[i]]; the outer [None] is a nil dereference or an index out of
    range, which panics in Go. *)
Definition fwd (h : list node) (x i : nat) : option ptr :=
  n ← h !! x; forward n !! i.

(** [x.forward[i] = v] *)
Definition set_fwd (h : list node) (x i : nat) (v : ptr) : option (list node) :=
  n ← h !! x;
  if decide (i < length (forward n))
  then Some (<[x := mkNode (key n) (entry n) (<[i := v]> (forward n))]> h)
  else None.

(** [randomLevel]: the loop runs while [lvl < maxLevel], that is [gap] more
    times at most, and draws once per test of [Intn(2) == 0]. *)
Fixpoint randomLevel_from (gap lvl : nat) (coins : nat -> bool) (p : nat) : nat * nat :=
  match gap with
  | O => (lvl, p)
  | S gap => if coins p then randomLevel_from gap (S lvl) coins (S p) else (lvl, S p)
  end.

Definition randomLevel (s : SkipList) : nat * nat :=
  randomLevel_from (maxLevel - 1) 1 (rnd s) (pos s).

(** [for x.forward[i] != nil && x.forward[i].key < key { x = x.forward[i] }] *)
Fixpoint advance (fuel : nat) (h : list node) (i x : nat) (k : bytes) : option nat :=
  match fuel with
  | O => None
  | S fuel =>
    match fwd h x i with
    | None => None
    | Some None => Some x
    | Some (Some y) =>
      match h !! y with
      | None => None
      | Some ny => if key_ltb (key ny) k then advance fuel h i y k else Some x
      end
    end
  end.

(** The descent [for i := s.level - 1; i >= 0; i--], with [n] levels still
    to visit; [update[i] = x] is recorded when [upd] is given. *)
Fixpoint descend (fuel : nat) (h : list node) (n x : nat) (k : bytes)
    (update : list ptr) : option (nat * list ptr) :=
  match n with
  | O => Some (x, update)
  | S i =>
    match advance fuel h i x k with
    | None => None
    | Some x' => descend fuel h i x' k (<[i := Some x']> update)
    end
  end.

(** The fuel every walk gets: one step per node of the heap and one more. *)
Definition walk_fuel (h : list node) : nat := S (length h).

(** [Search].  [Some None] is the result [(Entry{}, false)]. *)
Definition Search (k : bytes) (s : SkipList) : option (option Entry) :=
  '(x, _) ← descend (walk_fuel (heap s)) (heap s) (level s) head k [];
  x0 ← fwd (heap s) x 0;
  match x0 with
  | None => Some None
  | Some y =>
    ny ← heap s !! y;
    if decide (key ny = k) then Some (Some (entry ny)) else Some None
  end.

(** [for i := s.level; i < lvl; i++ { update[i] = s.head }] *)
Definition raise_update (lo hi : nat) (update : list ptr) : list ptr :=
  foldl (fun u i => <[i := Some head]> u) update (seq lo (hi - lo)).

(** [for i := 0; i < lvl; i++ { newNode.forward[i] = update[i].forward[i];
    update[i].forward[i] = newNode }], from level [i] on, [n] levels to go. *)
Fixpoint link (n i : nat) (update : list ptr) (a : nat) (h : list node)
  : option (list node) :=
  match n with
  | O => Some h
  | S n =>
    match update !! i with
    | Some (Some u) =>
      nxt ← fwd h u i;
      h ← set_fwd h a i nxt;
      h ← set_fwd h u i (Some a);
      link n (S i) update a h
    | _ => None
    end
  end.

(** The rest of [Upsert] once no node holds the key: draw a level, raise the
    list's level if needed, allocate the node and link it in. *)
Definition insert_node (k : bytes) (e : Entry) (s : SkipList) (update : list ptr)
  : option SkipList :=
  let '(lvl, p) := randomLevel s in
  let update := if decide (level s < lvl) then raise_update (level s) lvl update
                else update in
  let level' := if decide (level s < lvl) then lvl else level s in
  let a := length (heap s) in
  let h := heap s ++ [mkNode k e (replicate lvl None)] in
  h ← link lvl 0 update a h;
  Some (mkSkipList h level' (rnd s) p).

(** [Upsert].  [None] stands for a panic or a walk that did not end. *)
Definition Upsert (k : bytes) (e : Entry) (s : SkipList) : option SkipList :=
  '(x, update) ← descend (walk_fuel (heap s)) (heap s) (level s) head k
                   (replicate maxLevel None);
  x0 ← fwd (heap s) x 0;
  match x0 with
  | Some y =>
    ny ← heap s !! y;
    if decide (key ny = k)
    then Some (mkSkipList (<[y := mkNode (key ny) e (forward ny)]> (heap s))
                          (level s) (rnd s) (pos s))
    else insert_node k e s update
  | None => insert_node k e s update
  end.

(** [First] *)
Definition First (s : SkipList) : option ptr := fwd (heap s) head 0.

(** [FirstGE] *)
Definition FirstGE (target : bytes) (s : SkipList) : option ptr :=
  '(x, _) ← descend (walk_fuel (heap s)) (heap s) (level s) head target [];
  fwd (heap s) x 0.

(** The nodes of level [i] in the order the forward pointers give, from the
    successor of [x] on. *)
Fixpoint level_from (fuel : nat) (h : list node) (i x : nat) : option (list nat) :=
  match fuel with
  | O => None
  | S fuel =>
    match fwd h x i with
    | None => None
    | Some None => Some []
    | Some (Some y) => (y ::.) <$> level_from fuel h i y
    end
  end.

Definition level_nodes (s : SkipList) (i : nat) : option (list nat) :=
  level_from (walk_fuel (heap s)) (heap s) i head.

Definition key_at (h : list node) (a : nat) : bytes :=
  default [] (key <$> h !! a).

Definition entry_at (h : list node) (a : nat) : Entry :=
  default emptyEntry (entry <$> h !! a).

Definition height (h : list node) (a : nat) : nat :=
  default 0 (length ∘ forward <$> h !! a).

(** Strictly ascending keys. *)
Fixpoint ascending (ks : list bytes) : Prop :=
  match ks with
  | [] => True
  | k :: r => match r with [] => True | k' :: _ => key_ltb k k' = true end /\ ascending r
  end.

(** *** The order on keys *)

Definition key_lt (a b : bytes) : Prop := key_ltb a b = true.

Lemma key_ltb_irrefl a : key_ltb a a = false.
Proof.
  induction a as [|x a IH]; [done|]. simpl.
  by rewrite N.ltb_irrefl.
Qed.

Lemma key_ltb_trans a b c :
  key_ltb a b = true -> key_ltb b c = true -> key_ltb a c = true.
Proof.
  revert b c. induction a as [|x a IH]; intros [|y b] [|z c]; simpl; try done.
  destruct (Byte.to_N x <? Byte.to_N y)%N eqn:Exy.
  - intros _. destruct (Byte.to_N y <? Byte.to_N z)%N eqn:Eyz.
    + intros _. apply N.ltb_lt in Exy, Eyz.
      assert ((Byte.to_N x <? Byte.to_N z)%N = true) as -> by (apply N.ltb_lt; lia). done.
    + destruct (Byte.to_N z <? Byte.to_N y)%N eqn:Ezy; [done|].
      intros _. apply N.ltb_ge in Eyz, Ezy. apply N.ltb_lt in Exy.
      assert ((Byte.to_N x <? Byte.to_N z)%N = true) as -> by (apply N.ltb_lt; lia). done.
  - destruct (Byte.to_N y <? Byte.to_N x)%N eqn:Eyx; [done|].
    apply N.ltb_ge in Exy, Eyx. intros Hab.
    destruct (Byte.to_N y <? Byte.to_N z)%N eqn:Eyz.
    + intros _. apply N.ltb_lt in Eyz.
      assert ((Byte.to_N x <? Byte.to_N z)%N = true) as -> by (apply N.ltb_lt; lia). done.
    + destruct (Byte.to_N z <? Byte.to_N y)%N eqn:Ezy; [done|].
      apply N.ltb_ge in Eyz, Ezy. intros Hbc.
      assert ((Byte.to_N x <? Byte.to_N z)%N = false) as -> by (apply N.ltb_ge; lia).
      assert ((Byte.to_N z <? Byte.to_N x)%N = false) as -> by (apply N.ltb_ge; lia).
      eauto.
Qed.

#[local] Instance key_lt_trans : Transitive key_lt.
Proof. intros a b c. apply key_ltb_trans. Qed.

(** *** Reading and writing forward pointers *)

Lemma set_fwd_length h x i v h' : set_fwd h x i v = Some h' -> length h' = length h.
Proof.
  unfold set_fwd. destruct (h !! x) as [n|]; [|done]. simpl.
  case_decide; [|done]. intros [= <-]. by rewrite length_insert.
Qed.

Lemma set_fwd_is_Some h x i v :
  i < height h x -> is_Some (set_fwd h x i v).
Proof.
  unfold set_fwd, height. destruct (h !! x) as [n|]; simpl; [|lia].
  intros Hi. case_decide; [by eexists|lia].
Qed.

Lemma fwd_set_fwd h x i v h' y j :
  set_fwd h x i v = Some h' ->
  fwd h' y j = if decide (y = x /\ j = i) then Some v else fwd h y j.
Proof.
  unfold set_fwd, fwd. destruct (h !! x) as [n|] eqn:Hx; [|done]. simpl.
  case_decide as Hi; [|done]. intros [= <-].
  destruct (decide (y = x)) as [->|Hne].
  - rewrite list_lookup_insert_eq by (by eapply lookup_lt_Some). rewrite Hx. simpl.
    destruct (decide (j = i)) as [->|Hj].
    + rewrite decide_True by done. by rewrite list_lookup_insert_eq.
    + rewrite decide_False by (intros [_ ?]; done). by rewrite list_lookup_insert_ne.
  - rewrite list_lookup_insert_ne by done.
    by rewrite decide_False by (intros [? _]; done).
Qed.

Lemma set_fwd_key h x i v h' a : set_fwd h x i v = Some h' -> key_at h' a = key_at h a.
Proof.
  unfold set_fwd, key_at. destruct (h !! x) as [n|] eqn:Hx; [|done]. simpl.
  case_decide; [|done]. intros [= <-].
  destruct (decide (a = x)) as [->|Hne].
  - rewrite list_lookup_insert_eq by (by eapply lookup_lt_Some). by rewrite Hx.
  - by rewrite list_lookup_insert_ne.
Qed.

Lemma set_fwd_entry h x i v h' a :
  set_fwd h x i v = Some h' -> entry_at h' a = entry_at h a.
Proof.
  unfold set_fwd, entry_at. destruct (h !! x) as [n|] eqn:Hx; [|done]. simpl.
  case_decide; [|done]. intros [= <-].
  destruct (decide (a = x)) as [->|Hne].
  - rewrite list_lookup_insert_eq by (by eapply lookup_lt_Some). by rewrite Hx.
  - by rewrite list_lookup_insert_ne.
Qed.

Lemma set_fwd_height h x i v h' a :
  set_fwd h x i v = Some h' -> height h' a = height h a.
Proof.
  unfold set_fwd, height. destruct (h !! x) as [n|] eqn:Hx; [|done]. simpl.
  case_decide; [|done]. intros [= <-].
  destruct (decide (a = x)) as [->|Hne].
  - rewrite list_lookup_insert_eq by (by eapply lookup_lt_Some). rewrite Hx. simpl.
    by rewrite length_insert.
  - by rewrite list_lookup_insert_ne.
Qed.

Lemma fwd_is_Some h x i : i < height h x -> is_Some (fwd h x i).
Proof.
  unfold fwd, height. destruct (h !! x) as [n|]; simpl; [|lia].
  apply lookup_lt_is_Some_2.
Qed.

Lemma fwd_height h x i v : fwd h x i = Some v -> i < height h x.
Proof.
  unfold fwd, height. destruct (h !! x) as [n|]; simpl; [|done].
  apply lookup_lt_Some.
Qed.

(** *** Chains of forward pointers *)

(** From [x], the pointers of level [i] visit exactly [l] and end in nil. *)
Fixpoint chain (h : list node) (i x : nat) (l : list nat) : Prop :=
  match l with
  | [] => fwd h x i = Some None
  | y :: r => fwd h x i = Some (Some y) /\ chain h i y r
  end.

Lemma chain_split h i x l1 y l2 : chain h i x (l1 ++ y :: l2) -> chain h i y l2.
Proof.
  revert x. induction l1 as [|a l1 IH]; intros x; simpl; [tauto|].
  intros [_ H]. eauto.
Qed.

Lemma chain_ext h h' i x l :
  (forall y, y ∈ x :: l -> fwd h' y i = fwd h y i) ->
  chain h i x l -> chain h' i x l.
Proof.
  revert x. induction l as [|a l IH]; intros x Heq; simpl.
  - intros H. rewrite Heq by set_solver. done.
  - intros [? ?]. rewrite Heq by set_solver. split; [done|].
    apply IH; [|done]. intros y Hy. apply Heq. set_solver.
Qed.


Definition key_below (h : list node) (k : bytes) (a : nat) : Prop :=
  exists n, h !! a = Some n /\ key_ltb (key n) k = true.

Definition key_not_below (h : list node) (k : bytes) (a : nat) : Prop :=
  exists n, h !! a = Some n /\ key_ltb (key n) k = false.

(** The walk along one level stops at the last node whose key is below [k]. *)
Lemma advance_chain h i k fuel x l1 l2 :
  chain h i x (l1 ++ l2) ->
  Forall (key_below h k) l1 ->
  match l2 with [] => True | b :: _ => key_not_below h k b end ->
  length l1 < fuel ->
  advance fuel h i x k = Some (default x (last l1)).
Proof.
  revert x fuel. induction l1 as [|a l1 IH]; intros x fuel Hc Hb Hnb Hlt.
  - destruct fuel; [lia|]. simpl in *. destruct l2 as [|b l2]; simpl in Hc.
    + by rewrite Hc.
    + destruct Hc as [-> _]. destruct Hnb as (n & -> & ->). done.
  - destruct fuel; [simpl in Hlt; lia|]. simpl in Hc. destruct Hc as [Hx Hc].
    apply Forall_cons in Hb as [(n & Hn & Hk) Hb].
    cbn [advance]. rewrite Hx, Hn, Hk.
    rewrite (IH a fuel Hc Hb Hnb) by (simpl in Hlt; lia).
    rewrite last_cons. by destruct (last l1).
Qed.

(** *** The representation invariant *)

Definition taller (h : list node) (i a : nat) : Prop := i < height h a.

#[local] Instance taller_dec h i a : Decision (taller h i a).
Proof. unfold taller. apply _. Defined.

(** [Inv s L]: the real nodes of [s] are the addresses [L], in level-0
    order; level [i] threads exactly the nodes of [L] taller than [i]. *)
Record Inv (s : SkipList) (L : list nat) : Prop := mkInv {
  inv_head : head < length (heap s) /\ height (heap s) head = maxLevel;
  inv_nodup : NoDup L;
  inv_range : Forall (fun a => 0 < a < length (heap s)) L;
  inv_sorted : StronglySorted key_lt (key_at (heap s) <$> L);
  inv_height : Forall (fun a => 1 <= height (heap s) a <= level s) L;
  inv_level : 1 <= level s <= maxLevel;
  inv_chain : forall i, i < maxLevel ->
              chain (heap s) i head (filter (taller (heap s) i) L);
  inv_all : forall a, height (heap s) a <= maxLevel
}.

Lemma key_at_lookup h a n : h !! a = Some n -> key_at h a = key n.
Proof. unfold key_at. by intros ->. Qed.

Lemma sorted_split h k L :
  Forall (fun a => a < length h) L ->
  StronglySorted key_lt (key_at h <$> L) ->
  exists L1 L2, L = L1 ++ L2 /\
    Forall (key_below h k) L1 /\ Forall (key_not_below h k) L2.
Proof.
  induction L as [|a L IH]; intros Hr Hs.
  - exists [], []. by repeat split.
  - apply Forall_cons in Hr as [Ha Hr]. rewrite fmap_cons in Hs.
    apply StronglySorted_inv in Hs as [Hs Hall].
    destruct (lookup_lt_is_Some_2 _ _ Ha) as [n Hn].
    destruct (key_ltb (key n) k) eqn:E.
    + destruct (IH Hr Hs) as (L1 & L2 & -> & H1 & H2).
      exists (a :: L1), L2. split; [done|]. split; [|done].
      constructor; [|done]. by exists n.
    + exists [], (a :: L). split; [done|]. split; [done|].
      constructor; [by exists n|].
      rewrite Forall_fmap in Hall. rewrite Forall_forall in Hall, Hr |- *.
      intros b Hb. destruct (lookup_lt_is_Some_2 _ _ (Hr b Hb)) as [m Hm].
      exists m. split; [done|]. specialize (Hall b Hb). simpl in Hall.
      rewrite (key_at_lookup _ _ _ Hn), (key_at_lookup _ _ _ Hm) in Hall.
      destruct (key_ltb (key m) k) eqn:E'; [|done].
      rewrite (key_ltb_trans _ _ _ Hall E') in E. done.
Qed.

(** The predecessor the descent records for level [i]. *)
Definition pred_at (h : list node) (i : nat) (L1 : list nat) : nat :=
  default head (last (filter (taller h i) L1)).

Lemma pred_at_cases h i L1 :
  pred_at h i L1 = head \/ pred_at h i L1 ∈ filter (taller h i) L1.
Proof.
  unfold pred_at. destruct (last (filter (taller h i) L1)) as [y|] eqn:E; [|by left].
  right. simpl. apply last_Some in E as [l' ->]. set_solver.
Qed.

Lemma taller_filter_mono h i (a : nat) (L : list nat) :
  a ∈ filter (taller h (S i)) L -> a ∈ filter (taller h i) L.
Proof.
  rewrite !list_elem_of_filter. unfold taller. intros [? ?]. split; [lia|done].
Qed.

Lemma inv_length s L : Inv s L -> length L < length (heap s).
Proof.
  intros HI. destruct HI as [[Hn _] Hnd Hr _ _ _ _ _].
  assert (Hsub : head :: L ⊆+ seq 0 (length (heap s))).
  { apply NoDup_submseteq.
    - constructor; [|done]. rewrite Forall_forall in Hr. intros Hin.
      apply Hr in Hin. unfold head in Hin. lia.
    - intros x Hx. apply elem_of_seq. apply elem_of_cons in Hx as [->|Hx].
      + unfold head in *. lia.
      + rewrite Forall_forall in Hr. apply Hr in Hx. lia. }
  apply submseteq_length in Hsub. rewrite length_seq in Hsub. simpl in Hsub. lia.
Qed.

Lemma descend_spec h k L1 L2 fuel n x upd :
  (forall i, i < maxLevel -> chain h i head (filter (taller h i) (L1 ++ L2))) ->
  Forall (key_below h k) L1 ->
  Forall (key_not_below h k) L2 ->
  length L1 < fuel ->
  n <= maxLevel ->
  (forall i, n = S i -> x = head \/ x ∈ filter (taller h i) L1) ->
  exists upd',
    descend fuel h n x k upd = Some (match n with O => x | _ => pred_at h 0 L1 end, upd') /\
    length upd' = length upd /\
    forall j, upd' !! j = if decide (j < n /\ j < length upd)
                          then Some (Some (pred_at h j L1)) else upd !! j.
Proof.
  intros Hch H1 H2 Hfuel. revert x upd.
  induction n as [|i IH]; intros x upd Hn Hx.
  - exists upd. split; [done|]. split; [done|]. intros j.
    rewrite decide_False by lia. done.
  - assert (Hadv : advance fuel h i x k = Some (pred_at h i L1)).
    { specialize (Hch i ltac:(lia)). rewrite filter_app in Hch.
      assert (Hnb : match filter (taller h i) L2 with
                    | [] => True | b :: _ => key_not_below h k b end).
      { destruct (filter (taller h i) L2) as [|b r] eqn:E; [done|].
        assert (Hb : b ∈ filter (taller h i) L2) by (rewrite E; set_solver).
        apply list_elem_of_filter in Hb as [_ Hb].
        rewrite Forall_forall in H2. by apply H2. }
      assert (Hbel : Forall (key_below h k) (filter (taller h i) L1)).
      { rewrite Forall_forall in H1 |- *. intros a Ha.
        apply list_elem_of_filter in Ha as [_ Ha]. by apply H1. }
      assert (Hlen : length (filter (taller h i) L1) <= length L1)
        by apply length_filter.
      destruct (Hx i eq_refl) as [->|Hin].
      - rewrite (advance_chain _ _ _ _ _ _ _ Hch Hbel Hnb) by lia. done.
      - apply list_elem_of_split in Hin as (A & B' & HAB).
        unfold pred_at. rewrite HAB in Hch, Hbel, Hlen |- *.
        rewrite <- app_assoc in Hch. simpl in Hch.
        apply chain_split in Hch.
        apply Forall_app in Hbel as [_ Hbel]. apply Forall_cons in Hbel as [_ Hbel].
        rewrite length_app in Hlen. simpl in Hlen.
        rewrite (advance_chain _ _ _ _ _ _ _ Hch Hbel Hnb) by lia.
        f_equal. rewrite last_app, last_cons. by destruct (last B'). }
    cbn [descend]. rewrite Hadv.
    destruct (IH (pred_at h i L1) (<[i:=Some (pred_at h i L1)]> upd)) as (upd' & Hd & Hl & Hu).
    { lia. }
    { intros i' ->. destruct (pred_at_cases h (S i') L1) as [?|Hin]; [by left|].
      right. by apply taller_filter_mono. }
    exists upd'. split.
    { rewrite Hd. f_equal. f_equal. destruct i; [done|]. done. }
    split; [by rewrite Hl, length_insert|].
    intros j. rewrite Hu, length_insert.
    destruct (decide (j < i /\ j < length upd)) as [[? ?]|Hno].
    + rewrite decide_True by lia. done.
    + rewrite list_lookup_insert.
      destruct (decide (i = j /\ i < length upd)) as [[-> ?]|Hno'].
      * rewrite decide_True by lia. done.
      * rewrite decide_False by lia. done.
Qed.

Lemma key_ltb_total a b : key_ltb a b = false -> key_ltb b a = false -> a = b.
Proof.
  revert b. induction a as [|x a IH]; intros [|y b]; simpl; try done.
  destruct (Byte.to_N x <? Byte.to_N y)%N eqn:Exy; [done|].
  destruct (Byte.to_N y <? Byte.to_N x)%N eqn:Eyx; [done|].
  intros Hab Hba. apply N.ltb_ge in Exy, Eyx.
  assert (Hxy : Byte.to_N x = Byte.to_N y) by lia.
  assert (x = y) as ->.
  { pose proof (Byte.of_to_N x) as Hx. rewrite Hxy, Byte.of_to_N in Hx. congruence. }
  f_equal. eauto.
Qed.

Lemma filter_ext_elem {A} (P Q : A -> Prop) `{!forall x, Decision (P x)}
    `{!forall x, Decision (Q x)} (l : list A) :
  (forall x, x ∈ l -> P x <-> Q x) -> filter P l = filter Q l.
Proof.
  induction l as [|a l IH]; intros Hext; [done|].
  rewrite !filter_cons. rewrite IH by (intros x Hx; apply Hext; set_solver).
  destruct (decide (P a)) as [Hp|Hp], (decide (Q a)) as [Hq|Hq]; try done.
  - apply Hext in Hp; [done|set_solver].
  - apply Hext in Hq; [done|set_solver].
Qed.

Lemma randomLevel_from_range gap lvl coins p :
  lvl <= (randomLevel_from gap lvl coins p).1 <= lvl + gap.
Proof.
  revert lvl p. induction gap as [|gap IH]; intros lvl p; simpl; [lia|].
  destruct (coins p); simpl; [|lia]. specialize (IH (S lvl) (S p)). lia.
Qed.

Lemma raise_seq_lookup n lo (upd : list ptr) j :
  foldl (fun u i => <[i := Some head]> u) upd (seq lo n) !! j =
  if decide (lo <= j < lo + n /\ j < length upd) then Some (Some head) else upd !! j.
Proof.
  revert lo upd. induction n as [|n IH]; intros lo upd.
  - simpl. rewrite decide_False by lia. done.
  - simpl. rewrite IH, length_insert, list_lookup_insert.
    destruct (decide (lo = j /\ lo < length upd)) as [[Hj ?]|H1];
      destruct (decide (S lo <= j < S lo + n /\ j < length upd));
      destruct (decide (lo <= j < lo + S n /\ j < length upd)); try done; lia.
Qed.

Lemma raise_update_lookup lo hi upd j :
  raise_update lo hi upd !! j =
  if decide (lo <= j < hi /\ j < length upd) then Some (Some head) else upd !! j.
Proof.
  unfold raise_update. rewrite raise_seq_lookup.
  destruct (decide (lo <= j < lo + (hi - lo) /\ j < length upd)),
           (decide (lo <= j < hi /\ j < length upd)); try done; lia.
Qed.

Lemma chain_after_last h i x A B0 :
  chain h i x (A ++ B0) -> fwd h (default x (last A)) i = Some (B0 !! 0).
Proof.
  revert x. induction A as [|c A IH]; intros x; simpl.
  - destruct B0; simpl; tauto.
  - intros [_ Hc]. rewrite last_cons. specialize (IH c Hc).
    by destruct (last A).
Qed.

(** Splicing node [a] into a chain after the last node of [A]. *)
Lemma chain_insert h h' i a x A B0 :
  chain h i x (A ++ B0) ->
  NoDup (x :: A ++ B0) -> a ∉ x :: A ++ B0 ->
  fwd h' (default x (last A)) i = Some (Some a) ->
  fwd h' a i = fwd h (default x (last A)) i ->
  (forall y, y <> default x (last A) -> y <> a -> fwd h' y i = fwd h y i) ->
  chain h' i x (A ++ a :: B0).
Proof.
  revert x. induction A as [|c A IH]; intros x Hc Hnd Ha Hu Hn Hoth.
  - simpl in *. split; [done|]. destruct B0 as [|b B']; simpl in *.
    { by rewrite Hn. }
    destruct Hc as [Hx Hc]. split; [by rewrite Hn|].
    apply (chain_ext h); [|done]. intros y Hy. apply Hoth.
    + intros ->. apply NoDup_cons in Hnd as [Hnd _]. done.
    + intros ->. apply Ha. set_solver.
  - simpl in Hc. destruct Hc as [Hx Hc].
    assert (Hlast : default x (last (c :: A)) = default c (last A)).
    { rewrite last_cons. by destruct (last A). }
    rewrite Hlast in Hu, Hn, Hoth.
    assert (Hin : default c (last A) ∈ c :: A).
    { destruct (last A) as [y|] eqn:E; simpl; [|set_solver].
      apply last_Some in E as [l' ->]. set_solver. }
    simpl. split.
    + rewrite Hoth; [done| |].
      * intros ->. apply NoDup_cons in Hnd as [Hnd _]. apply Hnd.
        change (c :: A ++ B0) with ((c :: A) ++ B0). set_solver.
      * intros ->. apply Ha. set_solver.
    + apply IH; try done.
      * by apply NoDup_cons in Hnd as [_ ?].
      * set_solver.
Qed.

(** What the linking loop leaves in the heap. *)
Lemma link_spec n : forall i0 upd a h,
  (forall j, i0 <= j < i0 + n ->
     exists u, upd !! j = Some (Some u) /\ u <> a /\ j < height h u /\ j < height h a) ->
  exists h', link n i0 upd a h = Some h' /\
    length h' = length h /\
    (forall x, key_at h' x = key_at h x) /\
    (forall x, entry_at h' x = entry_at h x) /\
    (forall x, height h' x = height h x) /\
    forall x j, fwd h' x j =
      if decide (i0 <= j < i0 + n) then
        match upd !! j with
        | Some (Some u) =>
          if decide (x = u) then Some (Some a)
          else if decide (x = a) then fwd h u j else fwd h x j
        | _ => fwd h x j
        end
      else fwd h x j.
Proof.
  induction n as [|n IH]; intros i0 upd a h Hpre.
  - exists h. repeat split; try done. intros x j. by rewrite decide_False by lia.
  - destruct (Hpre i0 ltac:(lia)) as (u & Hu & Hua & Hhu & Hha).
    cbn [link]. rewrite Hu.
    destruct (fwd_is_Some _ _ _ Hhu) as [nxt Hnxt]. rewrite Hnxt. simpl.
    destruct (set_fwd_is_Some h a i0 nxt Hha) as [h1 H1]. rewrite H1. simpl.
    assert (Hhu1 : i0 < height h1 u) by (by rewrite (set_fwd_height _ _ _ _ _ _ H1)).
    destruct (set_fwd_is_Some h1 u i0 (Some a) Hhu1) as [h2 H2]. rewrite H2. simpl.
    assert (Hh2 : forall x, height h2 x = height h x).
    { intros x. by rewrite (set_fwd_height _ _ _ _ _ _ H2), (set_fwd_height _ _ _ _ _ _ H1). }
    destruct (IH (S i0) upd a h2) as (h' & Hl & Hlen & Hk & He & Hh & Hf).
    { intros j Hj. destruct (Hpre j ltac:(lia)) as (u' & ? & ? & ? & ?).
      exists u'. rewrite !Hh2. done. }
    exists h'. split; [done|]. split.
    { by rewrite Hlen, (set_fwd_length _ _ _ _ _ H2), (set_fwd_length _ _ _ _ _ H1). }
    split. { intros x. by rewrite Hk, (set_fwd_key _ _ _ _ _ _ H2), (set_fwd_key _ _ _ _ _ _ H1). }
    split. { intros x. by rewrite He, (set_fwd_entry _ _ _ _ _ _ H2), (set_fwd_entry _ _ _ _ _ _ H1). }
    split. { intros x. by rewrite Hh. }
    intros x j. rewrite Hf.
    assert (Hf2 : forall y j', fwd h2 y j' =
              if decide (y = u /\ j' = i0) then Some (Some a)
              else if decide (y = a /\ j' = i0) then Some nxt else fwd h y j').
    { intros y j'. rewrite (fwd_set_fwd _ _ _ _ _ _ _ H2), (fwd_set_fwd _ _ _ _ _ _ _ H1). done. }
    destruct (decide (S i0 <= j < S i0 + n)) as [Hj|Hj].
    + rewrite decide_True by lia. destruct (upd !! j) as [[u'|]|]; rewrite ?Hf2.
      * destruct (decide (x = u')); [done|]. destruct (decide (x = a)).
        -- rewrite !decide_False by lia. done.
        -- rewrite !decide_False by lia. done.
      * rewrite !decide_False by lia. done.
      * rewrite !decide_False by lia. done.
    + rewrite Hf2. destruct (decide (j = i0)) as [->|Hne].
      * rewrite (decide_True (P := i0 <= i0 < i0 + S n)) by lia. rewrite Hu.
        destruct (decide (x = u)) as [->|Hxu].
        -- by rewrite decide_True.
        -- rewrite decide_False by (intros [? _]; done).
           destruct (decide (x = a)) as [->|Hxa].
           ++ by rewrite decide_True.
           ++ by rewrite decide_False by (intros [? _]; done).
      * rewrite !decide_False by lia. done.
Qed.

(** *** The invariant under the two outcomes of [Upsert] *)

Lemma height_ge h x : length h <= x -> height h x = 0.
Proof. intros Hx. unfold height. by rewrite lookup_ge_None_2. Qed.


Lemma Inv_filter0 s L : Inv s L -> filter (taller (heap s) 0) L = L.
Proof.
  intros HI. pose proof (inv_height _ _ HI) as Hh. clear HI.
  induction Hh as [|a L Ha Hh IH]; [done|].
  rewrite filter_cons_True by (unfold taller; lia). by rewrite IH.
Qed.

Lemma Inv_ext s s' L :
  Inv s L ->
  length (heap s') = length (heap s) ->
  level s' = level s ->
  (forall x, key_at (heap s') x = key_at (heap s) x) ->
  (forall x, height (heap s') x = height (heap s) x) ->
  (forall x j, fwd (heap s') x j = fwd (heap s) x j) ->
  Inv s' L.
Proof.
  intros [Hhd Hnd Hr Hs Hh Hl Hc Ha] Hlen Hlev Hk Hht Hf.
  constructor; rewrite ?Hlen, ?Hlev; try done.
  - by rewrite Hht.
  - erewrite list_fmap_ext; [exact Hs|]. intros ? x _. apply Hk.
  - eapply Forall_impl; [exact Hh|]. intros x. simpl. by rewrite Hht.
  - intros i Hi. rewrite (list_filter_iff _ (taller (heap s) i)).
    2: { intros x. unfold taller. by rewrite Hht. }
    apply (chain_ext (heap s)); [|by apply Hc]. intros y _. apply Hf.
  - intros a. by rewrite Hht.
Qed.

Lemma Inv_overwrite s L y ny e :
  Inv s L ->
  heap s !! y = Some ny ->
  Inv (mkSkipList (<[y := mkNode (key ny) e (forward ny)]> (heap s))
                  (level s) (rnd s) (pos s)) L.
Proof.
  intros HI Hy. assert (Hlt : y < length (heap s)) by (by eapply lookup_lt_Some).
  apply (Inv_ext s); simpl; try done.
  - by rewrite length_insert.
  - intros x. unfold key_at. destruct (decide (x = y)) as [->|Hne].
    + rewrite list_lookup_insert_eq by done. by rewrite Hy.
    + by rewrite list_lookup_insert_ne.
  - intros x. unfold height. destruct (decide (x = y)) as [->|Hne].
    + rewrite list_lookup_insert_eq by done. by rewrite Hy.
    + by rewrite list_lookup_insert_ne.
  - intros x j. unfold fwd. destruct (decide (x = y)) as [->|Hne].
    + rewrite list_lookup_insert_eq by done. by rewrite Hy.
    + by rewrite list_lookup_insert_ne.
Qed.

Lemma Inv_insert s L1 L2 k lvl h' level' rnd' pos' :
  let h := heap s in
  let a := length h in
  Inv s (L1 ++ L2) ->
  Forall (key_below h k) L1 ->
  Forall (fun b => key_ltb k (key_at h b) = true) L2 ->
  1 <= lvl <= maxLevel ->
  level' = (if decide (level s < lvl) then lvl else level s) ->
  length h' = S (length h) ->
  (forall x, x < a -> key_at h' x = key_at h x) ->
  key_at h' a = k ->
  (forall x, x < a -> height h' x = height h x) ->
  height h' a = lvl ->
  (forall j, j < lvl ->
     fwd h' (pred_at h j L1) j = Some (Some a) /\
     fwd h' a j = fwd h (pred_at h j L1) j /\
     forall x, x <> pred_at h j L1 -> x <> a -> fwd h' x j = fwd h x j) ->
  (forall j x, lvl <= j -> x <> a -> fwd h' x j = fwd h x j) ->
  Inv (mkSkipList h' level' rnd' pos') (L1 ++ a :: L2).
Proof.
  intros h a [Hhd Hnd Hr Hs Hh Hl Hc Ha] H1 H2 Hlvl -> Hlen Hk Hka Hht Hhta Hf1 Hf2.
  fold h in Hhd, Hr, Hs, Hh, Hc, Ha.
  assert (HrL : forall x, x ∈ L1 ++ L2 -> 0 < x < a).
  { rewrite Forall_forall in Hr. done. }
  assert (HaL : a ∉ L1 ++ L2).
  { intros Hin. apply HrL in Hin. lia. }
  assert (Hfilt : forall i (l : list nat), (forall x, x ∈ l -> x < a) ->
            filter (taller h' i) l = filter (taller h i) l).
  { intros i l Hl'. apply filter_ext_elem. intros x Hx. unfold taller.
    by rewrite Hht by (by apply Hl'). }
  constructor; simpl.
  - destruct Hhd as [Hh0 Hhm]. fold a in Hh0. split; [lia|]. by rewrite Hht.
  - apply NoDup_app in Hnd as (Hn1 & Hn12 & Hn2). apply NoDup_app.
    split; [done|]. split.
    + intros x Hx Hx'. apply elem_of_cons in Hx' as [->|Hx'].
      * apply HaL. set_solver.
      * by apply (Hn12 x).
    + constructor; [|done]. intros Hin. apply HaL. set_solver.
  - rewrite Hlen. fold a. rewrite Forall_forall. intros x Hx.
    apply elem_of_app in Hx as [Hx|Hx].
    + assert (0 < x < a) by (apply HrL; set_solver). lia.
    + apply elem_of_cons in Hx as [->|Hx]; [unfold head in *; lia|].
      assert (0 < x < a) by (apply HrL; set_solver). lia.
  - rewrite fmap_app, fmap_cons, Hka.
    rewrite fmap_app in Hs. apply StronglySorted_app in Hs as (H12 & Hs1 & Hs2).
    assert (E1 : key_at h' <$> L1 = key_at h <$> L1).
    { apply list_fmap_ext. intros ? x Hx. apply Hk.
      apply list_elem_of_lookup_2 in Hx. apply HrL. set_solver. }
    assert (E2 : key_at h' <$> L2 = key_at h <$> L2).
    { apply list_fmap_ext. intros ? x Hx. apply Hk.
      apply list_elem_of_lookup_2 in Hx. apply HrL. set_solver. }
    rewrite E1, E2. apply StronglySorted_app_2.
    + intros x1 x2 Hx1 Hx2. apply list_elem_of_fmap in Hx1 as (y1 & -> & Hy1).
      assert (Hb : key_lt (key_at h y1) k).
      { rewrite Forall_forall in H1. destruct (H1 _ Hy1) as (n & Hn & Hlt).
        unfold key_lt. by rewrite (key_at_lookup _ _ _ Hn). }
      apply elem_of_cons in Hx2 as [->|Hx2]; [done|].
      apply list_elem_of_fmap in Hx2 as (y2 & -> & Hy2).
      etrans; [exact Hb|]. rewrite Forall_forall in H2. by apply H2.
    + done.
    + constructor; [done|]. rewrite Forall_fmap.
      eapply Forall_impl; [exact H2|]. done.
  - rewrite Forall_forall in Hh |- *. intros x Hx.
    assert (Hcase : x = a \/ x ∈ L1 ++ L2) by set_solver.
    destruct Hcase as [->|Hx'].
    + rewrite Hhta. case_decide; lia.
    + rewrite Hht by (by apply HrL). specialize (Hh x Hx'). case_decide; lia.
  - case_decide; lia.
  - intros i Hi. specialize (Hc i Hi). rewrite filter_app in Hc.
    rewrite filter_app, filter_cons.
    rewrite !Hfilt by (intros x Hx; apply HrL; set_solver).
    assert (Hnd' : NoDup (head :: filter (taller h i) L1 ++ filter (taller h i) L2)).
    { rewrite <- filter_app. constructor.
      - intros Hin. apply list_elem_of_filter in Hin as [_ Hin].
        apply HrL in Hin. unfold head in Hin. lia.
      - by apply NoDup_filter. }
    assert (Hnotin : a ∉ head :: filter (taller h i) L1 ++ filter (taller h i) L2).
    { rewrite <- filter_app. intros Hin. apply elem_of_cons in Hin as [Hin|Hin].
      - destruct Hhd as [Hh0 _]. fold a in Hh0. unfold head in *. lia.
      - apply list_elem_of_filter in Hin as [_ Hin]. by apply HaL. }
    destruct (decide (taller h' i a)) as [Ht|Ht]; unfold taller in Ht; rewrite Hhta in Ht.
    + destruct (Hf1 i Ht) as (Hu & Hn & Hoth).
      by apply (chain_insert h).
    + apply (chain_ext h); [|done]. intros y Hy. apply Hf2; [lia|].
      intros ->. by apply Hnotin.
  - intros x. destruct (decide (x < a)) as [Hx|Hx].
    + by rewrite Hht.
    + destruct (decide (x = a)) as [->|Hne]; [rewrite Hhta; lia|].
      rewrite height_ge; [lia|]. rewrite Hlen. fold a. lia.
Qed.

Lemma app_old_lookup (h : list node) n x : x <> length h -> (h ++ [n]) !! x = h !! x.
Proof.
  intros Hx. destruct (decide (x < length h)).
  - by rewrite lookup_app_l.
  - rewrite !lookup_ge_None_2; [done|lia|]. rewrite length_app. simpl. lia.
Qed.

Lemma app_new_lookup (h : list node) n : (h ++ [n]) !! length h = Some n.
Proof. rewrite lookup_app_r by lia. by rewrite Nat.sub_diag. Qed.

(** Linking a fresh node in, given the predecessors the descent recorded. *)
Lemma insert_node_spec k e s L1 L2 upd :
  let h := heap s in
  let a := length h in
  Inv s (L1 ++ L2) ->
  Forall (key_below h k) L1 ->
  Forall (fun b => key_ltb k (key_at h b) = true) L2 ->
  length upd = maxLevel ->
  (forall j, j < level s -> upd !! j = Some (Some (pred_at h j L1))) ->
  exists s', insert_node k e s upd = Some s' /\
    Inv s' (L1 ++ a :: L2) /\ rnd s' = rnd s /\
    length (heap s') = S (length h) /\
    key_at (heap s') a = k /\ entry_at (heap s') a = e /\
    (forall x, x < a -> key_at (heap s') x = key_at h x /\
                        entry_at (heap s') x = entry_at h x /\
                        height (heap s') x = height h x).
Proof.
  intros h a HI H1 H2 Hlu Hupd. unfold insert_node.
  destruct (randomLevel s) as [lvl p] eqn:Hrl.
  assert (Hlvl : 1 <= lvl <= maxLevel).
  { pose proof (randomLevel_from_range (maxLevel - 1) 1 (rnd s) (pos s)) as Hr.
    unfold randomLevel in Hrl. rewrite Hrl in Hr. simpl in Hr. unfold maxLevel in *. lia. }
  set (upd2 := if decide (level s < lvl) then raise_update (level s) lvl upd else upd).
  set (h0 := heap s ++ [mkNode k e (replicate lvl None)]).
  fold h a.
  pose proof HI as [Hhd Hnd Hr Hs Hh Hl Hc Ha]. fold h in Hhd, Hr, Hs, Hh, Hc, Ha.
  assert (HrL : forall x, x ∈ L1 ++ L2 -> 0 < x < a).
  { rewrite Forall_forall in Hr. done. }
  assert (Hold : forall x, x < a -> h0 !! x = h !! x).
  { intros x Hx. unfold h0. apply app_old_lookup. fold h a. lia. }
  assert (Hnew : h0 !! a = Some (mkNode k e (replicate lvl None))).
  { unfold h0, a, h. apply app_new_lookup. }
  assert (Hh0 : forall x, x < a -> height h0 x = height h x).
  { intros x Hx. unfold height. by rewrite Hold. }
  assert (Hh0a : height h0 a = lvl).
  { unfold height. rewrite Hnew. simpl. by rewrite length_replicate. }
  assert (Hf0 : forall x j, x <> a -> fwd h0 x j = fwd h x j).
  { intros x j Hx. unfold fwd, h0. rewrite app_old_lookup by done. done. }
  assert (Hpred_lt : forall j, pred_at h j L1 < a).
  { intros j. destruct (pred_at_cases h j L1) as [->|Hin].
    - destruct Hhd as [? _]. done.
    - apply list_elem_of_filter in Hin as [_ Hin].
      assert (0 < pred_at h j L1 < a) by (apply HrL; set_solver). lia. }
  assert (Hpred_tall : forall j, j < maxLevel -> j < height h (pred_at h j L1)).
  { intros j Hj. destruct (pred_at_cases h j L1) as [->|Hin].
    - destruct Hhd as [_ ->]. done.
    - apply list_elem_of_filter in Hin as [Hin _]. done. }
  assert (Hpred_high : forall j, level s <= j -> pred_at h j L1 = head).
  { intros j Hj. destruct (pred_at_cases h j L1) as [->|Hin]; [done|].
    apply list_elem_of_filter in Hin as [Hin Hin'].
    rewrite Forall_forall in Hh. unfold taller in Hin.
    assert (1 <= height h (pred_at h j L1) <= level s) by (apply Hh; set_solver). lia. }
  assert (Hupd2 : forall j, j < lvl -> upd2 !! j = Some (Some (pred_at h j L1))).
  { intros j Hj. unfold upd2. destruct (decide (j < level s)) as [Hjl|Hjl].
    - case_decide; [|by apply Hupd]. rewrite raise_update_lookup.
      rewrite decide_False by lia. by apply Hupd.
    - rewrite decide_True by lia. rewrite raise_update_lookup.
      rewrite decide_True by lia. rewrite Hpred_high by lia. done. }
  destruct (link_spec lvl 0 upd2 a h0) as (h' & Hlk & Hlen & Hk & He & Hht & Hf).
  { intros j Hj. exists (pred_at h j L1). split; [apply Hupd2; lia|].
    specialize (Hpred_lt j). split; [lia|]. split.
    - rewrite Hh0 by done. apply Hpred_tall. lia.
    - rewrite Hh0a. lia. }
  rewrite Hlk. simpl. eexists. split; [done|].
  assert (Hlen' : length h' = S (length h)).
  { rewrite Hlen. unfold h0. rewrite length_app. simpl. fold h. lia. }
  assert (Hka : key_at h' a = k).
  { rewrite Hk. unfold key_at. by rewrite Hnew. }
  assert (Hkold : forall x, x < a -> key_at h' x = key_at h x).
  { intros x Hx. rewrite Hk. unfold key_at. by rewrite Hold. }
  assert (Hhold : forall x, x < a -> height h' x = height h x).
  { intros x Hx. rewrite Hht. by apply Hh0. }
  split.
  { apply (Inv_insert s L1 L2 k lvl); try done.
    - by rewrite Hht.
    - intros j Hj. rewrite !Hf. rewrite !decide_True by lia. rewrite Hupd2 by done.
      specialize (Hpred_lt j). split; [by rewrite decide_True|]. split.
      + rewrite decide_False by (fold h; lia). rewrite decide_True by done.
        apply Hf0. fold h. lia.
      + intros x Hx Hxa. rewrite Hf. rewrite decide_True by lia. rewrite Hupd2 by done.
        rewrite !decide_False by done. by apply Hf0.
    - intros j x Hj Hxa. rewrite Hf. rewrite decide_False by lia. by apply Hf0. }
  simpl. split; [done|]. split; [done|]. split; [done|]. split.
  { rewrite He. unfold entry_at. by rewrite Hnew. }
  intros x Hx. split; [by apply Hkold|]. split; [|by apply Hhold].
  rewrite He. unfold entry_at. by rewrite Hold.
Qed.

(** Where the descent for [k] ends: behind the last node below [k], in front
    of the first one that is not. *)
Lemma descend_locates s L k upd :
  let h := heap s in
  Inv s L ->
  exists L1 L2 upd',
    L = L1 ++ L2 /\ Forall (key_below h k) L1 /\ Forall (key_not_below h k) L2 /\
    descend (walk_fuel h) h (level s) head k upd = Some (pred_at h 0 L1, upd') /\
    length upd' = length upd /\
    (forall j, upd' !! j = if decide (j < level s /\ j < length upd)
                           then Some (Some (pred_at h j L1)) else upd !! j) /\
    fwd h (pred_at h 0 L1) 0 = Some (L2 !! 0).
Proof.
  intros h HI. pose proof HI as [Hhd Hnd Hr Hs Hh Hl Hc Ha].
  fold h in Hhd, Hr, Hs, Hh, Hc, Ha.
  destruct (sorted_split h k L) as (L1 & L2 & -> & H1 & H2); [|done|].
  { eapply Forall_impl; [exact Hr|]. simpl. intros; lia. }
  pose proof (inv_length _ _ HI) as HlenL. fold h in HlenL.
  rewrite length_app in HlenL.
  destruct (descend_spec h k L1 L2 (walk_fuel h) (level s) head upd)
    as (upd' & Hd & Hlu & Hu); try done.
  { unfold walk_fuel. lia. }
  { lia. }
  { intros; by left. }
  exists L1, L2, upd'. repeat (split; [done|]). split.
  { rewrite Hd. destruct (level s); [lia|done]. }
  split; [done|]. split; [done|].
  specialize (Hc 0 ltac:(unfold maxLevel; lia)).
  pose proof (Inv_filter0 _ _ HI) as Hf0. fold h in Hf0. rewrite Hf0 in Hc.
  unfold pred_at. replace (filter (taller h 0) L1) with L1.
  { by apply chain_after_last. }
  symmetry. apply Forall_app in Hh as [Hh1 _]. clear -Hh1.
  induction Hh1 as [|a L Ha Hh IH]; [done|].
  rewrite filter_cons_True by (unfold taller; lia). by rewrite IH.
Qed.

(** In a sorted list split at [k], a node holding [k] heads the second part. *)
Lemma split_key_first h k L1 L2 y :
  Forall (fun a => a < length h) (L1 ++ L2) ->
  StronglySorted key_lt (key_at h <$> L1 ++ L2) ->
  Forall (key_below h k) L1 -> Forall (key_not_below h k) L2 ->
  y ∈ L1 ++ L2 -> key_at h y = k -> L2 !! 0 = Some y.
Proof.
  intros Hr Hs H1 H2 Hy Hk. apply elem_of_app in Hy as [Hy|Hy].
  - rewrite Forall_forall in H1. destruct (H1 _ Hy) as (n & Hn & Hlt).
    rewrite <- Hk, (key_at_lookup _ _ _ Hn), key_ltb_irrefl in Hlt. done.
  - destruct L2 as [|b L2']; [set_solver|]. simpl. f_equal.
    apply elem_of_cons in Hy as [->|Hy]; [done|].
    rewrite fmap_app in Hs. apply StronglySorted_app_1_r in Hs.
    rewrite fmap_cons in Hs. apply StronglySorted_inv in Hs as [_ Hall].
    rewrite Forall_fmap, Forall_forall in Hall. specialize (Hall _ Hy). simpl in Hall.
    apply Forall_cons in H2 as [(n & Hn & Hnb) _].
    rewrite (key_at_lookup _ _ _ Hn), Hk in Hall. unfold key_lt in Hall. congruence.
Qed.

Lemma Search_found s L y :
  Inv s L -> y ∈ L ->
  Search (key_at (heap s) y) s = Some (Some (entry_at (heap s) y)).
Proof.
  intros HI Hy. set (k := key_at (heap s) y).
  destruct (descend_locates s L k [] HI) as (L1 & L2 & upd' & -> & H1 & H2 & Hd & _ & _ & Hf).
  unfold Search. rewrite Hd. simpl. rewrite Hf. simpl.
  assert (Hy0 : L2 !! 0 = Some y).
  { apply (split_key_first (heap s) k L1 L2); try done.
    - eapply Forall_impl; [exact (inv_range _ _ HI)|]. simpl. intros; lia.
    - exact (inv_sorted _ _ HI). }
  rewrite Hy0.
  assert (Hlt : y < length (heap s)).
  { pose proof (inv_range _ _ HI) as Hr. rewrite Forall_forall in Hr.
    specialize (Hr _ Hy). lia. }
  destruct (lookup_lt_is_Some_2 _ _ Hlt) as [ny Hny]. rewrite Hny. simpl.
  unfold k. rewrite (key_at_lookup _ _ _ Hny). rewrite decide_True by done.
  unfold entry_at. by rewrite Hny.
Qed.

Lemma Search_missing s L k :
  Inv s L -> (forall y, y ∈ L -> key_at (heap s) y <> k) ->
  Search k s = Some None.
Proof.
  intros HI Hno.
  destruct (descend_locates s L k [] HI) as (L1 & L2 & upd' & -> & H1 & H2 & Hd & _ & _ & Hf).
  unfold Search. rewrite Hd. simpl. rewrite Hf. simpl.
  destruct L2 as [|y L2']; [done|]. simpl.
  apply Forall_cons in H2 as [(ny & Hny & _) _]. rewrite Hny. simpl.
  rewrite decide_False; [done|]. intros Hk. apply (Hno y); [set_solver|].
  by rewrite (key_at_lookup _ _ _ Hny).
Qed.

(** What [Upsert] does to a list that satisfies the invariant: it returns,
    the invariant holds again, and either a node held the key and only its
    entry changed, or no node did and one fresh node was linked in. *)
Lemma Upsert_spec k e s L :
  let h := heap s in
  Inv s L ->
  exists s' L', Upsert k e s = Some s' /\ Inv s' L' /\ rnd s' = rnd s /\
   ((exists y, y ∈ L /\ key_at h y = k /\ L' = L /\
        length (heap s') = length h /\ level s' = level s /\ pos s' = pos s /\
        (forall x, key_at (heap s') x = key_at h x) /\
        (forall x, height (heap s') x = height h x) /\
        (forall x j, fwd (heap s') x j = fwd h x j) /\
        entry_at (heap s') y = e /\
        (forall x, x <> y -> entry_at (heap s') x = entry_at h x) /\
        exists ny, h !! y = Some ny /\
          s' = mkSkipList (<[y := mkNode (key ny) e (forward ny)]> h)
                          (level s) (rnd s) (pos s))
    \/
    ((forall y, y ∈ L -> key_at h y <> k) /\
     exists L1 L2, L = L1 ++ L2 /\ L' = L1 ++ length h :: L2 /\
        length (heap s') = S (length h) /\
        key_at (heap s') (length h) = k /\ entry_at (heap s') (length h) = e /\
        (forall x, x < length h ->
           key_at (heap s') x = key_at h x /\ entry_at (heap s') x = entry_at h x /\
           height (heap s') x = height h x))).
Proof.
  intros h HI.
  destruct (descend_locates s L k (replicate maxLevel None) HI)
    as (L1 & L2 & upd & -> & H1 & H2 & Hd & Hlu & Hu & Hf).
  fold h in H1, H2, Hd, Hu, Hf. rewrite length_replicate in Hlu, Hu.
  pose proof HI as [Hhd Hnd Hr Hs Hh Hl Hc Ha]. fold h in Hhd, Hr, Hs, Hh, Hc, Ha.
  unfold Upsert. fold h. rewrite Hd. simpl. rewrite Hf. simpl.
  assert (Hupd : forall j, j < level s -> upd !! j = Some (Some (pred_at h j L1))).
  { intros j Hj. rewrite Hu. rewrite decide_True by lia. done. }
  assert (Hins : Forall (fun b => key_ltb k (key_at h b) = true) L2 ->
     exists s' L', insert_node k e s upd = Some s' /\ Inv s' L' /\ rnd s' = rnd s /\
       ((forall y, y ∈ L1 ++ L2 -> key_at h y <> k) /\
        exists L1' L2', L1 ++ L2 = L1' ++ L2' /\ L' = L1' ++ length h :: L2' /\
          length (heap s') = S (length h) /\
          key_at (heap s') (length h) = k /\ entry_at (heap s') (length h) = e /\
          (forall x, x < length h ->
             key_at (heap s') x = key_at h x /\ entry_at (heap s') x = entry_at h x /\
             height (heap s') x = height h x))).
  { intros Hgt.
    destruct (insert_node_spec k e s L1 L2 upd HI H1 Hgt Hlu Hupd)
      as (s' & Hi & HI' & Hrnd & Hlen & Hka & Hea & Hold).
    exists s', (L1 ++ length h :: L2). repeat (split; [done|]). split.
    - intros y Hy Hk. apply elem_of_app in Hy as [Hy|Hy].
      + rewrite Forall_forall in H1. destruct (H1 _ Hy) as (n & Hn & Hlt).
        rewrite <- Hk, (key_at_lookup _ _ _ Hn), key_ltb_irrefl in Hlt. done.
      + rewrite Forall_forall in Hgt. specialize (Hgt _ Hy).
        rewrite Hk, key_ltb_irrefl in Hgt. done.
    - exists L1, L2. done. }
  destruct L2 as [|y L2'] eqn:EL2; simpl.
  { destruct (Hins ltac:(done)) as (s' & L' & ? & ? & ? & ?).
    exists s', L'. repeat (split; [done|]). by right. }
  pose proof H2 as H2'. apply Forall_cons in H2' as [(ny & Hny & Hnb) H2r].
  rewrite Hny. simpl. destruct (decide (key ny = k)) as [Hk|Hk].
  - eexists _, (L1 ++ y :: L2'). split; [done|]. split; [by apply Inv_overwrite|].
    split; [done|]. left. exists y. simpl.
    assert (Hlt : y < length h) by (by eapply lookup_lt_Some).
    split; [set_solver|]. split; [by rewrite (key_at_lookup _ _ _ Hny)|].
    split; [done|]. split; [by rewrite length_insert|]. split; [done|]. split; [done|].
    split.
    { intros x. unfold key_at. destruct (decide (x = y)) as [->|Hne].
      - rewrite list_lookup_insert_eq by done. by rewrite Hny.
      - by rewrite list_lookup_insert_ne. }
    split.
    { intros x. unfold height. destruct (decide (x = y)) as [->|Hne].
      - rewrite list_lookup_insert_eq by done. by rewrite Hny.
      - by rewrite list_lookup_insert_ne. }
    split.
    { intros x j. unfold fwd. destruct (decide (x = y)) as [->|Hne].
      - rewrite list_lookup_insert_eq by done. by rewrite Hny.
      - by rewrite list_lookup_insert_ne. }
    split.
    { unfold entry_at. by rewrite list_lookup_insert_eq. }
    split.
    { intros x Hne. unfold entry_at. by rewrite list_lookup_insert_ne. }
    exists ny. done.
  - assert (Hyk : key_ltb k (key ny) = true).
    { destruct (key_ltb k (key ny)) eqn:E; [done|].
      exfalso. apply Hk. by apply key_ltb_total. }
    destruct Hins as (s' & L' & ? & ? & ? & ?).
    { constructor; [by rewrite (key_at_lookup _ _ _ Hny)|].
      rewrite fmap_app in Hs. apply StronglySorted_app_1_r in Hs.
      rewrite fmap_cons in Hs. apply StronglySorted_inv in Hs as [_ Hall].
      rewrite Forall_fmap in Hall. eapply Forall_impl; [exact Hall|].
      intros b Hb. simpl in Hb. rewrite (key_at_lookup _ _ _ Hny) in Hb.
      by apply (key_ltb_trans _ (key ny)). }
    exists s', L'. repeat (split; [done|]). by right.
Qed.

(** *** The memtable *)

(** [MemTable] *)
Record MemTable := mkMemTable { sl : SkipList }.

(** [NewMemTable] *)
Definition NewMemTable (coins : nat -> bool) : MemTable :=
  mkMemTable (NewSkipList coins).

(** [cloneBytes]: a copy holds the same bytes. *)
Definition cloneBytes (b : bytes) : bytes := b.

(** [MemTable.Put] *)
Definition Put (k value : bytes) (m : MemTable) : option MemTable :=
  mkMemTable <$> Upsert k (mkEntry k (cloneBytes value) false) (sl m).

(** [MemTable.Delete] *)
Definition Delete (k : bytes) (m : MemTable) : option MemTable :=
  mkMemTable <$> Upsert k (mkEntry k [] true) (sl m).

(** [MemTable.Get] *)
Definition Get (k : bytes) (m : MemTable) : option (bytes * bool) :=
  r ← Search k (sl m);
  match r with
  | Some e => if Tombstone e then Some ([], false) else Some (cloneBytes (Value e), true)
  | None => Some ([], false)
  end.

(** Modelled from the spec: [MemTable.GetAll], which [DB.Get] calls and whose
    body is not among the sources.  The lookup of §4.2 without the tombstone
    filter: the entry the skip list holds for the key, tombstone or not, with
    a copy of its value; [Some None] when the key is absent. *)
Definition GetAll (k : bytes) (m : MemTable) : option (option Entry) :=
  match Search k (sl m) with
  | None => None
  | Some None => Some None
  | Some (Some e) => Some (Some (mkEntry (Key e) (cloneBytes (Value e)) (Tombstone e)))
  end.

(** The loop of [Range] and of [RangeAll] from node [n] on; [all] tells
    whether tombstones are kept. *)
Fixpoint range_loop (fuel : nat) (h : list node) (all : bool) (n : ptr)
    (end_ : bytes) (out : list Entry) : option (list Entry) :=
  match fuel with
  | O => None
  | S fuel =>
    match n with
    | None => Some out
    | Some a =>
      nd ← h !! a;
      if bool_decide (end_ = []) || key_ltb (key nd) end_
      then
        let out := if all || negb (Tombstone (entry nd))
                   then out ++ [mkEntry (key nd) (cloneBytes (Value (entry nd)))
                                        (Tombstone (entry nd))]
                   else out in
        nxt ← forward nd !! 0;
        range_loop fuel h all nxt end_ out
      else Some out
    end
  end.

Definition range_from (all : bool) (start end_ : bytes) (m : MemTable)
  : option (list Entry) :=
  n ← (if bool_decide (start = []) then First (sl m) else FirstGE start (sl m));
  range_loop (walk_fuel (heap (sl m))) (heap (sl m)) all n end_ [].

(** [MemTable.Range] *)
Definition Range := range_from false.

(** [MemTable.RangeAll] *)
Definition RangeAll := range_from true.

(** A sequence of upserts, and a sequence of memtable operations. *)
Definition upsert_all (ops : list (bytes * Entry)) (s : SkipList) : option SkipList :=
  foldl (fun s o => s ← s; Upsert o.1 o.2 s) (Some s) ops.

Inductive mem_op :=
| MPut (k v : bytes)
| MDelete (k : bytes).

Definition mem_apply (o : mem_op) (m : MemTable) : option MemTable :=
  match o with
  | MPut k v => Put k v m
  | MDelete k => Delete k m
  end.

Definition mem_apply_all (ops : list mem_op) (m : MemTable) : option MemTable :=
  foldl (fun m o => m ← m; mem_apply o m) (Some m) ops.

Lemma NewSkipList_Inv coins : Inv (NewSkipList coins) [].
Proof.
  constructor.
  - split; [simpl; unfold head; lia|reflexivity].
  - apply NoDup_nil_2.
  - constructor.
  - constructor.
  - constructor.
  - simpl. unfold maxLevel. lia.
  - intros i Hi. unfold maxLevel in Hi.
    do 16 (destruct i as [|i]; [reflexivity|]). lia.
  - intros [|a]; unfold height, maxLevel; simpl; lia.
Qed.





Lemma sorted_ascending ks : StronglySorted key_lt ks -> ascending ks.
Proof.
  induction 1 as [|k ks Hs IH Hall]; simpl; [done|]. split; [|done].
  destruct ks as [|k' ks']; [done|]. by apply Forall_cons in Hall as [? _].
Qed.

(** Upserting a key gives back its entry. *)
Lemma Search_Upsert k e s L :
  Inv s L ->
  exists s' L', Upsert k e s = Some s' /\ Inv s' L' /\ Search k s' = Some (Some e).
Proof.
  intros HI. destruct (Upsert_spec k e s L HI) as (s' & L' & Hu & HI' & _ & Hcase).
  exists s', L'. split; [done|]. split; [done|].
  destruct Hcase as [(y & Hy & Hk & -> & _ & _ & _ & Hkeys & _ & _ & He & _ & _)
                    |(_ & L1 & L2 & -> & -> & _ & Hk & He & _)].
  - rewrite <- Hk, <- Hkeys, <- He. by apply (Search_found s' L).
  - rewrite <- Hk at 1. rewrite <- He. apply (Search_found s' _ _ HI'). set_solver.
Qed.

(** Three upserts in the order c, a, b with the coin sequence heads, tails,
    tails, ...: the first node gets two levels, the others one. *)
Definition sample_list : option SkipList :=
  let e := fun k => mkEntry (B k) (B "v") false in
  upsert_all [(B "c", e "c"); (B "a", e "a"); (B "b", e "b")]
             (NewSkipList (fun n => bool_decide (n = 0))).

Definition sample_levels : option (list bytes * list nat * nat) :=
  match sample_list with
  | Some s =>
    match level_nodes s 0, level_nodes s 1 with
    | Some l0, Some l1 => Some (map (key_at (heap s)) l0, l1, level s)
    | _, _ => None
    end
  | None => None
  end.

Example skiplist_sample : sample_levels = Some ([B "a"; B "b"; B "c"], [1], 2).
Proof. vm_compute. reflexivity. Qed.



(** *** The memtable as a map *)

Lemma Search_cases s L k :
  Inv s L ->
  (exists y, y ∈ L /\ key_at (heap s) y = k /\
             Search k s = Some (Some (entry_at (heap s) y))) \/
  ((forall y, y ∈ L -> key_at (heap s) y <> k) /\ Search k s = Some None).
Proof.
  intros HI.
  destruct (decide (Exists (fun y => key_at (heap s) y = k) L)) as [He|Hn].
  - apply Exists_exists in He as (y & Hy & Hk). left. exists y.
    split; [done|]. split; [done|]. rewrite <- Hk. by apply (Search_found s L).
  - right.
    assert (Hno : forall y, y ∈ L -> key_at (heap s) y <> k).
    { intros y Hy Hk. apply Hn, Exists_exists. eauto. }
    split; [done|]. by apply (Search_missing s L).
Qed.

(** An upsert leaves the search for every other key as it was. *)
Lemma Search_Upsert_other k e s L s' k' :
  Inv s L -> Upsert k e s = Some s' -> k' <> k -> Search k' s' = Search k' s.
Proof.
  intros HI Hu Hne.
  destruct (Upsert_spec k e s L HI) as (s1 & L' & Hu1 & HI' & _ & Hcase).
  rewrite Hu in Hu1. injection Hu1 as <-.
  pose proof (inv_range _ _ HI) as Hr. rewrite Forall_forall in Hr.
  destruct (Search_cases s L k' HI) as [(y & Hy & Hk & ->)|[Hno ->]].
  - destruct Hcase as [(y0 & Hy0 & Hk0 & -> & _ & _ & _ & Hkeys & _ & _ & _ & Hent & _)
                      |(_ & L1 & L2 & -> & -> & _ & _ & _ & Hold)].
    + assert (y <> y0) by congruence.
      rewrite <- (Hent y) by done. rewrite <- Hk, <- (Hkeys y).
      by apply (Search_found s' L).
    + destruct (Hold y) as (Hky & Hey & _); [by apply Hr|].
      rewrite <- Hey, <- Hk, <- Hky. apply (Search_found s' _ _ HI'). set_solver.
  - apply (Search_missing s' L' _ HI'). intros y Hy.
    destruct Hcase as [(y0 & Hy0 & Hk0 & -> & _ & _ & _ & Hkeys & _)
                      |(_ & L1 & L2 & -> & -> & _ & Hknew & _ & Hold)].
    + rewrite Hkeys. by apply Hno.
    + assert (y = length (heap s) \/ y ∈ L1 ++ L2) as [->|Hy'] by set_solver.
      * by rewrite Hknew.
      * destruct (Hold y) as (Hky & _); [by apply Hr|]. rewrite Hky. by apply Hno.
Qed.

(** The contents of a memtable as its reader sees them. *)
Definition view : Type := bytes -> option Entry.

Definition view_put (k : bytes) (e : Entry) (V : view) : view :=
  fun k' => if decide (k' = k) then Some e else V k'.

Definition view_apply (o : mem_op) : view -> view :=
  match o with
  | MPut k v => view_put k (mkEntry k v false)
  | MDelete k => view_put k (mkEntry k [] true)
  end.

(** The last operation on each key decides. *)
Definition view_of (ops : list mem_op) : view :=
  foldl (fun V o => view_apply o V) (fun _ => None) ops.

(** What [MemTable.Get] makes of an entry. *)
Definition answer_of (r : option Entry) : bytes * bool :=
  match r with
  | Some e => if Tombstone e then ([], false) else (Value e, true)
  | None => ([], false)
  end.

Definition models (s : SkipList) (V : view) : Prop :=
  forall k, Search k s = Some (V k).

Lemma NewSkipList_models coins : models (NewSkipList coins) (fun _ => None).
Proof.
  intros k. apply (Search_missing _ [] _ (NewSkipList_Inv coins)). set_solver.
Qed.

Lemma Upsert_models k e s L V :
  Inv s L -> models s V ->
  exists s' L', Upsert k e s = Some s' /\ Inv s' L' /\ models s' (view_put k e V).
Proof.
  intros HI HV. destruct (Search_Upsert k e s L HI) as (s' & L' & Hu & HI' & Hs).
  exists s', L'. split; [done|]. split; [done|].
  intros k'. unfold view_put. destruct (decide (k' = k)) as [->|Hne]; [done|].
  rewrite (Search_Upsert_other k e s L s' k') by done. apply HV.
Qed.

Lemma mem_apply_models o m L V :
  Inv (sl m) L -> models (sl m) V ->
  exists m' L', mem_apply o m = Some m' /\ Inv (sl m') L' /\
                models (sl m') (view_apply o V).
Proof.
  intros HI HV. destruct o as [k v|k]; simpl; unfold Put, Delete.
  - destruct (Upsert_models k (mkEntry k (cloneBytes v) false) _ _ V HI HV)
      as (s' & L' & -> & HI' & HV'). by exists (mkMemTable s'), L'.
  - destruct (Upsert_models k (mkEntry k [] true) _ _ V HI HV)
      as (s' & L' & -> & HI' & HV'). by exists (mkMemTable s'), L'.
Qed.

Lemma mem_apply_all_models ops : forall m L V,
  Inv (sl m) L -> models (sl m) V ->
  exists m' L', mem_apply_all ops m = Some m' /\ Inv (sl m') L' /\
                models (sl m') (foldl (fun V o => view_apply o V) V ops).
Proof.
  induction ops as [|o ops IH]; intros m L V HI HV.
  - by exists m, L.
  - destruct (mem_apply_models o m L V HI HV) as (m1 & L1 & Hm1 & HI1 & HV1).
    destruct (IH m1 L1 _ HI1 HV1) as (m' & L' & Hm' & HI' & HV').
    exists m', L'. split; [|done]. unfold mem_apply_all in *. simpl. by rewrite Hm1.
Qed.

Lemma Get_models m V k : models (sl m) V -> Get k m = Some (answer_of (V k)).
Proof.
  intros HV. unfold Get. rewrite (HV k). simpl.
  destruct (V k) as [e|]; [|done]. simpl. by destruct (Tombstone e).
Qed.

Lemma GetAll_models m V k : models (sl m) V -> GetAll k m = Some (V k).
Proof.
  intros HV. unfold GetAll. rewrite (HV k). destruct (V k) as [[? ? ?]|]; done.
Qed.

(** X11.  The memtable is a map from keys to entries: after any sequence of
    puts and deletes, whatever the random source answers, a lookup of a key
    finds the entry of the last operation on that key: the value for a put,
    a tombstone for a delete, nothing when the key was never written. *)
Theorem memtable_is_a_map (coins : nat -> bool) (ops : list mem_op) :
  exists m,
    mem_apply_all ops (NewMemTable coins) = Some m /\
    forall k,
      Search k (sl m) = Some (view_of ops k) /\
      Get k m = Some (answer_of (view_of ops k)) /\
      GetAll k m = Some (view_of ops k).
Proof.
  destruct (mem_apply_all_models ops (NewMemTable coins) [] (fun _ => None)
              (NewSkipList_Inv coins) (NewSkipList_models coins))
    as (m & L & Hm & _ & HV).
  exists m. split; [done|]. intros k. split; [apply HV|]. split.
  - by apply Get_models.
  - by apply GetAll_models.
Qed.

(** *** Range scans *)

(** The entries a scan makes of the nodes [A], tombstones kept or not. *)
Definition entries_of (h : list node) (all : bool) (A : list nat) : list Entry :=
  (fun a => mkEntry (key_at h a) (cloneBytes (Value (entry_at h a)))
                    (Tombstone (entry_at h a)))
    <$> filter (fun a => all || negb (Tombstone (entry_at h a)) = true) A.

Lemma entry_at_lookup h a n : h !! a = Some n -> entry_at h a = entry n.
Proof. unfold entry_at. by intros ->. Qed.

Lemma chain_node h i x l :
  chain h i x l -> exists n, h !! x = Some n /\ forward n !! i = Some (l !! 0).
Proof.
  unfold fwd. destruct l as [|y l]; simpl.
  - unfold fwd. destruct (h !! x) as [n|]; [|done]. simpl. intros H. by exists n.
  - unfold fwd. destruct (h !! x) as [n|]; [|by intros [? _]]. simpl. intros [H _]. by exists n.
Qed.

Lemma chain_suffix h i x l1 l2 : chain h i x (l1 ++ l2) -> exists x', chain h i x' l2.
Proof.
  revert x. induction l1 as [|a l1 IH]; intros x; simpl; [by exists x|].
  intros [_ H]. eauto.
Qed.

Lemma key_ltb_nil_r k : key_ltb k [] = false.
Proof. by destruct k. Qed.

Section range.
Variables (h : list node) (all : bool) (end_ : bytes).

Let before_end (a : nat) : Prop := end_ = [] \/ key_ltb (key_at h a) end_ = true.
Let from_end (b : nat) : Prop := end_ <> [] /\ key_ltb (key_at h b) end_ = false.

(** The loop of a scan along level 0: the nodes before [end_] are taken, the
    first node from [end_] on stops it. *)
Lemma range_loop_chain A : forall x fuel out B,
  chain h 0 x (A ++ B) ->
  Forall before_end A ->
  match B with [] => True | b :: _ => from_end b end ->
  length A < fuel ->
  range_loop fuel h all ((A ++ B) !! 0) end_ out = Some (out ++ entries_of h all A).
Proof.
  induction A as [|a A IH]; intros x fuel out B Hc HA HB Hf;
    (destruct fuel as [|fuel]; [simpl in Hf; lia|]).
  - cbn [app]. unfold entries_of. rewrite filter_nil, fmap_nil, app_nil_r.
    destruct B as [|b B]; [done|].
    destruct Hc as [_ Hc]. destruct (chain_node _ _ _ _ Hc) as (nb & Hnb & _).
    destruct HB as [Hne Hge]. rewrite (key_at_lookup _ _ _ Hnb) in Hge.
    cbn [range_loop lookup list_lookup]. rewrite Hnb. cbn [mbind option_bind].
    by rewrite bool_decide_false, Hge.
  - destruct Hc as [_ Hc]. destruct (chain_node _ _ _ _ Hc) as (na & Hna & Hfw).
    apply Forall_cons in HA as [Ha HA].
    cbn [app range_loop lookup list_lookup]. rewrite Hna. cbn [mbind option_bind].
    assert (Hcond : bool_decide (end_ = []) || key_ltb (key na) end_ = true).
    { destruct Ha as [->|Ha]; [done|].
      rewrite (key_at_lookup _ _ _ Hna) in Ha. rewrite Ha. apply orb_true_r. }
    rewrite Hcond, Hfw. cbn [mbind option_bind].
    rewrite (IH a fuel _ B Hc HA HB) by (simpl in Hf; lia).
    f_equal. unfold entries_of. rewrite filter_cons.
    rewrite (entry_at_lookup _ _ _ Hna).
    destruct (all || negb (Tombstone (entry na))) eqn:E.
    + rewrite decide_True by done. rewrite fmap_cons, <- app_assoc.
      by rewrite (key_at_lookup _ _ _ Hna), (entry_at_lookup _ _ _ Hna).
    + by rewrite decide_False by done.
Qed.

End range.

(** A scan takes the nodes from [start] on and before [end_]. *)
Lemma range_from_spec start end_ m L :
  let h := heap (sl m) in
  Inv (sl m) L ->
  exists L1 A B,
    L = L1 ++ A ++ B /\
    Forall (key_below h start) L1 /\
    Forall (key_not_below h start) A /\
    Forall (fun a => end_ = [] \/ key_ltb (key_at h a) end_ = true) A /\
    Forall (fun b => end_ <> [] /\ key_ltb (key_at h b) end_ = false) B /\
    forall all, range_from all start end_ m = Some (entries_of h all A).
Proof.
  intros h HI.
  pose proof (inv_range _ _ HI) as Hr. fold h in Hr.
  pose proof (inv_sorted _ _ HI) as Hs. fold h in Hs.
  pose proof (inv_chain _ _ HI 0 ltac:(unfold maxLevel; lia)) as Hc.
  rewrite (Inv_filter0 _ _ HI) in Hc. fold h in Hc.
  assert (Hstart : exists L1 L2, L = L1 ++ L2 /\ Forall (key_below h start) L1 /\
            Forall (key_not_below h start) L2 /\
            (if bool_decide (start = []) then First (sl m) else FirstGE start (sl m))
            = Some (L2 !! 0)).
  { case_bool_decide as Hst.
    - exists [], L. split; [done|]. split; [done|]. split.
      + apply Forall_forall. intros a Ha. rewrite Forall_forall in Hr.
        destruct (lookup_lt_is_Some_2 h a) as [n Hn]; [apply Hr in Ha; lia|].
        exists n. split; [done|]. subst start. apply key_ltb_nil_r.
      + unfold First. fold h. destruct L; simpl in Hc; [done|by destruct Hc as [-> _]].
    - destruct (descend_locates (sl m) L start [] HI)
        as (L1 & L2 & upd' & -> & H1 & H2 & Hd & _ & _ & Hf).
      exists L1, L2. split; [done|]. split; [done|]. split; [done|].
      unfold FirstGE. fold h in Hd, Hf |- *. rewrite Hd. simpl. exact Hf. }
  destruct Hstart as (L1 & L2 & -> & H1 & H2 & Hn).
  assert (Hend : exists A B, L2 = A ++ B /\
            Forall (fun a => end_ = [] \/ key_ltb (key_at h a) end_ = true) A /\
            Forall (fun b => end_ <> [] /\ key_ltb (key_at h b) end_ = false) B).
  { destruct (decide (end_ = [])) as [->|Hne].
    - exists L2, []. split; [by rewrite app_nil_r|]. split; [|done].
      apply Forall_forall. intros; by left.
    - destruct (sorted_split h end_ L2) as (A & B & -> & HA & HB).
      + apply Forall_app in Hr as [_ Hr]. eapply Forall_impl; [exact Hr|]. simpl. lia.
      + rewrite fmap_app in Hs. by apply StronglySorted_app_1_r in Hs.
      + exists A, B. split; [done|]. split.
        * eapply Forall_impl; [exact HA|]. intros a (n & Hna & Hlt). right.
          by rewrite (key_at_lookup _ _ _ Hna).
        * eapply Forall_impl; [exact HB|]. intros a (n & Hna & Hlt). split; [done|].
          by rewrite (key_at_lookup _ _ _ Hna). }
  destruct Hend as (A & B & -> & HA & HB).
  exists L1, A, B. split; [done|]. split; [done|]. split.
  { by apply Forall_app in H2 as [? _]. }
  split; [done|]. split; [done|]. intros all.
  unfold range_from. rewrite Hn. cbn [mbind option_bind]. fold h.
  destruct (chain_suffix _ _ _ _ _ Hc) as [x Hx].
  apply (range_loop_chain h all end_ A x).
  - done.
  - done.
  - destruct B as [|b B]; [done|]. by apply Forall_cons in HB as [? _].
  - pose proof (inv_length _ _ HI) as Hl. fold h in Hl. rewrite !length_app in Hl.
    unfold walk_fuel. lia.
Qed.

Lemma sorted_keys_filter h (P : nat -> Prop) `{!forall a, Decision (P a)} L :
  StronglySorted key_lt (key_at h <$> L) ->
  StronglySorted key_lt (key_at h <$> filter P L).
Proof.
  induction L as [|a L IH]; [done|]. rewrite fmap_cons.
  intros Hs. apply StronglySorted_inv in Hs as [Hs Hall].
  rewrite filter_cons. destruct (decide (P a)); [|by apply IH].
  rewrite fmap_cons. constructor; [by apply IH|].
  rewrite Forall_forall in Hall. apply Forall_forall. intros k Hk.
  apply Hall. apply list_elem_of_fmap in Hk as (y & -> & Hy).
  apply list_elem_of_fmap. exists y. split; [done|].
  by apply list_elem_of_filter in Hy as [_ ?].
Qed.

Lemma entries_of_keys h all A :
  Key <$> entries_of h all A =
  key_at h <$> filter (fun a => all || negb (Tombstone (entry_at h a)) = true) A.
Proof. unfold entries_of. rewrite <- list_fmap_compose. done. Qed.

Lemma entries_of_live h A :
  entries_of h false A = filter (fun e => Tombstone e = false) (entries_of h true A).
Proof.
  unfold entries_of. induction A as [|a A IH]; [done|].
  rewrite !filter_cons.
  destruct (decide (true || negb (Tombstone (entry_at h a)) = true)) as [_|Hn]; [|done].
  rewrite fmap_cons, filter_cons. cbn [Tombstone].
  destruct (Tombstone (entry_at h a)) eqn:E.
  - destruct (decide (false || negb true = true)) as [?|_]; [done|].
    destruct (decide (true = false)) as [?|_]; [done|]. exact IH.
  - destruct (decide (false || negb false = true)) as [_|?]; [|done].
    destruct (decide (false = false)) as [_|?]; [|done].
    rewrite fmap_cons, E. by rewrite IH.
Qed.

(** Every entry of the map sits under its own key. *)
Definition keyed (V : view) : Prop := forall k e, V k = Some e -> Key e = k.

Lemma view_of_keyed ops : keyed (view_of ops).
Proof.
  unfold view_of. assert (H0 : keyed (fun _ => None)) by (by intros k e).
  revert H0. generalize (fun _ : bytes => @None Entry) as V.
  induction ops as [|o ops IH]; intros V HV; [done|]. cbn [foldl]. apply IH.
  intros k e. destruct o as [k0 v|k0]; simpl; unfold view_put;
    (destruct (decide (k = k0)) as [->|_]; [by intros [= <-]|apply HV]).
Qed.

(** The nodes of a list that models a map are the entries of the map. *)
Lemma models_nodes s L V :
  Inv s L -> models s V ->
  (forall y, y ∈ L -> V (key_at (heap s) y) = Some (entry_at (heap s) y)) /\
  (forall k e, V k = Some e ->
     exists y, y ∈ L /\ key_at (heap s) y = k /\ entry_at (heap s) y = e).
Proof.
  intros HI HV. split.
  - intros y Hy. pose proof (Search_found s L y HI Hy) as Hs.
    rewrite (HV _) in Hs. by injection Hs.
  - intros k e Hk. destruct (Search_cases s L k HI) as [(y & Hy & Hky & Hs)|[_ Hs]];
      rewrite (HV k), Hk in Hs; [|done].
    injection Hs as ->. by exists y.
Qed.

(** The scans of a memtable that models a keyed map. *)
Lemma range_models m L V start end_ :
  Inv (sl m) L -> models (sl m) V -> keyed V ->
  exists es,
    RangeAll start end_ m = Some es /\
    StronglySorted key_lt (Key <$> es) /\
    (forall e, e ∈ es <->
       V (Key e) = Some e /\ key_ltb (Key e) start = false /\
       (end_ = [] \/ key_ltb (Key e) end_ = true)) /\
    Range start end_ m = Some (filter (fun e => Tombstone e = false) es).
Proof.
  intros HI HV Hkeyed.
  destruct (range_from_spec start end_ m L HI)
    as (L1 & A & B & HL & H1 & HA1 & HA2 & HB & Hscan).
  set (h := heap (sl m)) in *.
  destruct (models_nodes _ _ _ HI HV) as [Hnode Hview]. fold h in Hnode, Hview.
  assert (Hentry : forall y, y ∈ L ->
            mkEntry (key_at h y) (cloneBytes (Value (entry_at h y)))
                    (Tombstone (entry_at h y)) = entry_at h y).
  { intros y Hy. rewrite <- (Hkeyed _ _ (Hnode y Hy)). by destruct (entry_at h y). }
  exists (entries_of h true A). split; [apply Hscan|]. split.
  { rewrite entries_of_keys. apply sorted_keys_filter.
    pose proof (inv_sorted _ _ HI) as Hs. fold h in Hs. rewrite HL in Hs.
    rewrite fmap_app in Hs. apply StronglySorted_app_1_r in Hs.
    rewrite fmap_app in Hs. by apply StronglySorted_app_1_l in Hs. }
  split.
  { intros e. unfold entries_of. rewrite list_elem_of_fmap. split.
    - intros (a & -> & Ha). apply list_elem_of_filter in Ha as [_ Ha].
      assert (HaL : a ∈ L) by (rewrite HL; set_solver).
      rewrite (Hentry a HaL). rewrite (Hkeyed _ _ (Hnode a HaL)).
      split; [by apply Hnode|]. rewrite Forall_forall in HA1, HA2. split.
      + destruct (HA1 a Ha) as (n & Hn & Hge). by rewrite (key_at_lookup _ _ _ Hn).
      + by apply HA2.
    - intros (He & Hge & Hlt). destruct (Hview _ _ He) as (y & Hy & Hky & Hey).
      exists y. split; [by rewrite Hentry, Hey|].
      apply list_elem_of_filter. split; [done|].
      rewrite HL in Hy. apply elem_of_app in Hy as [Hy|Hy].
      { rewrite Forall_forall in H1. destruct (H1 y Hy) as (n & Hn & Hbelow).
        rewrite <- (key_at_lookup _ _ _ Hn), Hky, Hge in Hbelow. done. }
      apply elem_of_app in Hy as [Hy|Hy]; [done|].
      rewrite Forall_forall in HB. destruct (HB y Hy) as [Hne Hfrom].
      rewrite Hky in Hfrom. destruct Hlt as [?|Hlt]; [done|]. by rewrite Hlt in Hfrom. }
  unfold Range. rewrite Hscan. by rewrite entries_of_live.
Qed.

(** X12.  A range scan of the memtable returns, in strictly ascending key
    order, exactly the entries of the map whose keys are not below [start]
    and, when [end_] is not empty, below [end_]: [RangeAll] with the
    tombstones, [Range] without them. *)
Theorem range_scan_spec (coins : nat -> bool) (ops : list mem_op) (start end_ : bytes) :
  exists m es,
    mem_apply_all ops (NewMemTable coins) = Some m /\
    RangeAll start end_ m = Some es /\
    ascending (Key <$> es) /\
    (forall e, e ∈ es <->
       view_of ops (Key e) = Some e /\ key_ltb (Key e) start = false /\
       (end_ = [] \/ key_ltb (Key e) end_ = true)) /\
    Range start end_ m = Some (filter (fun e => Tombstone e = false) es).
Proof.
  destruct (mem_apply_all_models ops (NewMemTable coins) [] (fun _ => None)
              (NewSkipList_Inv coins) (NewSkipList_models coins))
    as (m & L & Hm & HI & HV).
  fold (view_of ops) in HV.
  destruct (range_models m L _ start end_ HI HV (view_of_keyed ops))
    as (es & Hall & Hsorted & Hmem & Hlive).
  exists m, es. split; [done|]. split; [done|]. split; [by apply sorted_ascending|].
  done.
Qed.

(** *** The height of a new node *)

Lemma randomLevel_from_heads coins j : forall gap lvl p,
  j <= gap ->
  (forall i, i < j -> coins (p + i) = true) ->
  (j < gap -> coins (p + j) = false ->
   randomLevel_from gap lvl coins p = (lvl + j, p + S j)) /\
  (j = gap -> randomLevel_from gap lvl coins p = (lvl + gap, p + gap)).
Proof.
  induction j as [|j IH]; intros gap lvl p Hj Hheads.
  - split.
    + intros Hlt Htail. destruct gap as [|gap]; [lia|]. cbn [randomLevel_from].
      rewrite Nat.add_0_r in Htail. rewrite Htail. f_equal; lia.
    + intros <-. cbn [randomLevel_from]. f_equal; lia.
  - destruct gap as [|gap]; [lia|]. cbn [randomLevel_from].
    assert (Hc : coins p = true) by (rewrite <- (Nat.add_0_r p); apply Hheads; lia).
    rewrite Hc.
    destruct (IH gap (S lvl) (S p)) as [H1 H2]; [lia| |].
    { intros i Hi. replace (S p + i) with (p + S i) by lia. apply Hheads. lia. }
    split.
    + intros Hlt Htail. rewrite H1; [f_equal; lia|lia|].
      by replace (S p + j) with (p + S j) by lia.
    + intros [= <-]. rewrite H2 by done. f_equal; lia.
Qed.

(** X13.  The height drawn for a new node is one more than the number of
    heads drawn before the first tails, and [maxLevel] when the first
    [maxLevel - 1] draws are all heads; it always lies between 1 and
    [maxLevel], and one draw is used per test of the loop. *)
Theorem random_level_spec (s : SkipList) (j : nat) :
  1 <= (randomLevel s).1 <= maxLevel /\
  ((forall i, i < j -> rnd s (pos s + i) = true) ->
   (j < maxLevel - 1 -> rnd s (pos s + j) = false ->
    randomLevel s = (S j, pos s + S j)) /\
   (j = maxLevel - 1 -> randomLevel s = (maxLevel, pos s + (maxLevel - 1)))).
Proof.
  unfold randomLevel. split.
  - pose proof (randomLevel_from_range (maxLevel - 1) 1 (rnd s) (pos s)).
    unfold maxLevel in *. lia.
  - intros Hheads. split.
    + intros Hlt Htail.
      destruct (randomLevel_from_heads (rnd s) j (maxLevel - 1) 1 (pos s)) as [H _];
        [lia|done|]. by rewrite H.
    + intros ->.
      destruct (randomLevel_from_heads (rnd s) (maxLevel - 1) (maxLevel - 1) 1 (pos s))
        as [_ H]; [lia|done|]. by rewrite H.
Qed.

End Memtable.

(** ** The sorted string table ([internal/sstable]) *)

Module Sstable.
Import Enc.

(** [GetResult] *)
Inductive GetResult := NotFound | Found | Deleted.

Definition magic : Z := 0x46534442.
Definition indexStride : Z := 32.
Definition maxIndexKeySize : Z := 2 ^ 20.
Definition maxIndexCount : Z := 2 ^ 20.
Definition headerSize : Z := 8.
Definition footerSize : Z := 16.

(** [indexEntry] *)
Record indexEntry := mkIndexEntry {
  ikey : bytes;
  offset : Z
}.

(** *** The Bloom filter *)

(** [bloom] *)
Record bloom := mkBloom {
  bm : Z;
  bk : Z;
  bb : bytes
}.

(** [newBloom] *)
Definition newBloom (m k : Z) : bloom :=
  let m := if m <? 8 then 8 else m in
  let nbytes := ((m + 7) mod 2 ^ 32) / 8 in
  mkBloom m k (replicate (Z.to_nat nbytes) x00).

(** [fnv64a]: [hash/fnv]'s 64-bit FNV-1a. *)
Definition fnv64a (s : bytes) : Z :=
  foldl (fun h c => (Z.lxor h (Z_of_byte c) * 1099511628211) mod 2 ^ 64)
        14695981039346656037 s.

(** [mix64] *)
Definition mix64 (x : Z) : Z :=
  let x := Z.lxor x (Z.shiftr x 33) in
  let x := (x * 0xff51afd7ed558ccd) mod 2 ^ 64 in
  let x := Z.lxor x (Z.shiftr x 33) in
  let x := (x * 0xc4ceb9fe1a85ec53) mod 2 ^ 64 in
  Z.lxor x (Z.shiftr x 33).

(** The [i]-th tap of a key: [uint32((h1 + uint64(i)*h2) % uint64(bf.m))]. *)
Definition tap (bf : bloom) (key : bytes) (i : Z) : Z :=
  let h1 := fnv64a key in
  let h2 := mix64 (Z.lxor h1 0x9e3779b97f4a7c15) in
  (((h1 + i * h2) mod 2 ^ 64) mod bm bf) mod 2 ^ 32.

(** [bf.set]; [None] is the panic of an index out of range. *)
Definition set (bf : bloom) (i : Z) : option bloom :=
  let byteIdx := Z.to_nat (i / 8) in
  let bit := i mod 8 in
  c ← bb bf !! byteIdx;
  Some (mkBloom (bm bf) (bk bf)
          (<[byteIdx := byte_of_Z (Z.lor (Z_of_byte c) (Z.shiftl 1 bit))]> (bb bf))).

(** [bf.get] *)
Definition get (bf : bloom) (i : Z) : option bool :=
  let byteIdx := Z.to_nat (i / 8) in
  let bit := i mod 8 in
  c ← bb bf !! byteIdx;
  Some (negb (Z.land (Z_of_byte c) (Z.shiftl 1 bit) =? 0)).

(** The taps [0 .. k-1] in the order the loops visit them. *)
Definition taps (bf : bloom) (key : bytes) : list Z :=
  tap bf key <$> (Z.of_nat <$> seq 0 (Z.to_nat (bk bf))).

(** [bf.add] *)
Definition add (bf : bloom) (key : bytes) : option bloom :=
  foldl (fun b p => b ← b; set b p) (Some bf) (taps bf key).

(** [bf.mayContain]: the first unset tap answers false. *)
Fixpoint mayContain_loop (bf : bloom) (ps : list Z) : option bool :=
  match ps with
  | [] => Some true
  | p :: ps =>
    match get bf p with
    | None => None
    | Some false => Some false
    | Some true => mayContain_loop bf ps
    end
  end.

Definition mayContain (bf : bloom) (key : bytes) : option bool :=
  mayContain_loop bf (taps bf key).

(** [bf.marshal] *)
Definition marshal (bf : bloom) : bytes :=
  le32 (bm bf) ++ [byte_of_Z (bk bf)] ++ [x00; x00; x00] ++ le32 (len (bb bf)) ++ bb bf.

(** [unmarshalBloom] *)
Definition unmarshalBloom (p : bytes) : option bloom :=
  if len p <? 12 then None
  else
    let m := le_value (take 4 p) in
    let k := Z_of_byte (default x00 (p !! 4%nat)) in
    if (m =? 0) || (k =? 0) then None
    else
      let n := le_value (take 4 (drop 8 p)) in
      if negb ((12 + n) mod 2 ^ 32 =? len p) || (n =? 0) then None
      else Some (mkBloom m k (take (Z.to_nat n) (drop 12 p))).

(** *** Writing a table *)

(** [countWriter]: the bytes written and their count, a [uint64]. *)
Record countWriter := mkWriter {
  out : bytes;
  n : Z
}.

Definition write (p : bytes) (w : countWriter) : countWriter :=
  mkWriter (out w ++ p) ((n w + len p) mod 2 ^ 64).

(** The body of the loop over the entries: the index entry every
    [indexStride] records, the record, the key into the filter. *)
Definition write_entry (st : option (countWriter * list indexEntry * bloom * Z))
    (e : Entry) : option (countWriter * list indexEntry * bloom * Z) :=
  '(w, idx, bf, i) ← st;
  let recOff := n w in
  let idx := if i mod indexStride =? 0 then idx ++ [mkIndexEntry (Key e) recOff] else idx in
  let keyB := Key e in
  let valB := Value e in
  let w := write (le32 (len keyB)) w in
  let w := write (le32 (len valB)) w in
  let tomb := if Tombstone e then x01 else x00 in
  let w := write [tomb] w in
  let w := write keyB w in
  let w := if 0 <? len valB then write valB w else w in
  bf ← add bf (Key e);
  Some (w, idx, bf, i + 1).

Definition write_index_entry (w : countWriter) (it : indexEntry) : countWriter :=
  let kb := ikey it in
  let w := write (le32 (len kb)) w in
  let w := write kb w in
  write (le64 (offset it)) w.

(** [WriteTable]: the bytes of the file when every write succeeds. *)
Definition WriteTable (entries : list Entry) : option bytes :=
  let w := mkWriter [] 0 in
  let w := write (le32 magic) w in
  let w := write (le32 (len entries)) w in
  let bf := newBloom (2 ^ 20) 7 in
  '(w, idx, bf, _) ← foldl write_entry (Some (w, [], bf, 0)) entries;
  let indexStartOffset := n w in
  let w := write (le32 (len idx)) w in
  let w := foldl write_index_entry w idx in
  let bloomStartOffset := n w in
  let w := write (marshal bf) w in
  let w := write (le64 indexStartOffset) w in
  let w := write (le64 bloomStartOffset) w in
  Some (out w).

(** *** Reading a table *)

(** [loadFooter] on a file holding [file]. *)
Definition loadFooter (file : bytes) : result (Z * Z) :=
  let fileSize := len file in
  if fileSize <? headerSize + footerSize then Err ErrCorruptSST
  else
    let footerStart := (fileSize - footerSize) mod 2 ^ 64 in
    let r := drop (Z.to_nat (fileSize - footerSize)) file in
    match read_u64 r with
    | Err _ => Err ErrCorruptSST
    | Ok (indexStartOffset, r) =>
      match read_u64 r with
      | Err _ => Err ErrCorruptSST
      | Ok (bloomStartOffset, _) =>
        if (indexStartOffset <? headerSize) || (footerStart <=? indexStartOffset)
        then Err ErrCorruptSST
        else if (bloomStartOffset <=? indexStartOffset) || (footerStart <=? bloomStartOffset)
        then Err ErrCorruptSST
        else Ok (indexStartOffset, bloomStartOffset)
      end
    end.

(** The loop of [loadIndex] over the [cnt] entries still to read. *)
Fixpoint load_entries (cnt : nat) (r : bytes) (indexStartOffset : Z)
    (entries : list indexEntry) : result (list indexEntry) :=
  match cnt with
  | O => Ok entries
  | S cnt =>
    match read_u32 r with
    | Err _ => Err ErrCorruptSST
    | Ok (keyLen, r) =>
      if (keyLen =? 0) || (maxIndexKeySize <? keyLen) then Err ErrCorruptSST
      else
        match read_full keyLen r with
        | Err _ => Err ErrCorruptSST
        | Ok (keyB, r) =>
          match read_u64 r with
          | Err _ => Err ErrCorruptSST
          | Ok (recordOffset, r) =>
            if (recordOffset <? headerSize) || (indexStartOffset <=? recordOffset)
            then Err ErrCorruptSST
            else load_entries cnt r indexStartOffset
                   (entries ++ [mkIndexEntry keyB recordOffset])
          end
        end
    end
  end.

(** [sort.SliceIsSorted] with [less(i, j) = entries[i].key < entries[j].key]:
    false as soon as some element is less than the one before it. *)
Fixpoint is_sorted (entries : list indexEntry) : bool :=
  match entries with
  | [] => true
  | a :: r =>
    match r with
    | [] => true
    | b :: _ => negb (Memtable.key_ltb (ikey b) (ikey a)) && is_sorted r
    end
  end.

(** [loadIndex] *)
Definition loadIndex (file : bytes) : result (list indexEntry * Z) :=
  match loadFooter file with
  | Err e => Err e
  | Ok (indexStartOffset, _) =>
    let r := drop (Z.to_nat indexStartOffset) file in
    match read_u32 r with
    | Err _ => Err ErrCorruptSST
    | Ok (indexCount, r) =>
      if (indexCount =? 0) || (maxIndexCount <? indexCount) then Err ErrCorruptSST
      else
        match load_entries (Z.to_nat indexCount) r indexStartOffset [] with
        | Err e => Err e
        | Ok entries =>
          if negb (is_sorted entries) then Err ErrCorruptSST
          else Ok (entries, indexStartOffset)
        end
    end
  end.

(** [sort.Search(n, f)]: the binary search of the standard library. *)
Fixpoint search_loop (fuel : nat) (f : nat -> bool) (i j : nat) : nat :=
  match fuel with
  | O => i
  | S fuel =>
    if (i <? j)%nat then
      let h := ((i + j) / 2)%nat in
      if negb (f h) then search_loop fuel f (h + 1)%nat j
      else search_loop fuel f i h
    else i
  end.

Definition sort_Search (n : nat) (f : nat -> bool) : nat := search_loop n f 0%nat n.

(** [pickScanRange]; [None] is the panic of indexing an empty slice. *)
Definition pickScanRange (entries : list indexEntry) (indexOffset : Z) (target : bytes)
  : option (Z * Z) :=
  let end_ := indexOffset in
  let i := (Z.of_nat (sort_Search (length entries)
              (fun i => match entries !! i with
                        | Some e => Memtable.key_ltb target (ikey e)
                        | None => false
                        end)) - 1)%Z in
  let i := if i <? 0 then 0 else i in
  ei ← entries !! Z.to_nat i;
  let start := offset ei in
  let end_ :=
    match entries !! Z.to_nat (i + 1) with
    | Some nx => if (start <? offset nx) && (offset nx <? end_) then offset nx else end_
    | None => end_
    end in
  Some (start, end_).

(** What a lookup returns: value, result, error. *)
Definition answer : Type := bytes * GetResult * option error.

Definition corrupt : answer := ([], NotFound, Some ErrCorruptSST).

(** The loop of [Get] over the section [sr] of the data region. *)
Fixpoint scan (fuel : nat) (sr : bytes) (key : bytes) : option answer :=
  match fuel with
  | O => None
  | S fuel =>
    match read_u32 sr with
    | Err EOF | Err ErrUnexpectedEOF => Some ([], NotFound, None)
    | Err _ => Some corrupt
    | Ok (keyLen, sr) =>
      match read_u32 sr with
      | Err _ => Some corrupt
      | Ok (valLen, sr) =>
        match read_byte sr with
        | Err _ => Some corrupt
        | Ok (tomb, sr) =>
          match read_full keyLen sr with
          | Err _ => Some corrupt
          | Ok (keyB, sr) =>
            match (if 0 <? valLen then read_full valLen sr else Ok ([], sr)) with
            | Err _ => Some corrupt
            | Ok (valB, sr) =>
              if decide (keyB = key)
              then if decide (tomb = x01) then Some ([], Deleted, None)
                   else Some (valB, Found, None)
              else if Memtable.key_ltb key keyB then Some ([], NotFound, None)
              else scan fuel sr key
            end
          end
        end
      end
    end
  end.

(** The bytes [[start, start + size)] of a file, as an [io.SectionReader]
    gives them. *)
Definition section (file : bytes) (start size : Z) : bytes :=
  take (Z.to_nat size) (drop (Z.to_nat start) file).

(** [Get] up to the choice of the scan range: an answer already, or the
    range [[start, end)] to scan.  [None] is a panic. *)
Definition select_range (file key : bytes) : option (answer + Z * Z) :=
  match read_u32 file with
  | Err e => Some (inl ([], NotFound, Some e))
  | Ok (m, r) =>
    if negb (m =? magic) then Some (inl corrupt)
    else
      match read_u32 r with
      | Err _ => Some (inl corrupt)
      | Ok (count, _) =>
        let fileSize := len file in
        match loadFooter file with
        | Err e => Some (inl ([], NotFound, Some e))
        | Ok (indexStartOffset, bloomStartOffset) =>
          let footerStart := (fileSize - footerSize) mod 2 ^ 64 in
          let bloomBytes := section file bloomStartOffset (footerStart - bloomStartOffset) in
          match unmarshalBloom bloomBytes with
          | None => Some (inl corrupt)
          | Some bf =>
            if (bm bf =? 0) || (bk bf =? 0) then Some (inl corrupt)
            else
              match mayContain bf key with
              | None => None
              | Some false => Some (inl ([], NotFound, None))
              | Some true =>
                match loadIndex file with
                | Err e => Some (inl ([], NotFound, Some e))
                | Ok (entries, indexStartOffset2) =>
                  if negb (indexStartOffset2 =? indexStartOffset) then Some (inl corrupt)
                  else
                    match pickScanRange entries indexStartOffset key with
                    | None => None
                    | Some (start, end_) =>
                      if end_ <=? start then Some (inl corrupt)
                      else Some (inr (start, end_))
                    end
                end
              end
          end
        end
      end
  end.

(** [Get] on a file holding [file]. *)
Definition Get (file key : bytes) : option answer :=
  match select_range file key with
  | None => None
  | Some (inl a) => Some a
  | Some (inr (start, end_)) =>
    let sr := section file start (end_ - start) in
    scan (S (length sr)) sr key
  end.

(** *** Reading back what was written *)

Fixpoint le_bytes (k : nat) (v : Z) : bytes :=
  match k with
  | O => []
  | S k => byte_of_Z v :: le_bytes k (v / 256)
  end.

Lemma le_value_le_bytes k v : le_value (le_bytes k v) = v mod 256 ^ Z.of_nat k.
Proof.
  revert v. induction k as [|k IH]; intros v.
  - simpl. by rewrite Z.mod_1_r.
  - cbn [le_bytes le_value]. rewrite IH, Z_of_byte_of_Z.
    rewrite Nat2Z.inj_succ, Z.pow_succ_r by lia.
    rewrite Z.rem_mul_r; [done|lia|]. apply Z.pow_pos_nonneg; lia.
Qed.

Lemma le64_le_bytes v : le64 v = le_bytes 8 (v mod 2 ^ 64).
Proof.
  unfold le64. cbn [le_bytes]. rewrite !Z.div_div by lia. reflexivity.
Qed.

Lemma le_value_le64 v : le_value (le64 v) = v mod 2 ^ 64.
Proof.
  rewrite le64_le_bytes, le_value_le_bytes.
  change (256 ^ Z.of_nat 8) with (2 ^ 64). apply Z.mod_mod. lia.
Qed.

Lemma read_u64_le64 v r : read_u64 (le64 v ++ r) = Ok (v mod 2 ^ 64, r).
Proof.
  unfold read_u64, read_full, len.
  rewrite length_app, length_le64.
  destruct (8 <=? Z.of_nat (8 + length r)) eqn:E; [|apply Z.leb_gt in E; lia].
  change (Z.to_nat 8) with (length (le64 v)).
  rewrite take_app_length, drop_app_length. by rewrite le_value_le64.
Qed.

(** A record of the data region as the reader sees it. *)
Record rec := mkRec {
  rkey : bytes;
  rval : bytes;
  rtomb : byte
}.

Definition enc (r : rec) : bytes :=
  le32 (len (rkey r)) ++ le32 (len (rval r)) ++ [rtomb r] ++ rkey r ++ rval r.

Definition fits (r : rec) : Prop := len (rkey r) < 2 ^ 32 /\ len (rval r) < 2 ^ 32.

(** The answer of the scan at a record it has decoded. *)
Definition at_record (r : rec) (key : bytes) (continue : option answer) : option answer :=
  if decide (rkey r = key)
  then if decide (rtomb r = x01) then Some ([], Deleted, None)
       else Some (rval r, Found, None)
  else if Memtable.key_ltb key (rkey r) then Some ([], NotFound, None)
  else continue.

Lemma len_nonneg {A} (l : list A) : 0 <= len l.
Proof. unfold len. lia. Qed.

Lemma len_zero_nil {A} (l : list A) : (0 <? len l) = false -> l = [].
Proof.
  intros E. apply Z.ltb_ge in E. unfold len in E. destruct l; [done|simpl in E; lia].
Qed.

Lemma scan_record fuel r rest key :
  fits r ->
  scan (S fuel) (enc r ++ rest) key = at_record r key (scan fuel rest key).
Proof.
  intros [Hk Hv]. unfold enc. cbn [scan]. rewrite <- !app_assoc.
  rewrite read_u32_le32, read_u32_le32.
  pose proof (len_nonneg (rkey r)). pose proof (len_nonneg (rval r)).
  rewrite !Z.mod_small by lia. cbn [app read_byte].
  rewrite read_full_app. unfold at_record.
  destruct (0 <? len (rval r)) eqn:E.
  - rewrite read_full_app. done.
  - rewrite (len_zero_nil _ E). done.
Qed.

Definition below (key : bytes) (r : rec) : Prop :=
  fits r /\ Memtable.key_ltb (rkey r) key = true.

Lemma key_ltb_asym a b :
  Memtable.key_ltb a b = true -> Memtable.key_ltb b a = false.
Proof.
  intros Hab. destruct (Memtable.key_ltb b a) eqn:Hba; [|done].
  pose proof (Memtable.key_ltb_trans _ _ _ Hab Hba) as H.
  by rewrite Memtable.key_ltb_irrefl in H.
Qed.

(** Records below the target are passed over, one round each. *)
Lemma scan_skip pre fuel rest key :
  Forall (below key) pre ->
  scan (length pre + fuel) (concat (enc <$> pre) ++ rest) key = scan fuel rest key.
Proof.
  induction 1 as [|r pre [Hf Hlt] _ IH]; [done|].
  cbn [length fmap list_fmap concat Nat.add]. rewrite <- app_assoc.
  rewrite scan_record by done. unfold at_record.
  rewrite decide_False.
  2: { intros Hk. rewrite Hk, Memtable.key_ltb_irrefl in Hlt. done. }
  by rewrite (key_ltb_asym _ _ Hlt).
Qed.

Lemma length_enc r : (9 <= length (enc r))%nat.
Proof. unfold enc. rewrite !length_app, !length_le32. simpl. lia. Qed.

Lemma length_concat_enc pre : (length pre <= length (concat (enc <$> pre)))%nat.
Proof.
  induction pre as [|r pre IH]; [simpl; lia|].
  rewrite fmap_cons. cbn [concat length].
  rewrite length_app. pose proof (length_enc r). lia.
Qed.

(** A record cut short after its key length field is corruption. *)
Lemma scan_truncated fuel r (c : nat) key :
  fits r -> (4 <= c < length (enc r))%nat ->
  scan (S fuel) (take c (enc r)) key = Some corrupt.
Proof.
  intros [Hk Hv] [Hc1 Hc2]. unfold enc in *.
  pose proof (len_nonneg (rkey r)) as Hk0. pose proof (len_nonneg (rval r)) as Hv0.
  assert (Hrf : forall n0 (a b : bytes),
            read_full n0 (take (length a) (a ++ b)) = read_full n0 a).
  { intros. by rewrite take_app_length. }
  rewrite take_app_ge by (rewrite length_le32; lia). rewrite length_le32.
  cbn [scan]. rewrite read_u32_le32, Z.mod_small by lia.
  rewrite !length_app, !length_le32 in Hc2. simpl in Hc2.
  destruct (decide (c - 4 < 4)%nat) as [Hlt|Hge].
  { unfold read_u32, read_full, len. rewrite length_take, length_app, length_le32.
    destruct (4 <=? _) eqn:E; [apply Z.leb_le in E; lia|].
    by destruct (take _ _). }
  rewrite take_app_ge by (rewrite length_le32; lia). rewrite length_le32.
  rewrite read_u32_le32, Z.mod_small by lia.
  destruct (c - 4 - 4)%nat as [|c'] eqn:Ec; [done|].
  cbn [app take read_byte].
  destruct (decide (c' < length (rkey r))%nat) as [Hlt|Hge'].
  { rewrite take_app_le by lia.
    unfold read_full at 1. unfold len at 2. rewrite length_take.
    destruct (len (rkey r) <=? _) eqn:E; [apply Z.leb_le in E; unfold len in E; lia|].
    by destruct (take c' (rkey r)). }
  rewrite take_app_ge by lia.
  rewrite read_full_app.
  destruct (0 <? len (rval r)) eqn:E.
  - unfold read_full. unfold len at 2. rewrite length_take.
    destruct (len (rval r) <=? _) eqn:E'; [apply Z.leb_le in E'; unfold len in E'; lia|].
    by destruct (take _ (rval r)).
  - rewrite (len_zero_nil _ E) in Hc2. simpl in Hc2. lia.
Qed.

(** *** Small table files laid out by hand *)

(** Eight bits, one tap, every bit set: a filter that excludes nothing. *)
Definition full_bloom : bloom := mkBloom 8 1 [xff].

(** A table file with the given filter, data region and index entries, and
    the [count] field [0] (no reader uses it). *)
Definition craft_with (bf : bloom) (data : bytes) (idx : list indexEntry) : bytes :=
  let w := write (le32 magic) (mkWriter [] 0) in
  let w := write (le32 0) w in
  let w := write data w in
  let indexStartOffset := n w in
  let w := write (le32 (len idx)) w in
  let w := foldl write_index_entry w idx in
  let bloomStartOffset := n w in
  let w := write (marshal bf) w in
  let w := write (le64 indexStartOffset) w in
  let w := write (le64 bloomStartOffset) w in
  out w.

Definition craft := craft_with full_bloom.

Definition rec_a : rec := mkRec (B "a") (B "1") x00.
Definition rec_b : rec := mkRec (B "b") (B "hello") x00.

(** Records a and b, indexed at a. *)
Definition two_records : bytes :=
  craft (enc rec_a ++ enc rec_b) [mkIndexEntry (B "a") 8].

(** Record a, then two stray bytes before the index region. *)
Definition stray_tail : bytes :=
  craft (enc rec_a ++ [xff; xff]) [mkIndexEntry (B "a") 8].

(** C3, as amended.  Once the Bloom check has passed and the scan range has
    been chosen from the index, with records below the target decoded first:
    a record whose key is the target gives Deleted when its tombstone byte is
    1 and Found with its value otherwise; a record whose key is above the
    target gives NotFound; the end of the range gives NotFound, also when one
    to three bytes are left where the next key length would start; a record
    cut short anywhere after its key length field gives [ErrCorruptSST]. *)
Theorem scan_section_behaviour (file key : bytes) (start end_ : Z) (pre : list rec) :
  select_range file key = Some (inr (start, end_)) ->
  Forall (below key) pre ->
  let sr := section file start (end_ - start) in
  (forall r rest, fits r -> sr = concat (enc <$> pre) ++ enc r ++ rest -> rkey r = key ->
     Get file key = Some (if decide (rtomb r = x01) then ([], Deleted, None)
                          else (rval r, Found, None))) /\
  (forall r rest, fits r -> sr = concat (enc <$> pre) ++ enc r ++ rest ->
     Memtable.key_ltb key (rkey r) = true ->
     Get file key = Some ([], NotFound, None)) /\
  (forall tail, sr = concat (enc <$> pre) ++ tail -> (length tail < 4)%nat ->
     Get file key = Some ([], NotFound, None)) /\
  (forall r c, fits r -> (4 <= c < length (enc r))%nat ->
     sr = concat (enc <$> pre) ++ take c (enc r) ->
     Get file key = Some corrupt).
Proof.
  intros Hsel Hpre sr.
  assert (Hget : forall rest, sr = concat (enc <$> pre) ++ rest ->
            Get file key = scan (S (length sr - length pre)) rest key).
  { intros rest Hsr. unfold Get. rewrite Hsel. fold sr.
    pose proof (length_concat_enc pre) as Hl.
    replace (S (length sr)) with (length pre + S (length sr - length pre))%nat.
    2: { rewrite Hsr, length_app. lia. }
    set (f := S (length sr - length pre)). clearbody f.
    rewrite Hsr. by rewrite scan_skip. }
  split; [|split; [|split]].
  - intros r rest Hf Hsr Hk. rewrite (Hget _ Hsr), scan_record by done.
    unfold at_record. rewrite decide_True by done. by destruct (decide _).
  - intros r rest Hf Hsr Hk. rewrite (Hget _ Hsr), scan_record by done.
    unfold at_record. rewrite decide_False.
    2: { intros E. rewrite E, Memtable.key_ltb_irrefl in Hk. done. }
    by rewrite Hk.
  - intros tail Hsr Hlen. rewrite (Hget _ Hsr). cbn [scan].
    unfold read_u32, read_full, len.
    destruct (4 <=? Z.of_nat (length tail)) eqn:E; [apply Z.leb_le in E; lia|].
    by destruct tail.
  - intros r c Hf Hc Hsr. rewrite (Hget _ Hsr). by apply scan_truncated.
Qed.

Lemma scan_section_behaviour_witness :
  select_range two_records (B "b") = Some (inr (8, 34)) /\
  Forall (below (B "b")) [rec_a] /\
  Get two_records (B "b") = Some (B "hello", Found, None).
Proof.
  assert (Hsel : select_range two_records (B "b") = Some (inr (8, 34)))
    by (vm_compute; reflexivity).
  assert (Hpre : Forall (below (B "b")) [rec_a]).
  { repeat constructor; vm_compute; reflexivity. }
  split; [exact Hsel|]. split; [exact Hpre|].
  refine (proj1 (scan_section_behaviour two_records (B "b") 8 34 [rec_a] Hsel Hpre)
                rec_b [] _ _ _).
  - split; vm_compute; reflexivity.
  - vm_compute. reflexivity.
  - reflexivity.
Defined.

(** C3 as stated fails when the range ends in fewer than four stray bytes:
    the read of the next key length is short, and the lookup answers NotFound
    with no error. *)
Lemma scan_short_key_length_not_corrupt :
  select_range stray_tail (B "b") = Some (inr (8, 21)) /\
  section stray_tail 8 (21 - 8) = enc rec_a ++ [xff; xff] /\
  read_u32 [xff; xff] = Err ErrUnexpectedEOF /\
  Get stray_tail (B "b") = Some ([], NotFound, None).
Proof. vm_compute. repeat split; reflexivity. Qed.

(** *** The Bloom filter in front of the index *)

(** [f.WriteAt(junk, i)] inside the file. *)
Definition overwrite (file : bytes) (i : Z) (junk : bytes) : bytes :=
  take (Z.to_nat i) file ++ junk ++ drop (Z.to_nat i + length junk) file.

(** The filter a file carries, as [Get] reads it. *)
Definition bloom_of (file : bytes) : option bloom :=
  match loadFooter file with
  | Err _ => None
  | Ok (_, bloomStartOffset) =>
    let footerStart := (len file - footerSize) mod 2 ^ 64 in
    unmarshalBloom (section file bloomStartOffset (footerStart - bloomStartOffset))
  end.

Lemma read_u32_ok r :
  (4 <= length r)%nat -> read_u32 r = Ok (le_value (take 4 r), drop 4 r).
Proof.
  intros Hl. unfold read_u32, read_full, len.
  destruct (4 <=? Z.of_nat (length r)) eqn:E; [done|apply Z.leb_gt in E; lia].
Qed.

Lemma loadFooter_bounds file i b :
  loadFooter file = Ok (i, b) ->
  headerSize <= i /\ i < b /\ b < (len file - footerSize) mod 2 ^ 64 /\
  headerSize + footerSize <= len file.
Proof.
  unfold loadFooter. destruct (len file <? headerSize + footerSize) eqn:E1; [done|].
  destruct (read_u64 _) as [[i' r]|]; [|done].
  destruct (read_u64 r) as [[b' r']|]; [|done].
  destruct ((i' <? _) || _) eqn:E2; [done|]. destruct ((b' <=? _) || _) eqn:E3; [done|].
  intros [= <- <-]. apply orb_false_iff in E2 as [E2 E2'].
  apply orb_false_iff in E3 as [E3 E3']. apply Z.ltb_ge in E1. lia.
Qed.

Lemma unmarshalBloom_nonzero p bf :
  unmarshalBloom p = Some bf -> (bm bf =? 0) || (bk bf =? 0) = false.
Proof.
  unfold unmarshalBloom. destruct (len p <? 12); [done|].
  destruct ((_ =? 0) || _) eqn:E; [done|]. destruct (negb _ || _); [done|].
  by intros [= <-].
Qed.

Section overwritten.
Variables (file junk : bytes) (i b : Z).
Hypothesis Hfoot : loadFooter file = Ok (i, b).
Hypothesis Hjunk : len junk = b - i.

Let file' := overwrite file i junk.

Lemma overwrite_bounds :
  (8 <= Z.to_nat i)%nat /\ (Z.to_nat i + length junk = Z.to_nat b)%nat /\
  (Z.to_nat b <= length file - 16)%nat /\ (24 <= length file)%nat.
Proof.
  destruct (loadFooter_bounds _ _ _ Hfoot) as (H1 & H2 & H3 & H4).
  unfold headerSize, footerSize, len in *.
  assert ((Z.of_nat (length file) - 16) mod 2 ^ 64 <= Z.of_nat (length file) - 16).
  { apply Z.mod_le; lia. }
  lia.
Qed.

Lemma overwrite_length : length file' = length file.
Proof.
  destruct overwrite_bounds as (H1 & H2 & H3 & H4).
  unfold file', overwrite. rewrite !length_app, length_take, length_drop. lia.
Qed.

Lemma overwrite_take c : (c <= Z.to_nat i)%nat -> take c file' = take c file.
Proof.
  intros Hc. destruct overwrite_bounds as (H1 & H2 & H3 & H4).
  unfold file', overwrite. rewrite take_app_le by (rewrite length_take; lia).
  rewrite take_take. f_equal. lia.
Qed.

Lemma overwrite_drop c : (Z.to_nat b <= c)%nat -> drop c file' = drop c file.
Proof.
  intros Hc. destruct overwrite_bounds as (H1 & H2 & H3 & H4).
  unfold file', overwrite. rewrite app_assoc.
  rewrite drop_app_ge by (rewrite length_app, length_take; lia).
  rewrite length_app, length_take, drop_drop. f_equal. lia.
Qed.

Lemma overwrite_loadFooter : loadFooter file' = loadFooter file.
Proof.
  destruct overwrite_bounds as (H1 & H2 & H3 & H4).
  unfold loadFooter, len. rewrite overwrite_length.
  rewrite overwrite_drop; [done|]. unfold footerSize. lia.
Qed.

Lemma overwrite_bloom_of : bloom_of file' = bloom_of file.
Proof.
  destruct overwrite_bounds as (H1 & H2 & H3 & H4).
  unfold bloom_of. rewrite overwrite_loadFooter, Hfoot.
  unfold section, len. rewrite overwrite_length. by rewrite overwrite_drop.
Qed.

End overwritten.

(** C6.  When the filter a table carries excludes the key, [Get] answers
    NotFound with no error whatever bytes stand in the index region
    [[indexStartOffset, bloomStartOffset)]: the region is not read. *)
Theorem bloom_negative_short_circuit (file key junk : bytes) (i b : Z) :
  take 4 file = le32 magic ->
  loadFooter file = Ok (i, b) ->
  (bloom_of file ≫= fun bf => mayContain bf key) = Some false ->
  len junk = b - i ->
  Get (overwrite file i junk) key = Some ([], NotFound, None).
Proof.
  intros Hmagic Hfoot Hbloom Hjunk.
  destruct (overwrite_bounds file junk i b Hfoot Hjunk) as (H1 & H2 & H3 & H4).
  pose proof (overwrite_length file junk i b Hfoot Hjunk) as Hlen.
  pose proof (overwrite_bloom_of file junk i b Hfoot Hjunk) as Hbf.
  unfold Get, select_range.
  rewrite read_u32_ok by lia.
  rewrite (overwrite_take file junk i b Hfoot Hjunk) by lia.
  rewrite Hmagic, le_value_le32. change (magic mod 2 ^ 32 =? magic) with true.
  cbn [negb]. rewrite read_u32_ok by (rewrite length_drop; lia).
  rewrite (overwrite_loadFooter file junk i b Hfoot Hjunk), Hfoot.
  unfold bloom_of in Hbf, Hbloom.
  rewrite (overwrite_loadFooter file junk i b Hfoot Hjunk), Hfoot in Hbf.
  rewrite Hfoot in Hbloom. rewrite Hbf.
  destruct (unmarshalBloom _) as [bf|] eqn:Hu; [|done].
  rewrite (unmarshalBloom_nonzero _ _ Hu). simpl in Hbloom. by rewrite Hbloom.
Qed.

(** A 64-bit filter with three taps that holds the key a. *)
Definition small_bloom : bloom := default full_bloom (add (mkBloom 64 3 (replicate 8 x00)) (B "a")).

Definition filtered_table : bytes :=
  craft_with small_bloom (enc rec_a) [mkIndexEntry (B "a") 8].

Lemma bloom_negative_short_circuit_witness :
  take 4 filtered_table = le32 magic /\
  loadFooter filtered_table = Ok (19, 36) /\
  (bloom_of filtered_table ≫= fun bf => mayContain bf (B "z")) = Some false /\
  loadIndex (overwrite filtered_table 19 (replicate 17 xff)) = Err ErrCorruptSST /\
  Get (overwrite filtered_table 19 (replicate 17 xff)) (B "z") = Some ([], NotFound, None).
Proof.
  split; [reflexivity|]. split; [vm_compute; reflexivity|].
  split; [vm_compute; reflexivity|]. split; [vm_compute; reflexivity|].
  apply (bloom_negative_short_circuit filtered_table (B "z") (replicate 17 xff) 19 36);
    vm_compute; reflexivity.
Defined.

(** *** What WriteTable lays down *)

(** The bit set has room for every tap. *)
Definition wf_bloom (bf : bloom) : Prop := 0 < bm bf <= 8 * len (bb bf).

Lemma tap_range bf key i : 0 < bm bf -> 0 <= tap bf key i < bm bf.
Proof.
  intros Hm. unfold tap.
  set (x := (_ + _) mod 2 ^ 64).
  pose proof (Z.mod_pos_bound x (bm bf) Hm) as Hx.
  pose proof (Z.mod_pos_bound (x mod bm bf) (2 ^ 32) eq_refl) as H32.
  pose proof (Z.mod_le (x mod bm bf) (2 ^ 32)). lia.
Qed.

Lemma set_spec bf i :
  wf_bloom bf -> 0 <= i < bm bf ->
  exists bf', set bf i = Some bf' /\ bm bf' = bm bf /\ bk bf' = bk bf /\
              length (bb bf') = length (bb bf).
Proof.
  intros [Hm Hn] Hi. unfold set.
  destruct (lookup_lt_is_Some_2 (bb bf) (Z.to_nat (i / 8))) as [c Hc].
  { unfold len in Hn. apply Nat2Z.inj_lt. rewrite Z2Nat.id by (apply Z.div_pos; lia).
    apply Z.div_lt_upper_bound; lia. }
  rewrite Hc. eexists; split; [reflexivity|]. simpl. by rewrite length_insert.
Qed.

Lemma add_fold_spec bf ps : forall b0,
  wf_bloom b0 -> bm b0 = bm bf -> Forall (fun p => 0 <= p < bm bf) ps ->
  exists bf', foldl (fun b p => b ← b; set b p) (Some b0) ps = Some bf' /\
              wf_bloom bf' /\ bm bf' = bm bf /\ bk bf' = bk b0.
Proof.
  induction ps as [|p ps IH]; intros b0 Hwf Hm Hps.
  - by exists b0.
  - apply Forall_cons in Hps as [Hp Hps]. cbn [foldl mbind option_bind].
    destruct (set_spec b0 p Hwf) as (b1 & Hs & Hm1 & Hk1 & Hl1); [lia|].
    change (Some b0 ≫= (fun b => set b p)) with (set b0 p). rewrite Hs.
    destruct (IH b1) as (bf' & Hf & Hwf' & Hm' & Hk'); [|lia|done|].
    { unfold wf_bloom, len in *. rewrite Hm1, Hl1. done. }
    exists bf'. by rewrite Hf, Hk', Hk1.
Qed.

Lemma add_spec bf key :
  wf_bloom bf ->
  exists bf', add bf key = Some bf' /\ wf_bloom bf' /\ bm bf' = bm bf /\ bk bf' = bk bf.
Proof.
  intros Hwf. unfold add. apply add_fold_spec; [done..|].
  unfold taps. apply Forall_fmap, Forall_forall. intros i _. apply tap_range, Hwf.
Qed.

Lemma newBloom_wf : wf_bloom (newBloom (2 ^ 20) 7).
Proof.
  unfold wf_bloom, newBloom, len. change (2 ^ 20 <? 8) with false. cbn [bm bb].
  rewrite length_replicate.
  change (((2 ^ 20 + 7) mod 2 ^ 32) / 8) with 131072. lia.
Qed.

(** An entry as the record [WriteTable] makes of it. *)
Definition rec_of (e : Entry) : rec :=
  mkRec (Key e) (Value e) (if Tombstone e then x01 else x00).

Lemma write_entry_spec w idx bf i e :
  wf_bloom bf ->
  exists w' idx' bf',
    write_entry (Some (w, idx, bf, i)) e = Some (w', idx', bf', i + 1) /\
    out w' = out w ++ enc (rec_of e) /\ wf_bloom bf'.
Proof.
  intros Hwf. unfold write_entry. cbn [mbind option_bind].
  destruct (add_spec bf (Key e) Hwf) as (bf' & Ha & Hwf' & _). rewrite Ha.
  cbn [mbind option_bind]. do 3 eexists. split; [reflexivity|]. split; [|done].
  unfold enc, rec_of. cbn [rkey rval rtomb].
  destruct (0 <? len (Value e)) eqn:E.
  - unfold write. cbn [out]. by rewrite <- !app_assoc.
  - rewrite (len_zero_nil _ E). unfold write. cbn [out].
    by rewrite <- !app_assoc, app_nil_r.
Qed.

Lemma write_entries_spec es : forall w idx bf i,
  wf_bloom bf ->
  exists w' idx' bf' i',
    foldl write_entry (Some (w, idx, bf, i)) es = Some (w', idx', bf', i') /\
    out w' = out w ++ concat (enc ∘ rec_of <$> es) /\ wf_bloom bf'.
Proof.
  induction es as [|e es IH]; intros w idx bf i Hwf.
  - exists w, idx, bf, i. by rewrite app_nil_r.
  - cbn [foldl]. destruct (write_entry_spec w idx bf i e Hwf) as (w1 & idx1 & bf1 & Hw & Ho & Hwf1).
    rewrite Hw. destruct (IH w1 idx1 bf1 (i + 1) Hwf1) as (w' & idx' & bf' & i' & Hf & Ho' & Hwf').
    exists w', idx', bf', i'. split; [done|]. split; [|done].
    rewrite Ho', Ho, fmap_cons. cbn [concat compose]. by rewrite <- app_assoc.
Qed.

Lemma out_write p w : out (write p w) = out w ++ p.
Proof. reflexivity. Qed.


Lemma WriteTable_total entries : is_Some (WriteTable entries).
Proof.
  unfold WriteTable. cbv zeta.
  destruct (write_entries_spec entries
              (write (le32 (len entries)) (write (le32 magic) (mkWriter [] 0)))
              [] (newBloom (2 ^ 20) 7) 0 newBloom_wf)
    as (w & idx & bf & i & Hf & _).
  rewrite Hf. cbn [mbind option_bind]. by eexists.
Qed.





(** *** The index region *)

(** An index entry as it stands in the file. *)
Definition ienc (it : indexEntry) : bytes :=
  le32 (len (ikey it)) ++ ikey it ++ le64 (offset it).

(** What [loadIndex] asks of one entry. *)
Definition valid (indexStartOffset : Z) (it : indexEntry) : Prop :=
  0 < len (ikey it) <= maxIndexKeySize /\ headerSize <= offset it < indexStartOffset.

(** Some key is less than the key before it. *)
Definition descends (ents : list indexEntry) : Prop :=
  exists j a b, ents !! j = Some a /\ ents !! S j = Some b /\
                Memtable.key_ltb (ikey b) (ikey a) = true.

Lemma is_sorted_descends ents : is_sorted ents = false <-> descends ents.
Proof.
  unfold descends. induction ents as [|a r IH]; [split; [done|by intros (j & ? & ? & ? & _)]|].
  destruct r as [|b r'].
  { split; [done|]. by intros (j & ? & ? & _ & ? & _). }
  cbn [is_sorted]. rewrite andb_false_iff, negb_false_iff. split.
  - intros [Hlt|Hr].
    + by exists 0%nat, a, b.
    + apply IH in Hr as (j & x & y & Hx & Hy & Hlt). by exists (S j), x, y.
  - intros ([|j] & x & y & Hx & Hy & Hlt).
    + injection Hx as <-. injection Hy as <-. by left.
    + right. apply IH. by exists j, x, y.
Qed.

Lemma load_entries_valid i good : forall c rest acc,
  i < 2 ^ 64 -> Forall (valid i) good ->
  load_entries (length good + c) (concat (ienc <$> good) ++ rest) i acc =
  load_entries c rest i (acc ++ good).
Proof.
  induction good as [|it good IH]; intros c rest acc Hi Hv.
  - by rewrite app_nil_r.
  - apply Forall_cons in Hv as [[[Hk1 Hk2] [Ho1 Ho2]] Hv].
    rewrite fmap_cons. cbn [concat length Nat.add load_entries].
    unfold ienc at 1. rewrite <- !app_assoc.
    unfold maxIndexKeySize, headerSize in *.
    rewrite read_u32_le32, Z.mod_small by lia.
    replace ((len (ikey it) =? 0) || (2 ^ 20 <? len (ikey it))) with false.
    2: { symmetry. apply orb_false_iff. split; [apply Z.eqb_neq|apply Z.ltb_ge]; lia. }
    rewrite read_full_app, read_u64_le64, Z.mod_small by lia.
    replace ((offset it <? 8) || (i <=? offset it)) with false.
    2: { symmetry. apply orb_false_iff. split; [apply Z.ltb_ge|apply Z.leb_gt]; lia. }
    rewrite IH by done. destruct it. by rewrite <- app_assoc.
Qed.

Lemma loadIndex_region file i b cnt region :
  loadFooter file = Ok (i, b) ->
  drop (Z.to_nat i) file = le32 cnt ++ region -> 0 <= cnt < 2 ^ 32 ->
  loadIndex file =
    if (cnt =? 0) || (maxIndexCount <? cnt) then Err ErrCorruptSST
    else match load_entries (Z.to_nat cnt) region i [] with
         | Err e => Err e
         | Ok entries =>
           if negb (is_sorted entries) then Err ErrCorruptSST else Ok (entries, i)
         end.
Proof.
  intros Hfoot Hdrop Hcnt. unfold loadIndex. rewrite Hfoot, Hdrop.
  by rewrite read_u32_le32, Z.mod_small by lia.
Qed.

(** An error of [loadIndex] is the answer of a lookup the filter lets through. *)
Lemma Get_index_error file key e :
  take 4 file = le32 magic ->
  (bloom_of file ≫= fun bf => mayContain bf key) = Some true ->
  loadIndex file = Err e ->
  Get file key = Some ([], NotFound, Some e).
Proof.
  intros Hmagic Hbloom Hidx. unfold Get, select_range.
  unfold bloom_of in Hbloom. unfold loadIndex in Hidx.
  destruct (loadFooter file) as [[i b]|] eqn:Hfoot; [|done].
  destruct (loadFooter_bounds _ _ _ Hfoot) as (_ & _ & _ & Hlen).
  unfold headerSize, footerSize, len in Hlen.
  rewrite read_u32_ok by lia. rewrite Hmagic, le_value_le32.
  change (magic mod 2 ^ 32 =? magic) with true. cbn [negb].
  rewrite read_u32_ok by (rewrite length_drop; lia).
  destruct (unmarshalBloom _) as [bf|] eqn:Hu; [|done].
  rewrite (unmarshalBloom_nonzero _ _ Hu). simpl in Hbloom. rewrite Hbloom.
  unfold loadIndex. rewrite Hfoot. by rewrite Hidx.
Qed.

(** C5, as amended.  For a file whose footer gives the index region,
    [loadIndex] reports [ErrCorruptSST] when indexCount is 0 or above 2^20,
    when after valid entries a keyLen is 0 or above 2^20, when after valid
    entries a record offset lies outside [[headerSize, indexStartOffset)],
    and when among indexCount valid entries some key is less than the key
    before it.  Valid entries none of whose keys is less than the key before
    it are loaded: equal adjacent keys are accepted.  A lookup that reaches
    the index returns the error of [loadIndex]. *)
Theorem index_region_validation (file : bytes) (i b cnt : Z) (region : bytes) :
  loadFooter file = Ok (i, b) ->
  drop (Z.to_nat i) file = le32 cnt ++ region -> 0 <= cnt < 2 ^ 32 ->
  (cnt = 0 \/ 2 ^ 20 < cnt -> loadIndex file = Err ErrCorruptSST) /\
  (forall good keyLen rest,
     Forall (valid i) good -> len good < cnt -> 0 <= keyLen < 2 ^ 32 ->
     region = concat (ienc <$> good) ++ le32 keyLen ++ rest ->
     keyLen = 0 \/ 2 ^ 20 < keyLen -> loadIndex file = Err ErrCorruptSST) /\
  (forall good k off rest,
     Forall (valid i) good -> len good < cnt ->
     0 < len k <= 2 ^ 20 -> 0 <= off < 2 ^ 64 ->
     region = concat (ienc <$> good) ++ ienc (mkIndexEntry k off) ++ rest ->
     off < headerSize \/ i <= off -> loadIndex file = Err ErrCorruptSST) /\
  (forall ents rest,
     Forall (valid i) ents -> len ents = cnt -> 0 < cnt <= 2 ^ 20 ->
     region = concat (ienc <$> ents) ++ rest ->
     (descends ents -> loadIndex file = Err ErrCorruptSST) /\
     (~ descends ents -> loadIndex file = Ok (ents, i))) /\
  (forall key e,
     take 4 file = le32 magic ->
     (bloom_of file ≫= fun bf => mayContain bf key) = Some true ->
     loadIndex file = Err e -> Get file key = Some ([], NotFound, Some e)).
Proof.
  intros Hfoot Hdrop Hcnt.
  pose proof (loadIndex_region _ _ _ _ _ Hfoot Hdrop Hcnt) as Hli.
  assert (Hi : i < 2 ^ 64).
  { destruct (loadFooter_bounds _ _ _ Hfoot) as (_ & ? & ? & _).
    pose proof (Z.mod_pos_bound (len file - footerSize) (2 ^ 64) eq_refl). lia. }
  unfold maxIndexCount in Hli.
  split; [|split; [|split; [|split]]].
  - intros Hbad. rewrite Hli.
    replace ((cnt =? 0) || (2 ^ 20 <? cnt)) with true; [done|].
    symmetry. apply orb_true_iff. destruct Hbad; [left; apply Z.eqb_eq|right; apply Z.ltb_lt]; lia.
  - intros good keyLen rest Hgood Hlen Hkl -> Hbad. rewrite Hli.
    destruct ((cnt =? 0) || _); [done|].
    replace (Z.to_nat cnt) with (length good + S (Z.to_nat cnt - length good - 1))%nat
      by (unfold len in Hlen; lia).
    rewrite load_entries_valid by done. cbn [load_entries].
    rewrite read_u32_le32, Z.mod_small by lia. unfold maxIndexKeySize.
    replace ((keyLen =? 0) || (2 ^ 20 <? keyLen)) with true; [done|].
    symmetry. apply orb_true_iff. destruct Hbad; [left; apply Z.eqb_eq|right; apply Z.ltb_lt]; lia.
  - intros good k off rest Hgood Hlen Hk Hoff -> Hbad. rewrite Hli.
    destruct ((cnt =? 0) || _); [done|].
    replace (Z.to_nat cnt) with (length good + S (Z.to_nat cnt - length good - 1))%nat
      by (unfold len in Hlen; lia).
    rewrite load_entries_valid by done. cbn [load_entries].
    unfold ienc. cbn [ikey offset]. rewrite <- !app_assoc.
    rewrite read_u32_le32, Z.mod_small by lia. unfold maxIndexKeySize.
    replace ((len k =? 0) || (2 ^ 20 <? len k)) with false.
    2: { symmetry. apply orb_false_iff. split; [apply Z.eqb_neq|apply Z.ltb_ge]; lia. }
    rewrite read_full_app, read_u64_le64, Z.mod_small by lia.
    replace ((off <? headerSize) || (i <=? off)) with true; [done|].
    symmetry. apply orb_true_iff. destruct Hbad; [left; apply Z.ltb_lt|right; apply Z.leb_le]; lia.
  - intros ents rest Hv Hlen Hc ->. rewrite Hli.
    replace ((cnt =? 0) || (2 ^ 20 <? cnt)) with false.
    2: { symmetry. apply orb_false_iff. split; [apply Z.eqb_neq|apply Z.ltb_ge]; lia. }
    replace (Z.to_nat cnt) with (length ents + 0)%nat by (unfold len in Hlen; lia).
    rewrite load_entries_valid by done. cbn [load_entries app].
    split.
    + intros Hd. apply is_sorted_descends in Hd. by rewrite Hd.
    + intros Hd. destruct (is_sorted ents) eqn:E; [done|].
      by apply is_sorted_descends in E.
  - intros key e. apply Get_index_error.
Qed.

(** Records a and b, with two index entries under the same key. *)
Definition equal_keys_index : list indexEntry :=
  [mkIndexEntry (B "a") 8; mkIndexEntry (B "a") 19].

Definition equal_keys : bytes := craft (enc rec_a ++ enc rec_b) equal_keys_index.

Lemma index_region_validation_witness :
  loadFooter equal_keys = Ok (34, 64) /\
  ~ descends equal_keys_index /\
  loadIndex equal_keys = Ok (equal_keys_index, 34).
Proof.
  assert (Hnd : ~ descends equal_keys_index).
  { intros Hd. apply is_sorted_descends in Hd. vm_compute in Hd. discriminate Hd. }
  split; [vm_compute; reflexivity|]. split; [exact Hnd|].
  assert (Hfoot : loadFooter equal_keys = Ok (34, 64)) by (vm_compute; reflexivity).
  assert (Hdrop : drop (Z.to_nat 34) equal_keys =
                  le32 2 ++ concat (ienc <$> equal_keys_index) ++ drop 64 equal_keys)
    by (vm_compute; reflexivity).
  assert (Hcnt : 0 <= 2 < 2 ^ 32) by lia.
  destruct (index_region_validation equal_keys 34 64 2 _ Hfoot Hdrop Hcnt)
    as (_ & _ & _ & Hload & _).
  refine (proj2 (Hload equal_keys_index (drop 64 equal_keys) _ _ _ _) Hnd).
  - repeat constructor; vm_compute; congruence.
  - reflexivity.
  - lia.
  - reflexivity.
Defined.

(** C5 as stated fails on equal adjacent keys: the index of [equal_keys]
    holds the key a twice, [loadIndex] loads it, and lookups that reach the
    index answer without any corruption error. *)
Lemma equal_adjacent_keys_accepted :
  take 2 (ikey <$> equal_keys_index) = [B "a"; B "a"] /\
  loadIndex equal_keys = Ok (equal_keys_index, 34) /\
  select_range equal_keys (B "b") = Some (inr (19, 34)) /\
  Get equal_keys (B "b") = Some (B "hello", Found, None) /\
  Get equal_keys (B "a") = Some ([], NotFound, None).
Proof. vm_compute. repeat split; reflexivity. Qed.

(** *** The Bloom filter: what it keeps *)

Lemma set_bit_byte (c : byte) (bit : Z) :
  0 <= bit < 8 ->
  Z_of_byte (byte_of_Z (Z.lor (Z_of_byte c) (Z.shiftl 1 bit))) =
  Z.lor (Z_of_byte c) (Z.shiftl 1 bit).
Proof.
  intros Hb. rewrite Z_of_byte_of_Z. pose proof (Z_of_byte_range c) as Hc.
  change 256 with (2 ^ 8). rewrite <- Z.land_ones by lia.
  rewrite Z.land_lor_distr_l, !Z.land_ones by lia.
  rewrite (Z.mod_small (Z_of_byte c)) by (change (2 ^ 8) with 256; lia).
  rewrite Z.shiftl_1_l. rewrite (Z.mod_small (2 ^ bit)); [done|].
  split; [apply Z.pow_nonneg; lia|]. apply Z.pow_lt_mono_r; lia.
Qed.

Lemma mask_nonzero bit : 0 <= bit -> Z.shiftl 1 bit <> 0.
Proof. intros Hb. rewrite Z.shiftl_1_l. apply Z.pow_nonzero; lia. Qed.

Lemma get_set_same bf bf' i :
  0 <= i -> set bf i = Some bf' -> get bf' i = Some true.
Proof.
  intros Hi. unfold set, get.
  destruct (bb bf !! Z.to_nat (i / 8)) as [c|] eqn:Hc; [|done].
  cbn [mbind option_bind]. intros [= <-]. cbn [bb].
  rewrite list_lookup_insert_eq by (by eapply lookup_lt_Some).
  cbn [mbind option_bind]. f_equal.
  pose proof (Z.mod_pos_bound i 8 eq_refl) as Hbit.
  rewrite set_bit_byte by lia. apply negb_true_iff, Z.eqb_neq.
  rewrite Z.land_lor_distr_l, Z.land_diag. intros E.
  apply Z.lor_eq_0_iff in E as [_ E]. by apply mask_nonzero in E; [|lia].
Qed.

Lemma get_set_mono bf bf' i j :
  0 <= i -> set bf i = Some bf' -> get bf j = Some true -> get bf' j = Some true.
Proof.
  intros Hi. unfold set, get.
  destruct (bb bf !! Z.to_nat (i / 8)) as [c|] eqn:Hc; [|done].
  cbn [mbind option_bind]. intros [= <-]. cbn [bb].
  destruct (decide (Z.to_nat (j / 8) = Z.to_nat (i / 8))) as [E|E].
  - rewrite E, Hc. rewrite list_lookup_insert_eq by (by eapply lookup_lt_Some).
    cbn [mbind option_bind]. intros [= Hj]. f_equal.
    pose proof (Z.mod_pos_bound i 8 eq_refl) as Hbit.
    rewrite set_bit_byte by lia.
    apply negb_true_iff, Z.eqb_neq in Hj. apply negb_true_iff, Z.eqb_neq.
    rewrite Z.land_lor_distr_l. intros E0.
    by apply Z.lor_eq_0_iff in E0 as [E0 _].
  - by rewrite list_lookup_insert_ne.
Qed.

Lemma set_params bf bf' i : set bf i = Some bf' -> bm bf' = bm bf /\ bk bf' = bk bf.
Proof.
  unfold set. destruct (bb bf !! _); [|done]. cbn [mbind option_bind]. by intros [= <-].
Qed.

(** After the taps [ps] are set, each of them reads as set, and so does
    every bit that was set before. *)
Lemma add_fold_get ps : forall b0 bf',
  Forall (fun p => 0 <= p) ps ->
  foldl (fun b p => b ← b; set b p) (Some b0) ps = Some bf' ->
  bm bf' = bm b0 /\ bk bf' = bk b0 /\
  Forall (fun p => get bf' p = Some true) ps /\
  (forall j, get b0 j = Some true -> get bf' j = Some true).
Proof.
  induction ps as [|p ps IH]; intros b0 bf' Hps.
  - intros [= <-]. done.
  - apply Forall_cons in Hps as [Hp Hps]. cbn [foldl].
    change (Some b0 ≫= (fun b => set b p)) with (set b0 p).
    destruct (set b0 p) as [b1|] eqn:Hs.
    2: { intros H. exfalso. clear -H. induction ps as [|q ps IH]; [done|]. by apply IH. }
    intros Hf. destruct (IH b1 bf' Hps Hf) as (Hm & Hk & Hall & Hmono).
    destruct (set_params _ _ _ Hs) as [Hm1 Hk1].
    split; [congruence|]. split; [congruence|]. split.
    + constructor; [|done]. apply Hmono. by apply (get_set_same b0).
    + intros j Hj. apply Hmono. by apply (get_set_mono b0 b1 p).
Qed.

Lemma mayContain_loop_true bf ps :
  mayContain_loop bf ps = Some true <-> Forall (fun p => get bf p = Some true) ps.
Proof.
  induction ps as [|p ps IH]; [by split|]. cbn [mayContain_loop]. split.
  - destruct (get bf p) as [[|]|] eqn:E; [|done..]. intros H. constructor; [done|by apply IH].
  - intros H. apply Forall_cons in H as [-> H]. by apply IH.
Qed.

Lemma taps_nonneg bf key : 0 < bm bf -> Forall (fun p => 0 <= p) (taps bf key).
Proof.
  intros Hm. unfold taps. apply Forall_fmap, Forall_forall. intros i _.
  simpl. pose proof (tap_range bf key i Hm). lia.
Qed.

Lemma taps_params bf bf' key : bm bf' = bm bf -> bk bf' = bk bf -> taps bf' key = taps bf key.
Proof. intros Hm Hk. unfold taps, tap. by rewrite Hm, Hk. Qed.

(** X5.  The filter has no false negatives: after [add] of a key,
    [mayContain] answers true for it, and it still answers true for every
    key it answered true for before. *)
Theorem bloom_no_false_negative (bf bf' : bloom) (key : bytes) :
  0 < bm bf -> add bf key = Some bf' ->
  mayContain bf' key = Some true /\
  (forall other, mayContain bf other = Some true -> mayContain bf' other = Some true).
Proof.
  intros Hm Ha. unfold add in Ha.
  destruct (add_fold_get _ _ _ (taps_nonneg bf key Hm) Ha) as (Hm' & Hk' & Hall & Hmono).
  split.
  - unfold mayContain. rewrite (taps_params bf bf') by done.
    by apply mayContain_loop_true.
  - intros other Ho. unfold mayContain in *. rewrite (taps_params bf bf') by done.
    apply mayContain_loop_true. apply mayContain_loop_true in Ho.
    eapply Forall_impl; [exact Ho|]. simpl. auto.
Qed.

Lemma bloom_no_false_negative_witness :
  mayContain small_bloom (B "a") = Some true /\
  (forall other, mayContain (mkBloom 64 3 (replicate 8 x00)) other = Some true ->
                 mayContain small_bloom other = Some true).
Proof.
  apply (bloom_no_false_negative (mkBloom 64 3 (replicate 8 x00)) small_bloom (B "a")).
  - reflexivity.
  - vm_compute. reflexivity.
Defined.

(** *** The Bloom filter: its bytes and its size *)

Lemma len_marshal bf : len (marshal bf) = 12 + len (bb bf).
Proof. unfold marshal, len. rewrite !length_app, !length_le32. simpl. lia. Qed.

(** X6.  [unmarshalBloom] reads back what [marshal] wrote: for a filter
    with parameters in the range of their types and a non-empty bit set that
    the 32-bit length field can hold, the round trip is the identity. *)
Theorem bloom_marshal_roundtrip (bf : bloom) :
  0 < bm bf < 2 ^ 32 -> 0 < bk bf < 256 ->
  0 < len (bb bf) -> 12 + len (bb bf) < 2 ^ 32 ->
  unmarshalBloom (marshal bf) = Some bf.
Proof.
  intros Hm Hk Hn Hn2.
  assert (H1 : take 4 (marshal bf) = le32 (bm bf)) by reflexivity.
  assert (H2 : marshal bf !! 4%nat = Some (byte_of_Z (bk bf))) by reflexivity.
  assert (H3 : take 4 (drop 8 (marshal bf)) = le32 (len (bb bf))) by reflexivity.
  assert (H4 : drop 12 (marshal bf) = bb bf) by reflexivity.
  unfold unmarshalBloom. rewrite H1, H2, H3, H4, len_marshal, !le_value_le32.
  cbn [default from_option id]. rewrite Z_of_byte_of_Z, !Z.mod_small by lia.
  replace (12 + len (bb bf) <? 12) with false by (symmetry; apply Z.ltb_ge; lia).
  replace ((bm bf =? 0) || (bk bf =? 0)) with false.
  2: { symmetry. apply orb_false_iff. split; apply Z.eqb_neq; lia. }
  rewrite (Z.mod_small (len (bb bf))), (Z.mod_small (12 + len (bb bf))) by lia.
  rewrite Z.eqb_refl. cbn [negb orb].
  replace (len (bb bf) =? 0) with false by (symmetry; apply Z.eqb_neq; lia).
  unfold len. rewrite Nat2Z.id, firstn_all. by destruct bf.
Qed.

Lemma bloom_marshal_roundtrip_witness :
  unmarshalBloom (marshal small_bloom) = Some small_bloom.
Proof.
  apply bloom_marshal_roundtrip; vm_compute; (split; reflexivity) || reflexivity.
Defined.

Lemma get_total bf i : wf_bloom bf -> 0 <= i < bm bf -> is_Some (get bf i).
Proof.
  intros [Hm Hn] Hi. unfold get.
  destruct (lookup_lt_is_Some_2 (bb bf) (Z.to_nat (i / 8))) as [c Hc].
  { unfold len in Hn. apply Nat2Z.inj_lt. rewrite Z2Nat.id by (apply Z.div_pos; lia).
    apply Z.div_lt_upper_bound; lia. }
  rewrite Hc. by eexists.
Qed.

Lemma mayContain_loop_total bf ps :
  Forall (fun p => is_Some (get bf p)) ps -> is_Some (mayContain_loop bf ps).
Proof.
  induction 1 as [|p ps [[|] Hp] _ IH]; cbn [mayContain_loop]; [by eexists|..];
    rewrite Hp; [done|by eexists].
Qed.

(** A filter that claims more bits than its bit set holds. *)
Definition wide_bloom : bloom := mkBloom 1000 1 [x00].

Definition wide_bloom_table : bytes :=
  craft_with wide_bloom (enc rec_a) [mkIndexEntry (B "a") 8].

(** X7.  [mayContain] answers for every key when the bit set holds at least
    [m] bits, as [newBloom] builds it.  [unmarshalBloom] does not compare [m]
    with the length of the bit set: it accepts the bytes of [wide_bloom], on
    which [mayContain] indexes past the bit set, and a lookup in a table file
    carrying that filter panics. *)
Theorem bloom_size_unchecked (bf : bloom) (key : bytes) :
  (wf_bloom bf -> exists b, mayContain bf key = Some b) /\
  unmarshalBloom (marshal wide_bloom) = Some wide_bloom /\
  mayContain wide_bloom (B "a") = None /\
  Get wide_bloom_table (B "a") = None.
Proof.
  split; [|by vm_compute].
  intros Hwf. destruct (mayContain_loop_total bf (taps bf key)) as [b Hb]; [|by exists b].
  unfold taps. apply Forall_fmap, Forall_forall. intros i _. simpl.
  apply get_total; [done|]. apply tap_range, Hwf.
Qed.

(** X8.  A new filter has room for its [m] bits and excludes every key:
    with at least one tap, [mayContain] answers false before any [add]. *)
Theorem bloom_new_excludes (m k : Z) (key : bytes) :
  0 <= m < 2 ^ 32 - 7 -> 0 < k ->
  wf_bloom (newBloom m k) /\ mayContain (newBloom m k) key = Some false.
Proof.
  intros Hm Hk.
  assert (Hwf : wf_bloom (newBloom m k)).
  { unfold wf_bloom, newBloom, len. cbn [bm bb]. rewrite length_replicate.
    set (m' := if m <? 8 then 8 else m).
    assert (8 <= m' < 2 ^ 32 - 7) by (unfold m'; destruct (m <? 8) eqn:E;
      [apply Z.ltb_lt in E|apply Z.ltb_ge in E]; lia).
    rewrite Z.mod_small by lia.
    rewrite Z2Nat.id by (apply Z.div_pos; lia).
    pose proof (Z.div_mod (m' + 7) 8 ltac:(lia)).
    pose proof (Z.mod_pos_bound (m' + 7) 8 ltac:(lia)). lia. }
  split; [done|].
  unfold mayContain, taps.
  assert (Hbk : bk (newBloom m k) = k) by reflexivity. rewrite Hbk.
  destruct (Z.to_nat k) as [|n] eqn:En; [lia|].
  cbn [seq fmap list_fmap mayContain_loop].
  destruct (get_total (newBloom m k) (tap (newBloom m k) key (Z.of_nat 0)) Hwf) as [b Hb].
  { apply tap_range, Hwf. }
  rewrite Hb. unfold get in Hb.
  destruct (bb (newBloom m k) !! _) as [c|] eqn:Hc; [|done].
  unfold newBloom in Hc. cbn [bb] in Hc. apply lookup_replicate in Hc as [-> _].
  cbn [mbind option_bind] in Hb. injection Hb as <-. reflexivity.
Qed.

Lemma bloom_new_excludes_witness :
  wf_bloom (newBloom 64 3) /\ mayContain (newBloom 64 3) (B "a") = Some false.
Proof. apply bloom_new_excludes; lia. Defined.

(** *** The footer and the header *)

(** The footer checks on a file that ends in two 64-bit offsets. *)
Lemma loadFooter_layout body i b :
  headerSize <= len body < 2 ^ 64 -> 0 <= i < 2 ^ 64 -> 0 <= b < 2 ^ 64 ->
  loadFooter (body ++ le64 i ++ le64 b) =
  if (headerSize <=? i) && (i <? b) && (b <? len body) then Ok (i, b)
  else Err ErrCorruptSST.
Proof.
  intros Hbody Hi Hb. unfold loadFooter, headerSize, footerSize in *.
  assert (Hlen : len (body ++ le64 i ++ le64 b) = len body + 16).
  { unfold len. rewrite !length_app, !length_le64. lia. }
  rewrite Hlen.
  replace (len body + 16 <? 8 + 16) with false by (symmetry; apply Z.ltb_ge; lia).
  replace (len body + 16 - 16) with (len body) by lia.
  replace (Z.to_nat (len body)) with (length body) by (unfold len; lia).
  rewrite drop_app_length.
  rewrite read_u64_le64. rewrite <- (app_nil_r (le64 b)), read_u64_le64.
  rewrite !Z.mod_small by lia.
  destruct (8 <=? i) eqn:E1, (i <? b) eqn:E2, (b <? len body) eqn:E3;
    destruct (i <? 8) eqn:E4, (len body <=? i) eqn:E5, (b <=? i) eqn:E6,
             (len body <=? b) eqn:E7; try reflexivity;
    repeat match goal with
           | H : (_ <=? _) = true |- _ => apply Z.leb_le in H
           | H : (_ <=? _) = false |- _ => apply Z.leb_gt in H
           | H : (_ <? _) = true |- _ => apply Z.ltb_lt in H
           | H : (_ <? _) = false |- _ => apply Z.ltb_ge in H
           end; lia.
Qed.

(** X9.  The footer is accepted exactly when its offsets are in order:
    a file shorter than header and footer is corrupt, and a file ending in
    the offsets [i] and [b] loads them when
    [headerSize <= i < b < footerStart] and is corrupt otherwise. *)
Theorem footer_validation (body : bytes) (i b : Z) :
  (forall file, len file < headerSize + footerSize -> loadFooter file = Err ErrCorruptSST) /\
  (headerSize <= len body < 2 ^ 64 -> 0 <= i < 2 ^ 64 -> 0 <= b < 2 ^ 64 ->
   (headerSize <= i /\ i < b /\ b < len body ->
    loadFooter (body ++ le64 i ++ le64 b) = Ok (i, b)) /\
   (i < headerSize \/ b <= i \/ len body <= b ->
    loadFooter (body ++ le64 i ++ le64 b) = Err ErrCorruptSST)).
Proof.
  split.
  - intros file Hshort. unfold loadFooter.
    by replace (len file <? headerSize + footerSize) with true
      by (symmetry; apply Z.ltb_lt; lia).
  - intros Hbody Hi Hb. rewrite loadFooter_layout by done. split.
    + intros (H1 & H2 & H3).
      replace (headerSize <=? i) with true by (symmetry; apply Z.leb_le; lia).
      replace (i <? b) with true by (symmetry; apply Z.ltb_lt; lia).
      by replace (b <? len body) with true by (symmetry; apply Z.ltb_lt; lia).
    + intros Hbad.
      destruct (headerSize <=? i) eqn:E1; [|done].
      destruct (i <? b) eqn:E2; [|done].
      destruct (b <? len body) eqn:E3; [|done].
      apply Z.leb_le in E1. apply Z.ltb_lt in E2, E3. lia.
Qed.

(** X10.  What [Get] answers on a file too short or wrongly headed to be a
    table: the read error on fewer than four bytes, and [ErrCorruptSST] on a
    wrong magic number, on a header without its count and on a file with no
    room for the footer.  None of these panics. *)
Theorem get_header_errors (file key : bytes) :
  (file = [] -> Get file key = Some ([], NotFound, Some EOF)) /\
  ((0 < length file < 4)%nat -> Get file key = Some ([], NotFound, Some ErrUnexpectedEOF)) /\
  ((4 <= length file)%nat -> le_value (take 4 file) <> magic -> Get file key = Some corrupt) /\
  (take 4 file = le32 magic -> (4 <= length file < 24)%nat -> Get file key = Some corrupt).
Proof.
  unfold Get, select_range. split; [|split; [|split]].
  - by intros ->.
  - intros Hl. unfold read_u32, read_full, len.
    destruct (4 <=? Z.of_nat (length file)) eqn:E; [apply Z.leb_le in E; lia|].
    destruct file; [simpl in Hl; lia|done].
  - intros Hl Hm. rewrite read_u32_ok by done.
    by replace (le_value (take 4 file) =? magic) with false
      by (symmetry; by apply Z.eqb_neq).
  - intros Hm Hl. rewrite read_u32_ok by lia. rewrite Hm, le_value_le32.
    change (magic mod 2 ^ 32 =? magic) with true. cbn [negb].
    destruct (decide (length file < 8)%nat) as [Hlt|Hge].
    + destruct (Wal.read_u32_short (drop 4 file)) as [e ->]; [rewrite length_drop; lia|done].
    + rewrite read_u32_ok by (rewrite length_drop; lia).
      unfold loadFooter.
      by replace (len file <? headerSize + footerSize) with true
        by (symmetry; apply Z.ltb_lt; unfold len, headerSize, footerSize; lia).
Qed.

(** *** The binary search and the choice of the scan range *)

Lemma half_between i j : (i < j -> i <= (i + j) / 2 < j)%nat.
Proof.
  intros Hlt. pose proof (Nat.div_mod_eq (i + j) 2) as Hd.
  pose proof (Nat.mod_upper_bound (i + j) 2 ltac:(lia)). lia.
Qed.

Lemma search_loop_bounds fuel f : forall i j,
  (i <= j -> i <= search_loop fuel f i j <= j)%nat.
Proof.
  induction fuel as [|fuel IH]; intros i j Hij; cbn [search_loop]; [lia|].
  destruct (i <? j)%nat eqn:E; [|lia]. apply Nat.ltb_lt in E.
  pose proof (half_between i j E) as Hh.
  destruct (negb (f ((i + j) / 2)%nat)).
  - specialize (IH ((i + j) / 2 + 1)%nat j ltac:(lia)). lia.
  - specialize (IH i ((i + j) / 2)%nat ltac:(lia)). lia.
Qed.

(** On a predicate that stays true once it is true, the search returns the
    first index at which it holds. *)
Lemma search_loop_first (n : nat) (f : nat -> bool) fuel :
  (forall a b, (a <= b < n)%nat -> f a = true -> f b = true) ->
  forall i j,
  (i <= j <= n)%nat -> (j - i <= fuel)%nat ->
  (forall a, (a < i)%nat -> f a = false) ->
  (forall a, (j <= a < n)%nat -> f a = true) ->
  (forall a, (a < search_loop fuel f i j)%nat -> f a = false) /\
  (forall a, (search_loop fuel f i j <= a < n)%nat -> f a = true).
Proof.
  intros Hmono. induction fuel as [|fuel IH]; intros i j Hij Hfuel Hlo Hhi;
    cbn [search_loop].
  - assert (i = j) as -> by lia. done.
  - destruct (i <? j)%nat eqn:E.
    2: { apply Nat.ltb_ge in E. assert (i = j) as -> by lia. done. }
    apply Nat.ltb_lt in E. pose proof (half_between i j E) as Hh.
    destruct (f ((i + j) / 2)%nat) eqn:Ef; cbn [negb].
    + apply IH; [lia|lia|done|]. intros a Ha.
      apply (Hmono ((i + j) / 2)%nat a); [lia|done].
    + apply IH; [lia|lia| |done]. intros a Ha.
      destruct (f a) eqn:Efa; [|done].
      rewrite (Hmono a ((i + j) / 2)%nat) in Ef; [done|lia|done].
Qed.

Lemma sort_Search_first (n : nat) (f : nat -> bool) :
  (forall a b, (a <= b < n)%nat -> f a = true -> f b = true) ->
  (sort_Search n f <= n)%nat /\
  (forall a, (a < sort_Search n f)%nat -> f a = false) /\
  (forall a, (sort_Search n f <= a < n)%nat -> f a = true).
Proof.
  intros Hmono. unfold sort_Search. split.
  - pose proof (search_loop_bounds n f 0%nat n ltac:(lia)). lia.
  - apply (search_loop_first n f n Hmono 0%nat n); [lia|lia| |]; intros a Ha; lia.
Qed.

(** Keys in non-descending order: no key is less than an earlier one. *)
Lemma is_sorted_lookup ents :
  is_sorted ents = true ->
  forall a b x y, (a <= b)%nat -> ents !! a = Some x -> ents !! b = Some y ->
                  Memtable.key_ltb (ikey y) (ikey x) = false.
Proof.
  induction ents as [|e ents IH]; [done|]. intros Hs a b x y Hab Ha Hb.
  assert (Hrest : is_sorted ents = true).
  { destruct ents; [done|]. cbn [is_sorted] in Hs. by apply andb_true_iff in Hs as [_ ?]. }
  assert (Hfirst : forall c z, ents !! c = Some z -> Memtable.key_ltb (ikey z) (ikey e) = false).
  { clear a b x y Hab Ha Hb. intros c. revert e Hs Hrest IH.
    induction c as [|c IHc]; intros e Hs Hrest IH z Hz.
    - destruct ents as [|e1 ents]; [done|]. injection Hz as <-.
      cbn [is_sorted] in Hs. apply andb_true_iff in Hs as [Hs _].
      by apply negb_true_iff in Hs.
    - destruct ents as [|e1 ents]; [done|]. simpl in Hz.
      cbn [is_sorted] in Hs. apply andb_true_iff in Hs as [Hs _].
      apply negb_true_iff in Hs.
      pose proof (IH Hrest 0%nat (S c) e1 z ltac:(lia) eq_refl Hz) as Hz1.
      destruct (Memtable.key_ltb (ikey z) (ikey e)) eqn:E; [|done].
      destruct (Memtable.key_ltb (ikey e1) (ikey z)) eqn:E1.
      + by rewrite (Memtable.key_ltb_trans _ _ _ E1 E) in Hs.
      + rewrite (Memtable.key_ltb_total _ _ E1 Hz1) in Hs. congruence. }
  destruct a as [|a], b as [|b]; simpl in Ha, Hb.
  - injection Ha as <-. injection Hb as <-. apply Memtable.key_ltb_irrefl.
  - injection Ha as <-. by apply (Hfirst b).
  - lia.
  - apply (IH Hrest a b); [lia|done..].
Qed.

(** [pickScanRange] on a sorted index that is not empty: the range starts
    at the last entry whose key is not above the target, or at the first
    entry, and ends at the next entry when there is one. *)
Lemma pickScanRange_spec ents I key :
  ents <> [] -> is_sorted ents = true ->
  exists t it,
    ents !! t = Some it /\
    (t = 0%nat \/ Memtable.key_ltb key (ikey it) = false) /\
    (forall nx, ents !! S t = Some nx -> Memtable.key_ltb key (ikey nx) = true) /\
    pickScanRange ents I key =
      Some (offset it,
            match ents !! S t with
            | Some nx => if (offset it <? offset nx) && (offset nx <? I) then offset nx else I
            | None => I
            end).
Proof.
  intros Hne Hs. unfold pickScanRange.
  set (f := fun i => match ents !! i with
                     | Some e => Memtable.key_ltb key (ikey e)
                     | None => false
                     end).
  destruct (sort_Search_first (length ents) f) as (Hle & Hlo & Hhi).
  { intros a b Hab. unfold f.
    destruct (lookup_lt_is_Some_2 ents a ltac:(lia)) as [x Hx].
    destruct (lookup_lt_is_Some_2 ents b ltac:(lia)) as [y Hy].
    rewrite Hx, Hy. intros Hkx.
    pose proof (is_sorted_lookup ents Hs a b x y ltac:(lia) Hx Hy) as Hyx.
    destruct (Memtable.key_ltb key (ikey y)) eqn:E; [done|].
    destruct (Memtable.key_ltb (ikey x) (ikey y)) eqn:Exy.
    - by rewrite (Memtable.key_ltb_trans _ _ _ Hkx Exy) in E.
    - rewrite (Memtable.key_ltb_total _ _ Exy Hyx) in Hkx. congruence. }
  set (r := sort_Search (length ents) f) in *.
  assert (Hlen : (0 < length ents)%nat) by (destruct ents; [done|simpl; lia]).
  set (t := (r - 1)%nat).
  assert (Ht : Z.to_nat (if Z.of_nat r - 1 <? 0 then 0 else Z.of_nat r - 1) = t).
  { destruct (Z.of_nat r - 1 <? 0) eqn:E;
      [apply Z.ltb_lt in E|apply Z.ltb_ge in E]; unfold t; lia. }
  assert (Ht1 : Z.to_nat ((if Z.of_nat r - 1 <? 0 then 0 else Z.of_nat r - 1) + 1) = S t).
  { destruct (Z.of_nat r - 1 <? 0) eqn:E;
      [apply Z.ltb_lt in E|apply Z.ltb_ge in E]; unfold t; lia. }
  rewrite Ht, Ht1.
  destruct (lookup_lt_is_Some_2 ents t ltac:(unfold t; lia)) as [it Hit].
  exists t, it. rewrite Hit. cbn [mbind option_bind]. split; [done|]. split; [|split; [|done]].
  - destruct (decide (r = 0)%nat) as [Hr|Hr]; [left; unfold t; lia|right].
    specialize (Hlo t ltac:(unfold t; lia)). unfold f in Hlo. by rewrite Hit in Hlo.
  - intros nx Hnx. assert (S t < length ents)%nat by (by eapply lookup_lt_Some).
    specialize (Hhi (S t) ltac:(unfold t; lia)). unfold f in Hhi. by rewrite Hnx in Hhi.
Qed.

(** *** What a written table holds *)

(** The bytes the records [l] take in the data region. *)
Definition size (l : list rec) : Z := len (concat (enc <$> l)).

(** The index entries the writer's loop adds over the records [rs], its
    counter at [i] and its offset at [off]. *)
Fixpoint index_of (i off : Z) (rs : list rec) : list indexEntry :=
  match rs with
  | [] => []
  | r :: rs =>
    (if i mod indexStride =? 0 then [mkIndexEntry (rkey r) off] else []) ++
    index_of (i + 1) (off + len (enc r)) rs
  end.

Lemma size_nil : size [] = 0.
Proof. reflexivity. Qed.

Lemma size_cons r l : size (r :: l) = len (enc r) + size l.
Proof. unfold size, len. rewrite fmap_cons. cbn [concat]. rewrite length_app. lia. Qed.

Lemma size_app l1 l2 : size (l1 ++ l2) = size l1 + size l2.
Proof.
  induction l1 as [|r l1 IH]; [done|]. cbn [app]. rewrite !size_cons, IH. lia.
Qed.

Lemma size_nonneg l : 0 <= size l.
Proof. unfold size, len. lia. Qed.

Lemma set_length bf bf' i : set bf i = Some bf' -> length (bb bf') = length (bb bf).
Proof.
  unfold set. destruct (bb bf !! _); [|done]. cbn [mbind option_bind].
  intros [= <-]. cbn [bb]. by rewrite length_insert.
Qed.

Lemma add_length bf bf' key : add bf key = Some bf' -> length (bb bf') = length (bb bf).
Proof.
  unfold add. generalize (taps bf key) as ps. intros ps. revert bf.
  induction ps as [|p ps IH]; intros bf; cbn [foldl].
  - by intros [= <-].
  - change (Some bf ≫= (fun b => set b p)) with (set bf p).
    destruct (set bf p) as [b1|] eqn:Hs.
    + intros H. rewrite (IH _ H). by apply set_length in Hs.
    + intros H. exfalso. clear -H. induction ps as [|q ps IH]; [done|]. by apply IH.
Qed.

(** [add] keeps what the filter held and holds the new key. *)
Lemma add_keeps bf bf' key :
  0 < bm bf -> add bf key = Some bf' ->
  mayContain bf' key = Some true /\
  (forall other, mayContain bf other = Some true -> mayContain bf' other = Some true).
Proof.
  intros Hm Ha. unfold add in Ha.
  destruct (add_fold_get _ _ _ (taps_nonneg bf key Hm) Ha) as (Hm' & Hk' & Hall & Hmono).
  split.
  - unfold mayContain. rewrite (taps_params bf bf') by done.
    by apply mayContain_loop_true.
  - intros other Ho. unfold mayContain in *. rewrite (taps_params bf bf') by done.
    apply mayContain_loop_true. apply mayContain_loop_true in Ho.
    eapply Forall_impl; [exact Ho|]. simpl. auto.
Qed.

(** The writer counts what it has written. *)
Lemma n_write p w :
  n w = len (out w) -> len (out w) + len p < 2 ^ 64 ->
  n (write p w) = len (out (write p w)).
Proof.
  intros Hn Hlt. unfold write. cbn [n out]. rewrite Hn.
  unfold len in *. rewrite length_app. rewrite Z.mod_small; lia.
Qed.

Lemma write_entry_layout w idx bf i e :
  wf_bloom bf -> n w = len (out w) -> len (out w) + len (enc (rec_of e)) < 2 ^ 64 ->
  exists w' bf',
    write_entry (Some (w, idx, bf, i)) e =
      Some (w', idx ++ (if i mod indexStride =? 0 then [mkIndexEntry (Key e) (n w)] else []),
            bf', i + 1) /\
    out w' = out w ++ enc (rec_of e) /\ n w' = len (out w') /\
    add bf (Key e) = Some bf' /\ wf_bloom bf' /\ bm bf' = bm bf /\ bk bf' = bk bf.
Proof.
  intros Hwf Hn Hlt. unfold write_entry. cbn [mbind option_bind].
  destruct (add_spec bf (Key e) Hwf) as (bf' & Ha & Hwf' & Hm & Hk). rewrite Ha.
  cbn [mbind option_bind].
  unfold enc, rec_of in Hlt |- *. cbn [rkey rval rtomb] in Hlt |- *.
  unfold len in Hlt. rewrite !length_app, !length_le32 in Hlt. cbn [length] in Hlt.
  set (w1 := write (le32 (len (Key e))) w).
  set (w2 := write (le32 (len (Value e))) w1).
  set (w3 := write [if Tombstone e then x01 else x00] w2).
  set (w4 := write (Key e) w3).
  assert (H1 : n w1 = len (out w1)).
  { apply n_write; [done|]. unfold len. rewrite length_le32. lia. }
  assert (H2 : n w2 = len (out w2)).
  { apply n_write; [done|]. unfold w1, len. rewrite out_write, length_app, !length_le32. lia. }
  assert (H3 : n w3 = len (out w3)).
  { apply n_write; [done|]. unfold w2, w1, len.
    rewrite !out_write, !length_app, !length_le32. cbn [length]. lia. }
  assert (H4 : n w4 = len (out w4)).
  { apply n_write; [done|]. unfold w3, w2, w1, len.
    rewrite !out_write, !length_app, !length_le32. cbn [length]. lia. }
  assert (H5 : n (write (Value e) w4) = len (out (write (Value e) w4))).
  { apply n_write; [done|]. unfold w4, w3, w2, w1, len.
    rewrite !out_write, !length_app, !length_le32. cbn [length]. lia. }
  eexists _, bf'. split.
  { f_equal. f_equal. f_equal. f_equal. destruct (i mod indexStride =? 0); [done|].
    by rewrite app_nil_r. }
  destruct (0 <? len (Value e)) eqn:E.
  - refine (conj _ (conj H5 (conj eq_refl (conj Hwf' (conj Hm Hk))))).
    unfold w4, w3, w2, w1. rewrite !out_write. by rewrite <- !app_assoc.
  - refine (conj _ (conj H4 (conj eq_refl (conj Hwf' (conj Hm Hk))))).
    unfold w4, w3, w2, w1. rewrite !out_write, <- !app_assoc.
    by rewrite (len_zero_nil _ E), app_nil_r.
Qed.

Lemma write_entries_layout es : forall w idx bf i,
  wf_bloom bf -> n w = len (out w) ->
  len (out w) + size (rec_of <$> es) < 2 ^ 64 ->
  exists w' bf',
    foldl write_entry (Some (w, idx, bf, i)) es =
      Some (w', idx ++ index_of i (n w) (rec_of <$> es), bf', i + len es) /\
    out w' = out w ++ concat (enc <$> (rec_of <$> es)) /\ n w' = len (out w') /\
    wf_bloom bf' /\ bm bf' = bm bf /\ bk bf' = bk bf /\
    length (bb bf') = length (bb bf) /\
    (forall k, mayContain bf k = Some true -> mayContain bf' k = Some true) /\
    Forall (fun e => mayContain bf' (Key e) = Some true) es.
Proof.
  induction es as [|e es IH]; intros w idx bf i Hwf Hn Hlt.
  - exists w, bf. cbn [foldl fmap list_fmap index_of concat]. rewrite !app_nil_r.
    unfold len. cbn [length]. rewrite Z.add_0_r. done.
  - rewrite fmap_cons, size_cons in Hlt. pose proof (size_nonneg (rec_of <$> es)).
    destruct (write_entry_layout w idx bf i e Hwf Hn ltac:(lia))
      as (w1 & bf1 & Hw & Ho & Hn1 & Ha & Hwf1 & Hm1 & Hk1).
    cbn [foldl]. rewrite Hw.
    destruct (IH w1 (idx ++ (if i mod indexStride =? 0
                             then [mkIndexEntry (Key e) (n w)] else [])) bf1 (i + 1) Hwf1 Hn1)
      as (w' & bf' & Hf & Ho' & Hn' & Hwf' & Hm' & Hk' & Hl' & Hmono & Hall).
    { rewrite Ho. unfold len in *. rewrite length_app. lia. }
    exists w', bf'. split.
    { rewrite Hf. f_equal. f_equal; [|unfold len; cbn [length]; lia]. f_equal. f_equal.
      rewrite fmap_cons. cbn [index_of]. rewrite <- app_assoc. f_equal. f_equal.
      cbn [rec_of rkey]. f_equal.
      rewrite Hn1, Ho, Hn. unfold len. rewrite length_app. lia. }
    split. { rewrite Ho', Ho, fmap_cons. cbn [concat]. by rewrite <- app_assoc. }
    split; [done|]. split; [done|]. split; [congruence|]. split; [congruence|].
    split. { rewrite Hl'. by apply add_length in Ha. }
    destruct (add_keeps bf bf1 (Key e) (proj1 Hwf) Ha) as [Hself Hkeep].
    split; [by auto|]. constructor; [by auto|done].
Qed.

Lemma write_index_layout idx : forall w,
  n w = len (out w) -> len (out w) + len (concat (ienc <$> idx)) < 2 ^ 64 ->
  out (foldl write_index_entry w idx) = out w ++ concat (ienc <$> idx) /\
  n (foldl write_index_entry w idx) = len (out (foldl write_index_entry w idx)).
Proof.
  induction idx as [|it idx IH]; intros w Hn Hlt.
  - cbn [foldl fmap list_fmap concat]. by rewrite app_nil_r.
  - rewrite fmap_cons in Hlt. cbn [concat] in Hlt. unfold len in Hlt.
    rewrite !length_app in Hlt. cbn [foldl].
    assert (Hone : out (write_index_entry w it) = out w ++ ienc it /\
                   n (write_index_entry w it) = len (out (write_index_entry w it))).
    { unfold write_index_entry, ienc in *. rewrite !length_app, length_le32, length_le64 in Hlt.
      split; [by rewrite !out_write, <- !app_assoc|].
      apply n_write; [apply n_write; [apply n_write; [done|]|]|];
        unfold len; rewrite ?out_write, ?length_app, ?length_le32, ?length_le64; lia. }
    destruct Hone as [Ho1 Hn1].
    destruct (IH (write_index_entry w it) Hn1) as [Ho Hn'].
    { rewrite Ho1. unfold len. rewrite length_app. lia. }
    split; [|done]. rewrite Ho, Ho1, fmap_cons. cbn [concat]. by rewrite <- app_assoc.
Qed.

Lemma write_index_out_exact idx : forall w,
  out (foldl write_index_entry w idx) = out w ++ concat (ienc <$> idx).
Proof.
  induction idx as [|it idx IH]; intros w.
  - cbn [foldl fmap list_fmap concat]. by rewrite app_nil_r.
  - cbn [foldl]. rewrite IH. unfold write_index_entry, ienc. rewrite !out_write.
    rewrite fmap_cons. cbn [concat]. by rewrite <- !app_assoc.
Qed.

Lemma size_pos r l : 0 < size (r :: l).
Proof.
  rewrite size_cons. pose proof (size_nonneg l). pose proof (length_enc r). unfold len. lia.
Qed.

(** Every index entry carries the key of a record and an offset inside the
    data region. *)
Lemma index_of_entries rs : forall i off,
  Forall (fun it => (exists r, r ∈ rs /\ ikey it = rkey r) /\
                    off <= offset it < off + size rs) (index_of i off rs).
Proof.
  induction rs as [|r rs IH]; intros i off; [constructor|].
  cbn [index_of]. apply Forall_app. split.
  - destruct (i mod indexStride =? 0); [|constructor]. constructor; [|constructor].
    cbn [ikey offset]. split; [exists r; split; [set_solver|done]|].
    pose proof (size_pos r rs). lia.
  - eapply Forall_impl; [apply IH|]. intros it [(r' & Hr' & Hk) Ho]. cbn beta in *.
    split; [exists r'; split; [set_solver|done]|].
    rewrite size_cons. pose proof (length_enc r). unfold len in *. lia.
Qed.

Lemma index_of_length rs : forall i off, (length (index_of i off rs) <= length rs)%nat.
Proof.
  induction rs as [|r rs IH]; intros i off; [done|]. cbn [index_of].
  rewrite length_app. specialize (IH (i + 1) (off + len (enc r))).
  destruct (i mod indexStride =? 0); simpl; lia.
Qed.

Lemma index_of_sorted rs : forall i off,
  StronglySorted Memtable.key_lt (rkey <$> rs) ->
  StronglySorted Memtable.key_lt (ikey <$> index_of i off rs).
Proof.
  induction rs as [|r rs IH]; intros i off Hs; [constructor|].
  rewrite fmap_cons in Hs. apply StronglySorted_inv in Hs as [Hs Hall].
  cbn [index_of]. destruct (i mod indexStride =? 0); [|by apply IH].
  cbn [app]. rewrite fmap_cons. constructor; [by apply IH|]. cbn [ikey].
  apply Forall_fmap. eapply Forall_impl; [apply index_of_entries|].
  intros it [(r' & Hr' & Hk) _]. simpl. rewrite Hk.
  rewrite Forall_forall in Hall. apply Hall.
  apply list_elem_of_fmap. by exists r'.
Qed.

Lemma sorted_is_sorted ents :
  StronglySorted Memtable.key_lt (ikey <$> ents) -> is_sorted ents = true.
Proof.
  induction ents as [|a ents IH]; [done|]. rewrite fmap_cons. intros Hs.
  apply StronglySorted_inv in Hs as [Hs Hall]. destruct ents as [|b ents]; [done|].
  change (is_sorted (a :: b :: ents))
    with (negb (Memtable.key_ltb (ikey b) (ikey a)) && is_sorted (b :: ents)).
  rewrite IH by done. rewrite andb_true_r. apply negb_true_iff.
  rewrite fmap_cons in Hall. apply Forall_cons in Hall as [Hab _].
  by apply key_ltb_asym.
Qed.

(** The first index entry, when there is one, stands for the record the
    counter first strides on. *)
Lemma index_of_first rs : forall i off,
  match index_of i off rs with
  | [] => True
  | nx :: _ => exists a r b, rs = a ++ r :: b /\ nx = mkIndexEntry (rkey r) (off + size a)
  end.
Proof.
  induction rs as [|r rs IH]; intros i off; [done|]. cbn [index_of].
  destruct (i mod indexStride =? 0).
  - exists [], r, rs. split; [done|]. by rewrite size_nil, Z.add_0_r.
  - cbn [app]. specialize (IH (i + 1) (off + len (enc r))).
    destruct (index_of _ _ rs) as [|nx rest]; [done|].
    destruct IH as (a & r' & b & -> & ->). exists (r :: a), r', b. split; [done|].
    rewrite size_cons. f_equal. lia.
Qed.

(** The records between an index entry and the next one. *)
Lemma index_of_block rs : forall i off t it,
  index_of i off rs !! t = Some it ->
  exists pre r block post,
    rs = pre ++ (r :: block) ++ post /\
    it = mkIndexEntry (rkey r) (off + size pre) /\
    (t = 0%nat -> i mod indexStride = 0 -> pre = []) /\
    match index_of i off rs !! S t with
    | Some nx => exists r' post', post = r' :: post' /\
                   nx = mkIndexEntry (rkey r') (off + size pre + size (r :: block))
    | None => post = []
    end.
Proof.
  induction rs as [|r0 rs IH]; intros i off t it; [done|]. cbn [index_of].
  destruct (i mod indexStride =? 0) eqn:E.
  - cbn [app]. destruct t as [|t]; cbn [lookup list_lookup].
    + intros [= <-]. pose proof (index_of_first rs (i + 1) (off + len (enc r0))) as Hfirst.
      destruct (index_of (i + 1) (off + len (enc r0)) rs) as [|nx rest].
      * exists [], r0, rs, []. rewrite app_nil_r, size_nil, Z.add_0_r. done.
      * destruct Hfirst as (a & r' & b & -> & ->).
        exists [], r0, a, (r' :: b). rewrite size_nil, Z.add_0_r.
        split; [done|]. split; [done|]. split; [done|].
        exists r', b. split; [done|]. rewrite size_cons. f_equal. lia.
    + intros Hit. destruct (IH _ _ _ _ Hit) as (pre & r & block & post & -> & -> & _ & Hnext).
      exists (r0 :: pre), r, block, post. split; [done|].
      split; [rewrite size_cons; f_equal; lia|]. split; [done|].
      change ((mkIndexEntry (rkey r0) off :: index_of (i + 1) (off + len (enc r0))
                 (pre ++ (r :: block) ++ post)) !! S (S t))
        with (index_of (i + 1) (off + len (enc r0)) (pre ++ (r :: block) ++ post) !! S t).
      destruct (index_of _ _ _ !! S t) as [nx|]; [|done].
      destruct Hnext as (r' & post' & -> & ->). exists r', post'. split; [done|].
      rewrite (size_cons r0). f_equal. lia.
  - cbn [app]. intros Hit.
    destruct (IH _ _ _ _ Hit) as (pre & r & block & post & -> & -> & _ & Hnext).
    exists (r0 :: pre), r, block, post. split; [done|].
    split; [rewrite size_cons; f_equal; lia|]. split.
    { intros _ Hi. apply Z.eqb_neq in E. done. }
    destruct (index_of _ _ _ !! S t) as [nx|]; [|done].
    destruct Hnext as (r' & post' & -> & ->). exists r', post'. split; [done|].
    rewrite (size_cons r0). f_equal. lia.
Qed.

(** *** Reading a written table *)

(** The record of a key among the records of a table. *)
Fixpoint lookup_rec (key : bytes) (rs : list rec) : option rec :=
  match rs with
  | [] => None
  | r :: rs => if decide (rkey r = key) then Some r else lookup_rec key rs
  end.

(** What a lookup answers for the record it finds, or for none. *)
Definition answer_rec (o : option rec) : answer :=
  match o with
  | Some r => if decide (rtomb r = x01) then ([], Deleted, None) else (rval r, Found, None)
  | None => ([], NotFound, None)
  end.

Lemma lookup_rec_none key rs :
  (forall r, r ∈ rs -> rkey r <> key) -> lookup_rec key rs = None.
Proof.
  induction rs as [|r rs IH]; [done|]. intros Hno. cbn [lookup_rec].
  rewrite decide_False by (apply Hno; set_solver). apply IH. intros r' Hr'. apply Hno. set_solver.
Qed.

Lemma lookup_rec_skip key pre l :
  (forall r, r ∈ pre -> rkey r <> key) -> lookup_rec key (pre ++ l) = lookup_rec key l.
Proof.
  induction pre as [|r pre IH]; [done|]. intros Hno. cbn [app lookup_rec].
  rewrite decide_False by (apply Hno; set_solver). apply IH. intros r' Hr'. apply Hno. set_solver.
Qed.

Lemma lookup_rec_front key l post :
  (forall r, r ∈ post -> rkey r <> key) -> lookup_rec key (l ++ post) = lookup_rec key l.
Proof.
  intros Hno. induction l as [|r l IH]; [by apply lookup_rec_none|].
  cbn [app lookup_rec]. by rewrite IH.
Qed.

(** The scan of a run of records with strictly ascending keys finds the
    record of the key, or answers NotFound. *)
Lemma scan_sorted key block : forall fuel,
  StronglySorted Memtable.key_lt (rkey <$> block) -> Forall fits block ->
  (length block < fuel)%nat ->
  scan fuel (concat (enc <$> block)) key = Some (answer_rec (lookup_rec key block)).
Proof.
  induction block as [|r block IH]; intros fuel Hs Hf Hl;
    (destruct fuel as [|fuel]; [simpl in Hl; lia|]); [done|].
  rewrite fmap_cons in Hs |- *. apply StronglySorted_inv in Hs as [Hs Hall].
  apply Forall_cons in Hf as [Hr Hf]. cbn [concat].
  rewrite scan_record by done. unfold at_record. cbn [lookup_rec].
  destruct (decide (rkey r = key)) as [Hk|Hk].
  { unfold answer_rec. by destruct (decide (rtomb r = x01)). }
  destruct (Memtable.key_ltb key (rkey r)) eqn:E.
  - rewrite lookup_rec_none; [done|]. intros r' Hr' Hk'.
    rewrite Forall_fmap, Forall_forall in Hall. specialize (Hall r' Hr'). simpl in Hall.
    unfold Memtable.key_lt in Hall. rewrite Hk' in Hall.
    pose proof (Memtable.key_ltb_trans _ _ _ E Hall) as Hkk.
    by rewrite Memtable.key_ltb_irrefl in Hkk.
  - apply IH; [done|done|simpl in Hl; lia].
Qed.

(** A slice of a file, by the lengths of what stands before it and of it. *)
Lemma section_mid (a b c : bytes) start sz :
  start = len a -> sz = len b -> section (a ++ b ++ c) start sz = b.
Proof.
  intros -> ->. unfold section, len. rewrite !Nat2Z.id.
  by rewrite drop_app_length, take_app_length.
Qed.

Lemma unmarshal_marshal bf :
  0 < bm bf < 2 ^ 32 -> 0 < bk bf < 256 ->
  0 < len (bb bf) -> 12 + len (bb bf) < 2 ^ 32 ->
  unmarshalBloom (marshal bf) = Some bf.
Proof.
  intros Hm Hk Hn Hn2.
  assert (H1 : take 4 (marshal bf) = le32 (bm bf)) by reflexivity.
  assert (H2 : marshal bf !! 4%nat = Some (byte_of_Z (bk bf))) by reflexivity.
  assert (H3 : take 4 (drop 8 (marshal bf)) = le32 (len (bb bf))) by reflexivity.
  assert (H4 : drop 12 (marshal bf) = bb bf) by reflexivity.
  unfold unmarshalBloom. rewrite H1, H2, H3, H4, len_marshal, !le_value_le32.
  cbn [default from_option id]. rewrite Z_of_byte_of_Z, !Z.mod_small by lia.
  replace (12 + len (bb bf) <? 12) with false by (symmetry; apply Z.ltb_ge; lia).
  replace ((bm bf =? 0) || (bk bf =? 0)) with false.
  2: { symmetry. apply orb_false_iff. split; apply Z.eqb_neq; lia. }
  rewrite (Z.mod_small (len (bb bf))), (Z.mod_small (12 + len (bb bf))) by lia.
  rewrite Z.eqb_refl. cbn [negb orb].
  replace (len (bb bf) =? 0) with false by (symmetry; apply Z.eqb_neq; lia).
  unfold len. rewrite Nat2Z.id, firstn_all. by destruct bf.
Qed.

Section written.

(** A file laid out as [WriteTable] does it: header, records [rs], the
    index of every stride-th record, the filter [bf], the footer. *)
Variables (cnt0 : Z) (rs : list rec) (bf : bloom).

Let idx := index_of 0 8 rs.
Let I := 8 + size rs.
Let Bo := I + 4 + len (concat (ienc <$> idx)).
Let body := le32 magic ++ le32 cnt0 ++ concat (enc <$> rs) ++
            le32 (len idx) ++ concat (ienc <$> idx) ++ marshal bf.
Let file := body ++ le64 I ++ le64 Bo.

Hypothesis Hne : rs <> [].
Hypothesis Hsorted : StronglySorted Memtable.key_lt (rkey <$> rs).
Hypothesis Hkeys : Forall (fun r => 0 < len (rkey r) <= 2 ^ 20 /\ len (rval r) < 2 ^ 32) rs.
Hypothesis Hcount : len rs <= 2 ^ 20.
Hypothesis Hsize : len file < 2 ^ 64.
Hypothesis Hbm : 0 < bm bf < 2 ^ 32.
Hypothesis Hbk : 0 < bk bf < 256.
Hypothesis Hbb : 0 < len (bb bf) /\ 12 + len (bb bf) < 2 ^ 32.

Lemma written_len_body : len body = Bo + 12 + len (bb bf).
Proof.
  unfold body, Bo, I, size, len. rewrite !length_app, !length_le32.
  pose proof (len_marshal bf) as Hm. unfold len in Hm. lia.
Qed.

Lemma written_bounds :
  0 <= size rs /\ 0 < size rs /\ 8 <= I /\ I < Bo /\ Bo < len body /\ len body < 2 ^ 64.
Proof.
  pose proof written_len_body as Hb. pose proof (size_nonneg rs).
  assert (0 < size rs) by (destruct rs; [done|apply size_pos]).
  assert (Hf : len file = len body + 16).
  { unfold file, len. rewrite !length_app, !length_le64. lia. }
  unfold Bo, I in *. pose proof (len_nonneg (concat (ienc <$> idx))).
  destruct Hbb. pose proof Hsize. lia.
Qed.

Lemma written_footer : loadFooter file = Ok (I, Bo).
Proof.
  destruct written_bounds as (? & ? & ? & ? & ? & ?). unfold file.
  rewrite loadFooter_layout by (unfold headerSize; lia). unfold headerSize.
  replace (8 <=? I) with true by (symmetry; apply Z.leb_le; lia).
  replace (I <? Bo) with true by (symmetry; apply Z.ltb_lt; lia).
  by replace (Bo <? len body) with true by (symmetry; apply Z.ltb_lt; lia).
Qed.

Lemma written_footerStart : (len file - footerSize) mod 2 ^ 64 = len body.
Proof.
  destruct written_bounds as (? & ? & ? & ? & ? & ?).
  assert (Hf : len file = len body + 16).
  { unfold file, len. rewrite !length_app, !length_le64. lia. }
  rewrite Hf. unfold footerSize. rewrite Z.mod_small; lia.
Qed.

Lemma written_bloom_bytes :
  section file Bo ((len file - footerSize) mod 2 ^ 64 - Bo) = marshal bf.
Proof.
  rewrite written_footerStart, written_len_body.
  assert (Hshape : file = (le32 magic ++ le32 cnt0 ++ concat (enc <$> rs) ++
                           le32 (len idx) ++ concat (ienc <$> idx)) ++
                          marshal bf ++ (le64 I ++ le64 Bo)).
  { unfold file, body. by rewrite <- !app_assoc. }
  rewrite Hshape. apply section_mid.
  - unfold Bo, I, size, len. rewrite !length_app, !length_le32. lia.
  - rewrite len_marshal. lia.
Qed.

Lemma written_bloom : bloom_of file = Some bf.
Proof.
  unfold bloom_of. rewrite written_footer, written_bloom_bytes.
  destruct Hbb. by apply unmarshal_marshal.
Qed.

Lemma written_valid : Forall (valid I) idx.
Proof.
  unfold idx, I. eapply Forall_impl; [apply index_of_entries|].
  intros it [(r & Hr & Hk) Ho]. simpl in *. unfold valid, maxIndexKeySize, headerSize.
  rewrite Forall_forall in Hkeys. destruct (Hkeys r Hr) as [Hkr _]. rewrite Hk. lia.
Qed.

Lemma written_idx_count : 0 < len idx <= 2 ^ 20.
Proof.
  pose proof (index_of_length rs 0 8) as Hl. fold idx in Hl. split; [|unfold len in *; lia].
  unfold idx. destruct rs as [|r l]; [done|]. cbn [index_of].
  change (0 mod indexStride =? 0) with true. unfold len. simpl. lia.
Qed.

Lemma written_index : loadIndex file = Ok (idx, I).
Proof.
  destruct written_bounds as (? & ? & ? & ? & ? & ?).
  pose proof written_idx_count as Hc.
  assert (Hdrop : drop (Z.to_nat I) file =
                  le32 (len idx) ++ concat (ienc <$> idx) ++ marshal bf ++ le64 I ++ le64 Bo).
  { assert (Hshape : file = (le32 magic ++ le32 cnt0 ++ concat (enc <$> rs)) ++
                            le32 (len idx) ++ concat (ienc <$> idx) ++ marshal bf ++
                            le64 I ++ le64 Bo).
    { unfold file, body. by rewrite <- !app_assoc. }
    rewrite Hshape.
    replace (Z.to_nat I) with (length (le32 magic ++ le32 cnt0 ++ concat (enc <$> rs))).
    - by rewrite drop_app_length.
    - unfold I, size, len. rewrite !length_app, !length_le32. lia. }
  rewrite (loadIndex_region file I Bo (len idx) _ written_footer Hdrop) by lia.
  unfold maxIndexCount.
  replace ((len idx =? 0) || (2 ^ 20 <? len idx)) with false.
  2: { symmetry. apply orb_false_iff. split; [apply Z.eqb_neq|apply Z.ltb_ge]; lia. }
  replace (Z.to_nat (len idx)) with (length idx + 0)%nat by (unfold len; lia).
  rewrite load_entries_valid by (lia || apply written_valid).
  cbn [load_entries app].
  rewrite sorted_is_sorted; [done|]. by apply index_of_sorted.
Qed.

Lemma written_range key :
  exists pre r block post,
    rs = pre ++ (r :: block) ++ post /\
    (forall x, x ∈ pre -> rkey x <> key) /\
    (forall x, x ∈ post -> rkey x <> key) /\
    pickScanRange idx I key = Some (8 + size pre, 8 + size pre + size (r :: block)).
Proof.
  pose proof written_idx_count as Hc.
  assert (Hidx : idx <> []) by (intros E; rewrite E in Hc; unfold len in Hc; simpl in Hc; lia).
  assert (His : is_sorted idx = true) by (apply sorted_is_sorted; by apply index_of_sorted).
  destruct (pickScanRange_spec idx I key Hidx His) as (t & it & Hit & Hle & Hnext & Hpick).
  destruct (index_of_block rs 0 8 t it Hit)
    as (pre & r & block & post & Hrs & Hiteq & Hpre0 & Hmatch).
  fold idx in Hmatch.
  exists pre, r, block, post. split; [done|].
  pose proof Hsorted as Hs. rewrite Hrs in Hs. rewrite !fmap_app, fmap_cons in Hs.
  assert (Hirr : forall k, Memtable.key_ltb k k = true -> False).
  { intros k Hk. by rewrite Memtable.key_ltb_irrefl in Hk. }
  split; [|split].
  - intros x Hx Hk. destruct Hle as [Ht|Hle].
    { rewrite (Hpre0 Ht eq_refl) in Hx. by apply not_elem_of_nil in Hx. }
    rewrite Hiteq in Hle. cbn [ikey] in Hle.
    assert (Hlt : Memtable.key_lt (rkey x) (rkey r)).
    { apply (StronglySorted_app_1_elem_of _ _ _ _ _ Hs).
      - apply list_elem_of_fmap. by exists x.
      - set_solver. }
    unfold Memtable.key_lt in Hlt. rewrite Hk in Hlt. congruence.
  - intros x Hx Hk. destruct (idx !! S t) as [nx|] eqn:Enx.
    2: { rewrite Hmatch in Hx. by apply not_elem_of_nil in Hx. }
    destruct Hmatch as (r' & post' & Hpost & Hnx). specialize (Hnext nx eq_refl).
    rewrite Hnx in Hnext. cbn [ikey] in Hnext. rewrite Hpost in Hx, Hs.
    apply elem_of_cons in Hx as [->|Hx]; [rewrite Hk in Hnext; by apply (Hirr key)|].
    apply StronglySorted_app_1_r in Hs.
    apply StronglySorted_app_1_r in Hs. rewrite fmap_cons in Hs.
    apply StronglySorted_inv in Hs as [_ Hall].
    rewrite Forall_fmap, Forall_forall in Hall. specialize (Hall x Hx). simpl in Hall.
    unfold Memtable.key_lt in Hall. rewrite Hk in Hall.
    apply (Hirr key). by apply (Memtable.key_ltb_trans _ (rkey r')).
  - rewrite Hpick, Hiteq. cbn [offset]. f_equal. f_equal.
    pose proof (size_pos r block) as Hpos. pose proof (size_nonneg pre).
    assert (HI : I = 8 + size pre + size (r :: block) + size post).
    { unfold I. rewrite Hrs, !size_app. lia. }
    destruct (idx !! S t) as [nx|] eqn:Enx.
    + destruct Hmatch as (r' & post' & Hpost & ->). cbn [offset].
      pose proof (size_pos r' post') as Hpos'. rewrite <- Hpost in Hpos'.
      replace (8 + size pre <? 8 + size pre + size (r :: block)) with true
        by (symmetry; apply Z.ltb_lt; lia).
      by replace (8 + size pre + size (r :: block) <? I) with true
        by (symmetry; apply Z.ltb_lt; lia).
    + rewrite Hmatch, size_nil in HI. lia.
Qed.

Lemma written_section pre r block post :
  rs = pre ++ (r :: block) ++ post ->
  section file (8 + size pre) (8 + size pre + size (r :: block) - (8 + size pre)) =
  concat (enc <$> r :: block).
Proof.
  intros Hrs.
  assert (Hshape : file = (le32 magic ++ le32 cnt0 ++ concat (enc <$> pre)) ++
                          concat (enc <$> r :: block) ++
                          (concat (enc <$> post) ++ le32 (len idx) ++
                           concat (ienc <$> idx) ++ marshal bf ++ le64 I ++ le64 Bo)).
  { unfold file, body. rewrite Hrs at 1. rewrite !fmap_app, !concat_app.
    by rewrite <- !app_assoc. }
  rewrite Hshape. apply section_mid.
  - unfold size, len. rewrite !length_app, !length_le32. lia.
  - unfold size. lia.
Qed.

Lemma written_fits : Forall fits rs.
Proof.
  eapply Forall_impl; [exact Hkeys|]. intros r [? ?]. unfold fits. lia.
Qed.

(** A lookup in the file: what the record of the key says, once the filter
    lets the key through. *)
Lemma written_Get key :
  (mayContain bf key = Some true ->
   Get file key = Some (answer_rec (lookup_rec key rs))) /\
  (mayContain bf key = Some false -> Get file key = Some ([], NotFound, None)).
Proof.
  assert (Hrd : read_u32 file =
                Ok (magic, le32 cnt0 ++ concat (enc <$> rs) ++ le32 (len idx) ++
                           concat (ienc <$> idx) ++ marshal bf ++ le64 I ++ le64 Bo)).
  { unfold file, body. rewrite <- !app_assoc. by rewrite read_u32_le32. }
  assert (Hpre : forall X, select_range file key = X ->
            match mayContain bf key with
            | None => X = None
            | Some false => X = Some (inl ([], NotFound, None))
            | Some true =>
              X = match pickScanRange idx I key with
                  | None => None
                  | Some (start, end_) =>
                    if end_ <=? start then Some (inl corrupt) else Some (inr (start, end_))
                  end
            end).
  { intros X <-. unfold select_range. rewrite Hrd.
    change (negb (magic =? magic)) with false. cbn iota.
    rewrite read_u32_le32, written_footer, written_bloom_bytes.
    destruct Hbb. rewrite unmarshal_marshal by done.
    replace ((bm bf =? 0) || (bk bf =? 0)) with false.
    2: { symmetry. apply orb_false_iff. split; apply Z.eqb_neq; lia. }
    destruct (mayContain bf key) as [[|]|]; [|done..].
    rewrite written_index, Z.eqb_refl. done. }
  split.
  - intros Hmay. specialize (Hpre _ eq_refl). rewrite Hmay in Hpre.
    destruct (written_range key) as (pre & r & block & post & Hrs & Hno1 & Hno2 & Hpick).
    rewrite Hpick in Hpre. pose proof (size_pos r block) as Hpos.
    replace (8 + size pre + size (r :: block) <=? 8 + size pre) with false in Hpre
      by (symmetry; apply Z.leb_gt; lia).
    unfold Get. rewrite Hpre. rewrite (written_section pre r block post Hrs).
    pose proof written_fits as Hfits. rewrite Hrs in Hfits.
    apply Forall_app in Hfits as [_ Hfits]. apply Forall_app in Hfits as [Hfits _].
    pose proof Hsorted as Hs. rewrite Hrs, !fmap_app in Hs.
    apply StronglySorted_app_1_r, StronglySorted_app_1_l in Hs.
    rewrite scan_sorted; [|done|done|].
    + f_equal. f_equal. rewrite Hrs. rewrite lookup_rec_skip by done.
      by rewrite lookup_rec_front.
    + pose proof (length_concat_enc (r :: block)). lia.
  - intros Hmay. specialize (Hpre _ eq_refl). rewrite Hmay in Hpre.
    unfold Get. by rewrite Hpre.
Qed.

End written.

(** The bytes of a written table, when the file is shorter than [2^64]. *)
Lemma WriteTable_layout entries file :
  WriteTable entries = Some file -> len file < 2 ^ 64 ->
  exists bf,
    file = (le32 magic ++ le32 (len entries) ++ concat (enc <$> (rec_of <$> entries)) ++
            le32 (len (index_of 0 8 (rec_of <$> entries))) ++
            concat (ienc <$> index_of 0 8 (rec_of <$> entries)) ++ marshal bf) ++
           le64 (8 + size (rec_of <$> entries)) ++
           le64 (8 + size (rec_of <$> entries) + 4 +
                 len (concat (ienc <$> index_of 0 8 (rec_of <$> entries)))) /\
    wf_bloom bf /\ bm bf = 2 ^ 20 /\ bk bf = 7 /\ len (bb bf) = 131072 /\
    Forall (fun e => mayContain bf (Key e) = Some true) entries.
Proof.
  intros Hw Hlen. unfold WriteTable in Hw. cbv zeta in Hw.
  set (w0 := write (le32 (len entries)) (write (le32 magic) (mkWriter [] 0))) in *.
  set (bf0 := newBloom (2 ^ 20) 7) in *.
  assert (Hn0 : n w0 = len (out w0)) by reflexivity.
  assert (Hn8 : n w0 = 8) by reflexivity.
  assert (Ho0 : out w0 = le32 magic ++ le32 (len entries)) by reflexivity.
  destruct (write_entries_spec entries w0 [] bf0 0 newBloom_wf)
    as (w & idx & bf & i & Hf & Ho & _).
  rewrite Hf in Hw. cbn [mbind option_bind] in Hw. injection Hw as Hfile.
  rewrite write_index_out_exact, out_write in Hfile.
  assert (Hfl : len file = len (out w) + 4 + len (concat (ienc <$> idx)) +
                           len (marshal bf) + 16).
  { rewrite <- Hfile. unfold len. rewrite !length_app, length_le32, !length_le64. lia. }
  assert (Hbound : len (out w0) + size (rec_of <$> entries) < 2 ^ 64).
  { pose proof (len_nonneg (concat (ienc <$> idx))). pose proof (len_nonneg (marshal bf)).
    assert (len (out w) = len (out w0) + size (rec_of <$> entries)).
    { rewrite Ho. unfold size, len. rewrite length_app, <- list_fmap_compose. lia. }
    lia. }
  destruct (write_entries_layout entries w0 [] bf0 0 newBloom_wf Hn0 Hbound)
    as (w' & bf' & Hf' & Ho' & Hn' & Hwf' & Hm' & Hk' & Hl' & _ & Hall).
  rewrite Hf in Hf'. injection Hf' as Ew Eidx Ebf _. subst w' bf'.
  change (idx = index_of 0 8 (rec_of <$> entries)) in Eidx. subst idx.
  set (idx := index_of 0 8 (rec_of <$> entries)) in *.
  assert (Hlw : len (out w) = 8 + size (rec_of <$> entries)).
  { rewrite Ho', Ho0. unfold size, len. rewrite !length_app, !length_le32. lia. }
  pose proof (len_nonneg (concat (ienc <$> idx))) as Hx.
  pose proof (len_nonneg (marshal bf)) as Hy.
  assert (Hn1 : n (write (le32 (len idx)) w) = len (out (write (le32 (len idx)) w))).
  { apply n_write; [done|]. clear Hf. unfold len in *. rewrite length_le32. lia. }
  destruct (write_index_layout idx (write (le32 (len idx)) w) Hn1) as [Ho2 Hn2].
  { rewrite out_write. clear Hf Hn1. unfold len in *. rewrite length_app, length_le32. lia. }
  assert (Hni : n (foldl write_index_entry (write (le32 (len idx)) w) idx) =
                8 + size (rec_of <$> entries) + 4 + len (concat (ienc <$> idx))).
  { rewrite Hn2, Ho2, out_write. clear Hf Hn1 Hn2 Ho2. unfold len in *.
    rewrite !length_app, length_le32. lia. }
  exists bf. split.
  { rewrite <- Hfile, Hni, Hn', Hlw, Ho', Ho0. by rewrite <- !app_assoc. }
  split; [done|]. split; [by rewrite Hm'|]. split; [by rewrite Hk'|]. split; [|done].
  unfold len. rewrite Hl'. unfold bf0, newBloom. change (2 ^ 20 <? 8) with false.
  cbn [bb]. rewrite length_replicate.
  change (((2 ^ 20 + 7) mod 2 ^ 32) / 8) with 131072. lia.
Qed.

Lemma lookup_rec_sorted rs r :
  StronglySorted Memtable.key_lt (rkey <$> rs) -> r ∈ rs ->
  lookup_rec (rkey r) rs = Some r.
Proof.
  induction rs as [|r0 rs IH]; [by intros _ ?%not_elem_of_nil|].
  rewrite fmap_cons. intros Hs Hr. apply StronglySorted_inv in Hs as [Hs Hall].
  cbn [lookup_rec]. apply elem_of_cons in Hr as [->|Hr]; [by rewrite decide_True|].
  rewrite decide_False; [by apply IH|]. intros Hk.
  rewrite Forall_fmap, Forall_forall in Hall. specialize (Hall r Hr). simpl in Hall.
  unfold Memtable.key_lt in Hall. rewrite Hk in Hall.
  by rewrite Memtable.key_ltb_irrefl in Hall.
Qed.

(** What the tables [Flush] writes are made of: entries in strictly
    ascending key order, keys of 1 to [2^20] bytes, values shorter than
    [2^32] bytes, at most [2^20] of them. *)
Definition storable (entries : list Entry) : Prop :=
  entries <> [] /\ len entries <= 2 ^ 20 /\
  StronglySorted Memtable.key_lt (Key <$> entries) /\
  Forall (fun e => 0 < len (Key e) <= 2 ^ 20 /\ len (Value e) < 2 ^ 32) entries.

(** A lookup in a written table. *)
Lemma Get_WriteTable entries file key :
  WriteTable entries = Some file -> storable entries -> len file < 2 ^ 64 ->
  Get file key = Some (answer_rec (lookup_rec key (rec_of <$> entries))).
Proof.
  intros Hw (Hne & Hcnt & Hsort & Hkeys) Hlen.
  destruct (WriteTable_layout entries file Hw Hlen)
    as (bf & Hfile & Hwf & Hm & Hk & Hb & Hall).
  set (rs := rec_of <$> entries) in *.
  assert (Hne' : rs <> []) by (unfold rs; by destruct entries).
  assert (Hsort' : StronglySorted Memtable.key_lt (rkey <$> rs)).
  { unfold rs. rewrite <- list_fmap_compose. exact Hsort. }
  assert (Hkeys' : Forall (fun r => 0 < len (rkey r) <= 2 ^ 20 /\ len (rval r) < 2 ^ 32) rs).
  { unfold rs. apply Forall_fmap. exact Hkeys. }
  assert (Hcnt' : len rs <= 2 ^ 20) by (unfold rs, len in *; by rewrite length_fmap).
  rewrite Hfile in Hlen |- *.
  destruct (written_Get (len entries) rs bf Hne' Hsort' Hkeys' Hcnt' Hlen
              ltac:(lia) ltac:(lia) ltac:(lia) key) as [Htrue Hfalse].
  destruct (mayContain_loop_total bf (taps bf key)) as [[|] Hmay].
  { unfold taps. apply Forall_fmap, Forall_forall. intros i _. simpl.
    apply get_total; [done|]. apply tap_range, Hwf. }
  - by apply Htrue.
  - rewrite (Hfalse Hmay). rewrite lookup_rec_none; [done|].
    intros r Hr Hkr. unfold rs in Hr. apply list_elem_of_fmap in Hr as (e & -> & He).
    rewrite Forall_forall in Hall. specialize (Hall e He). cbn [rec_of rkey] in Hkr.
    rewrite Hkr in Hall. unfold mayContain in Hall. congruence.
Qed.

Lemma answer_rec_of e :
  answer_rec (Some (rec_of e)) =
  if Tombstone e then ([], Deleted, None) else (Value e, Found, None).
Proof. unfold answer_rec, rec_of. cbn [rtomb rval]. by destruct (Tombstone e). Qed.

Lemma lookup_rec_entries entries e :
  StronglySorted Memtable.key_lt (Key <$> entries) -> e ∈ entries ->
  lookup_rec (Key e) (rec_of <$> entries) = Some (rec_of e).
Proof.
  intros Hs He. apply (lookup_rec_sorted (rec_of <$> entries) (rec_of e)).
  - by rewrite <- list_fmap_compose.
  - apply list_elem_of_fmap. by exists e.
Qed.

Lemma lookup_rec_absent entries key :
  (forall e, e ∈ entries -> Key e <> key) -> lookup_rec key (rec_of <$> entries) = None.
Proof.
  intros Hno. apply lookup_rec_none. intros r Hr.
  apply list_elem_of_fmap in Hr as (e & -> & He). by apply Hno.
Qed.

(** Three entries in key order, the middle one a tombstone. *)
Definition three_entries : list Entry :=
  [mkEntry (B "a") (B "1") false; mkEntry (B "b") [] true; mkEntry (B "c") (B "3") false].

Definition three_entries_table : bytes := default [] (WriteTable three_entries).

(** X18.  A table reads back what was written: for entries in strictly
    ascending key order (at most [2^20], keys of 1 to [2^20] bytes, values
    shorter than [2^32] bytes) and a file shorter than [2^64] bytes, [Get] on
    the file [WriteTable] made answers Found with the value for the key of a
    live entry, Deleted for the key of a tombstone, and NotFound for every
    other key, with no error. *)
Theorem table_roundtrip (entries : list Entry) (file key : bytes) :
  WriteTable entries = Some file -> storable entries -> len file < 2 ^ 64 ->
  (forall e, e ∈ entries -> Key e = key ->
     Get file key = Some (if Tombstone e then ([], Deleted, None)
                          else (Value e, Found, None))) /\
  ((forall e, e ∈ entries -> Key e <> key) -> Get file key = Some ([], NotFound, None)).
Proof.
  intros Hw Hst Hlen. rewrite (Get_WriteTable entries file key Hw Hst Hlen).
  destruct Hst as (_ & _ & Hsort & _). split.
  - intros e He <-. by rewrite lookup_rec_entries, answer_rec_of.
  - intros Hno. by rewrite lookup_rec_absent.
Qed.

Lemma three_entries_written : WriteTable three_entries = Some three_entries_table.
Proof.
  unfold three_entries_table. by destruct (WriteTable_total three_entries) as [f ->].
Qed.

Lemma three_entries_storable : storable three_entries.
Proof.
  split; [discriminate|]. split; [by vm_compute|]. split.
  - repeat constructor.
  - repeat constructor; by vm_compute.
Qed.

Lemma three_entries_short : len three_entries_table < 2 ^ 64.
Proof. vm_compute. reflexivity. Qed.

Lemma three_entries_no_z : forall e, e ∈ three_entries -> Key e <> B "z".
Proof.
  intros e He. unfold three_entries in He.
  repeat (apply elem_of_cons in He as [->|He]; [discriminate|]).
  by apply not_elem_of_nil in He.
Qed.

Lemma three_entries_a : mkEntry (B "a") (B "1") false ∈ three_entries.
Proof. unfold three_entries. left. Qed.

Lemma three_entries_b : mkEntry (B "b") [] true ∈ three_entries.
Proof. unfold three_entries. right. left. Qed.

Lemma table_roundtrip_witness :
  Get three_entries_table (B "a") = Some (B "1", Found, None) /\
  Get three_entries_table (B "b") = Some ([], Deleted, None) /\
  Get three_entries_table (B "z") = Some ([], NotFound, None).
Proof.
  split; [|split].
  - exact (proj1 (table_roundtrip _ _ (B "a") three_entries_written
                    three_entries_storable three_entries_short) _ three_entries_a eq_refl).
  - exact (proj1 (table_roundtrip _ _ (B "b") three_entries_written
                    three_entries_storable three_entries_short) _ three_entries_b eq_refl).
  - exact (proj2 (table_roundtrip _ _ (B "z") three_entries_written
                    three_entries_storable three_entries_short) three_entries_no_z).
Defined.

End Sstable.

(** * The engine *)

Module Db.

(** [DB] *)
Record DB := mkDB {
  mem : Memtable.MemTable;
  wal : Wal.WAL;
  dir : string;
  walPath : string;
  sstDir : string;
  sstables : list string;
  nextID : Z
}.

(** [ENOENT], the error of [os.Open] on a path with no file. *)
Definition ENOENT : error := ErrOS 2.

(** [filepath.Join] of a clean directory path and a file name. *)
Definition Join (d name : string) : string := d +:+ "/" +:+ name.

(** [sstable.Get(path, key)] on the file system. *)
Definition sstable_Get (fs : FS) (path : string) (key : bytes) : option Sstable.answer :=
  match fs !! path with
  | None => Some ([], Sstable.NotFound, Some ENOENT)
  | Some file => Sstable.Get file key
  end.

(** The loop of [DB.Get] over the tables, newest first. *)
Fixpoint get_tables (fs : FS) (ps : list string) (key : bytes) : option (bytes * bool) :=
  match ps with
  | [] => Some ([], false)
  | p :: ps =>
    match sstable_Get fs p key with
    | None => None
    | Some (_, _, Some _) => Some ([], false)
    | Some (v, Sstable.Found, None) => Some (v, true)
    | Some (_, Sstable.Deleted, None) => Some ([], false)
    | Some (_, Sstable.NotFound, None) => get_tables fs ps key
    end
  end.

(** [DB.Get] *)
Definition Get (d : DB) (key : bytes) (fs : FS) : option (bytes * bool) :=
  match Memtable.GetAll key (mem d) with
  | None => None
  | Some (Some e) => if Tombstone e then Some ([], false) else Some (Value e, true)
  | Some None => get_tables fs (sstables d) key
  end.

(** [DB.Put]: the log first, then the memtable. *)
Definition Put (key value : bytes) (d : DB) (fs : FS) : option (DB * FS) :=
  let '(w, fs) := Wal.AppendPut key value (wal d) fs in
  m ← Memtable.Put key value (mem d);
  Some (mkDB m w (dir d) (walPath d) (sstDir d) (sstables d) (nextID d), fs).

(** [DB.Delete] *)
Definition Delete (key : bytes) (d : DB) (fs : FS) : option (DB * FS) :=
  let '(w, fs) := Wal.AppendDelete key (wal d) fs in
  m ← Memtable.Delete key (mem d);
  Some (mkDB m w (dir d) (walPath d) (sstDir d) (sstables d) (nextID d), fs).

(** A table that answers NotFound with no error. *)
Definition passes (fs : FS) (key : bytes) (p : string) : Prop :=
  exists v, sstable_Get fs p key = Some (v, Sstable.NotFound, None).

Lemma get_tables_pass fs key pre rest :
  Forall (passes fs key) pre ->
  get_tables fs (pre ++ rest) key = get_tables fs rest key.
Proof.
  induction 1 as [|p pre [v Hp] _ IH]; [done|].
  cbn [app get_tables]. by rewrite Hp.
Qed.

(** C1.  A memtable entry for the key decides the answer, whatever tables
    and files there are: not-present for a tombstone, the value otherwise.
    On a memtable miss the tables are asked newest first: after tables
    answering NotFound, the first table answering Found gives its value, the
    first answering Deleted gives not-present, a read error gives
    not-present, and when every table answers NotFound the key is
    not-present. *)
Theorem get_shadowing_newest_first (d : DB) (key : bytes) (fs : FS) :
  (forall e, Memtable.GetAll key (mem d) = Some (Some e) ->
     forall tables fs',
       Get (mkDB (mem d) (wal d) (dir d) (walPath d) (sstDir d) tables (nextID d)) key fs' =
       Some (if Tombstone e then ([], false) else (Value e, true))) /\
  (Memtable.GetAll key (mem d) = Some None ->
     (forall pre p post v,
        sstables d = pre ++ p :: post -> Forall (passes fs key) pre ->
        sstable_Get fs p key = Some (v, Sstable.Found, None) ->
        Get d key fs = Some (v, true)) /\
     (forall pre p post v,
        sstables d = pre ++ p :: post -> Forall (passes fs key) pre ->
        sstable_Get fs p key = Some (v, Sstable.Deleted, None) ->
        Get d key fs = Some ([], false)) /\
     (forall pre p post v res e,
        sstables d = pre ++ p :: post -> Forall (passes fs key) pre ->
        sstable_Get fs p key = Some (v, res, Some e) ->
        Get d key fs = Some ([], false)) /\
     (Forall (passes fs key) (sstables d) -> Get d key fs = Some ([], false))).
Proof.
  split.
  - intros e He tables fs'. unfold Get. cbn [mem]. rewrite He. by destruct (Tombstone e).
  - intros Hmiss. unfold Get. rewrite Hmiss.
    split; [|split; [|split]].
    + intros pre p post v -> Hpre Hp. rewrite get_tables_pass by done.
      cbn [get_tables]. by rewrite Hp.
    + intros pre p post v -> Hpre Hp. rewrite get_tables_pass by done.
      cbn [get_tables]. by rewrite Hp.
    + intros pre p post v res e -> Hpre Hp. rewrite get_tables_pass by done.
      cbn [get_tables]. rewrite Hp. by destruct res.
    + intros Hall. rewrite <- (app_nil_r (sstables d)).
      by rewrite get_tables_pass.
Qed.

(** *** Flush *)

(** The calls of [Flush] that can fail, each with the error it returns when
    it does.  [WriteTable] fails before creating the file or after writing
    part of it; [os.WriteFile] fails before or after truncating. *)
Record faults := mkFaults {
  write_table : option (error * option bytes);
  rename : option error;
  wal_close : option error;
  write_file : option (error * bool);
  wal_open : option error
}.

Definition no_faults : faults := mkFaults None None None None None.

(** [fmt.Sprintf("%06d", id)] *)
Definition pad6 (id : Z) : string :=
  let s := pretty (Z.to_N id) in
  String.concat "" (replicate (6 - String.length s) "0") +:+ s.

(** [sstable.WriteTable(path, entries)] on the file system. *)
Definition WriteTable (path : string) (entries : list Entry)
    (ft : option (error * option bytes)) (fs : FS) : option (FS * option error) :=
  match ft with
  | Some (e, None) => Some (fs, Some e)
  | Some (e, Some part) => Some (<[path := part]> fs, Some e)
  | None => file ← Sstable.WriteTable entries; Some (<[path := file]> fs, None)
  end.

(** [os.Remove] *)
Definition Remove (path : string) (fs : FS) : FS := delete path fs.

(** [os.Rename] *)
Definition Rename (old new : string) (ft : option error) (fs : FS) : FS * option error :=
  match ft with
  | Some e => (fs, Some e)
  | None =>
    match fs !! old with
    | None => (fs, Some ENOENT)
    | Some c => (<[new := c]> (delete old fs), None)
    end
  end.

(** [WAL.Close]: the buffer is flushed, then the file closed. *)
Definition Close (w : Wal.WAL) (ft : option error) (fs : FS) : Wal.WAL * FS * option error :=
  (Wal.Flush w fs, ft).

(** [os.WriteFile(path, nil, 0o644)] *)
Definition WriteFile_nil (path : string) (ft : option (error * bool)) (fs : FS)
  : FS * option error :=
  match ft with
  | Some (e, truncated) => (if truncated then <[path := []]> fs else fs, Some e)
  | None => (<[path := []]> fs, None)
  end.

(** [wal.Open] *)
Definition wal_Open (path : string) (ft : option error) (fs : FS)
  : result Wal.WAL * FS :=
  match ft with
  | Some e => (Err e, fs)
  | None => let '(w, fs) := Wal.Open path fs in (Ok w, fs)
  end.

(** [DB.Flush]; [coins] is the random source of the fresh memtable. *)
Definition Flush (coins : nat -> bool) (ft : faults) (d : DB) (fs : FS)
  : option (DB * FS * option error) :=
  entries ← Memtable.RangeAll [] [] (mem d);
  if bool_decide (entries = []) then Some (d, fs, None)
  else
    let name := pad6 (nextID d) +:+ ".sst" in
    let path := Join (sstDir d) name in
    let tmp := path +:+ ".tmp" in
    '(fs, err) ← WriteTable tmp entries (write_table ft) fs;
    match err with
    | Some e => Some (d, Remove tmp fs, Some e)
    | None =>
      let '(fs, err) := Rename tmp path (rename ft) fs in
      match err with
      | Some e => Some (d, Remove tmp fs, Some e)
      | None =>
        let d := mkDB (Memtable.NewMemTable coins) (wal d) (dir d) (walPath d) (sstDir d)
                      (path :: sstables d) ((nextID d + 1) mod 2 ^ 64) in
        let '(w, fs, err) := Close (wal d) (wal_close ft) fs in
        let d := mkDB (mem d) w (dir d) (walPath d) (sstDir d) (sstables d) (nextID d) in
        match err with
        | Some e => Some (d, fs, Some e)
        | None =>
          let '(fs, err) := WriteFile_nil (walPath d) (write_file ft) fs in
          match err with
          | Some e => Some (d, fs, Some e)
          | None =>
            match wal_Open (walPath d) (wal_open ft) fs with
            | (Err e, fs) => Some (d, fs, Some e)
            | (Ok w, fs) =>
              Some (mkDB (mem d) w (dir d) (walPath d) (sstDir d) (sstables d) (nextID d),
                    fs, None)
            end
          end
        end
      end
    end.

(** The last character of a path, [dflt] for the empty one. *)
Fixpoint last_char (s : string) (dflt : option Ascii.ascii) : option Ascii.ascii :=
  match s with
  | EmptyString => dflt
  | String c s => last_char s (Some c)
  end.

Lemma last_char_app a b : forall dflt,
  last_char (a +:+ b) dflt = last_char b (last_char a dflt).
Proof. induction a as [|c a IH]; intros dflt; [done|]. simpl. by rewrite IH. Qed.

(** What [Open] makes of a directory: the log and the tables under it, the
    log handle on the log file. *)
Definition opened (d : DB) : Prop :=
  walPath d = Join (dir d) "forge.wal" /\ sstDir d = Join (dir d) "sst" /\
  Wal.f (wal d) = walPath d.

(** The table [Flush] writes, and its temporary name. *)
Definition table_path (d : DB) : string := Join (sstDir d) (pad6 (nextID d) +:+ ".sst").
Definition tmp_path (d : DB) : string := table_path d +:+ ".tmp".

Lemma walPath_not_table d :
  walPath d = Join (dir d) "forge.wal" ->
  walPath d <> table_path d /\ walPath d <> tmp_path d.
Proof.
  intros Hw. split; intros E; apply (f_equal (fun s => last_char s None)) in E;
    rewrite Hw in E; unfold tmp_path, table_path, Join in E;
    rewrite !last_char_app in E; simpl in E; discriminate E.
Qed.

Lemma tmp_not_table d : tmp_path d <> table_path d.
Proof.
  intros E. apply (f_equal (fun s => last_char s None)) in E.
  unfold tmp_path, table_path, Join in E.
  rewrite !last_char_app in E. simpl in E. discriminate E.
Qed.

(** [Flush] up to the renaming of the table, when neither step fails. *)
Lemma Flush_published coins ft d fs entries :
  Memtable.RangeAll [] [] (mem d) = Some entries -> entries <> [] ->
  write_table ft = None -> rename ft = None ->
  exists file,
    Sstable.WriteTable entries = Some file /\
    Flush coins ft d fs =
      let fs := <[table_path d := file]> (delete (tmp_path d) (<[tmp_path d := file]> fs)) in
      let d := mkDB (Memtable.NewMemTable coins) (wal d) (dir d) (walPath d) (sstDir d)
                    (table_path d :: sstables d) ((nextID d + 1) mod 2 ^ 64) in
      let '(w, fs, err) := Close (wal d) (wal_close ft) fs in
      let d := mkDB (mem d) w (dir d) (walPath d) (sstDir d) (sstables d) (nextID d) in
      match err with
      | Some e => Some (d, fs, Some e)
      | None =>
        let '(fs, err) := WriteFile_nil (walPath d) (write_file ft) fs in
        match err with
        | Some e => Some (d, fs, Some e)
        | None =>
          match wal_Open (walPath d) (wal_open ft) fs with
          | (Err e, fs) => Some (d, fs, Some e)
          | (Ok w, fs) =>
            Some (mkDB (mem d) w (dir d) (walPath d) (sstDir d) (sstables d) (nextID d),
                  fs, None)
          end
        end
      end.
Proof.
  intros Hrange Hne Hw Hr. destruct (Sstable.WriteTable_total entries) as [file Hfile].
  exists file. split; [done|].
  unfold Flush. rewrite Hrange. cbn [mbind option_bind].
  rewrite bool_decide_false by done. cbv zeta. fold (table_path d). fold (tmp_path d).
  rewrite Hw. unfold WriteTable. rewrite Hfile. cbn [mbind option_bind].
  rewrite Hr. unfold Rename. rewrite lookup_insert_eq. reflexivity.
Qed.

Lemma published_lookup d (fs : FS) file p :
  p <> table_path d -> p <> tmp_path d ->
  (<[table_path d := file]> (delete (tmp_path d) (<[tmp_path d := file]> fs))) !! p = fs !! p.
Proof.
  intros H1 H2. by rewrite lookup_insert_ne, lookup_delete_ne, lookup_insert_ne.
Qed.

(** A directory with one key written, a failing disk, a failing close. *)
Definition coins0 : nat -> bool := fun _ => false.

Definition fresh_db : DB :=
  mkDB (Memtable.NewMemTable coins0) (Wal.mkWAL "db/forge.wal" [])
       "db" "db/forge.wal" "db/sst" [] 1.

Definition one_key : DB * FS := default (fresh_db, ∅) (Put (B "a") (B "1") fresh_db ∅).

Definition disk_full : faults :=
  mkFaults (Some (ErrOS 28, Some [x00])) None None None None.

Definition close_fails : faults :=
  mkFaults None None (Some (ErrOS 5)) None None.

(** C7.  With a non-empty memtable, when writing the temporary table fails
    (before the file exists or with part of it written) or renaming it
    fails, [Flush] returns that error and the engine as it was: table
    stack, memtable, next id and log handle.  The temporary file is gone,
    every other file is as before, the log file among them. *)
Theorem flush_failure_before_publish (coins : nat -> bool) (ft : faults) (d : DB) (fs : FS)
    (entries : list Entry) (e : error) :
  Memtable.RangeAll [] [] (mem d) = Some entries -> entries <> [] ->
  (exists part, write_table ft = Some (e, part)) \/
  (write_table ft = None /\ rename ft = Some e) ->
  exists fs',
    Flush coins ft d fs = Some (d, fs', Some e) /\
    fs' !! tmp_path d = None /\
    (forall p, p <> tmp_path d -> fs' !! p = fs !! p) /\
    (walPath d = Join (dir d) "forge.wal" -> fs' !! walPath d = fs !! walPath d).
Proof.
  intros Hrange Hne Hfail.
  assert (exists fs', Flush coins ft d fs = Some (d, fs', Some e) /\
            fs' !! tmp_path d = None /\
            (forall p, p <> tmp_path d -> fs' !! p = fs !! p)) as (fs' & HF & Ht & Hp).
  { unfold Flush. rewrite Hrange. cbn [mbind option_bind].
    rewrite bool_decide_false by done. cbv zeta. fold (table_path d). fold (tmp_path d).
    destruct Hfail as [[part Hw]|[Hw Hr]].
    - rewrite Hw. unfold WriteTable, Remove.
      destruct part as [part|]; cbn [mbind option_bind]; eexists;
        (split; [reflexivity|]); (split; [apply lookup_delete_eq|]); intros p Hp.
      + by rewrite lookup_delete_ne, lookup_insert_ne.
      + by rewrite lookup_delete_ne.
    - rewrite Hw. unfold WriteTable, Remove.
      destruct (Sstable.WriteTable_total entries) as [file ->].
      cbn [mbind option_bind]. rewrite Hr. cbn [Rename]. eexists.
      split; [reflexivity|]. split; [apply lookup_delete_eq|]. intros p Hp.
      by rewrite lookup_delete_ne, lookup_insert_ne. }
  exists fs'. split; [done|]. split; [done|]. split; [done|].
  intros Hw. apply Hp. by apply walPath_not_table.
Qed.

Lemma flush_failure_before_publish_witness :
  exists fs',
    Flush coins0 disk_full one_key.1 one_key.2 = Some (one_key.1, fs', Some (ErrOS 28)) /\
    fs' !! tmp_path one_key.1 = None /\
    (forall p, p <> tmp_path one_key.1 -> fs' !! p = one_key.2 !! p) /\
    (walPath one_key.1 = Join (dir one_key.1) "forge.wal" ->
     fs' !! walPath one_key.1 = one_key.2 !! walPath one_key.1).
Proof.
  apply (flush_failure_before_publish coins0 disk_full one_key.1 one_key.2
           [mkEntry (B "a") (B "1") false] (ErrOS 28)).
  - vm_compute. reflexivity.
  - discriminate.
  - left. exists (Some [x00]). reflexivity.
Defined.

(** C9.  With a non-empty memtable, once the new table has been renamed
    into place, a failure of closing the log, of emptying the log file or of
    reopening it makes [Flush] return that error with the new table already
    first in the stack, the next id advanced and the memtable fresh.  When
    the close fails, or [os.WriteFile] fails before truncating, the log file
    still holds the records from before the flush; when [os.WriteFile] fails
    after truncating or the reopening fails, the log file is empty. *)
Theorem flush_failure_after_publish (coins : nat -> bool) (ft : faults) (d : DB) (fs : FS)
    (entries : list Entry) (e : error) :
  Memtable.RangeAll [] [] (mem d) = Some entries -> entries <> [] ->
  write_table ft = None -> rename ft = None -> opened d ->
  let d' := mkDB (Memtable.NewMemTable coins) (Wal.mkWAL (walPath d) [])
                 (dir d) (walPath d) (sstDir d)
                 (table_path d :: sstables d) ((nextID d + 1) mod 2 ^ 64) in
  let log := Wal.content (walPath d) fs ++ Wal.buf (wal d) in
  (wal_close ft = Some e \/ (wal_close ft = None /\ write_file ft = Some (e, false)) ->
   exists fs',
     Flush coins ft d fs = Some (d', fs', Some e) /\
     fs' !! table_path d = Sstable.WriteTable entries /\
     fs' !! walPath d = Some log) /\
  ((wal_close ft = None /\ write_file ft = Some (e, true)) \/
   (wal_close ft = None /\ write_file ft = None /\ wal_open ft = Some e) ->
   exists fs',
     Flush coins ft d fs = Some (d', fs', Some e) /\
     fs' !! table_path d = Sstable.WriteTable entries /\
     fs' !! walPath d = Some []).
Proof.
  intros Hrange Hne Hw Hr (Hwal & _ & Hf) d' log.
  destruct (walPath_not_table d Hwal) as [Hn1 Hn2].
  destruct (Flush_published coins ft d fs entries Hrange Hne Hw Hr) as (file & Hfile & ->).
  cbv zeta. unfold Close, Wal.Flush, Wal.file_append.
  cbn [mem wal dir walPath sstDir sstables nextID]. rewrite Hf, Hfile.
  assert (Hlog : Wal.content (walPath d)
            (<[table_path d := file]> (delete (tmp_path d) (<[tmp_path d := file]> fs))) =
            Wal.content (walPath d) fs).
  { unfold Wal.content. by rewrite published_lookup. }
  rewrite Hlog. fold log. split.
  - intros [Hc|[Hc Hwf]]; rewrite Hc.
    + eexists. split; [reflexivity|].
      rewrite lookup_insert_ne, lookup_insert_eq, lookup_insert_eq by done. done.
    + rewrite Hwf. cbn [WriteFile_nil]. eexists. split; [reflexivity|].
      rewrite lookup_insert_ne, lookup_insert_eq, lookup_insert_eq by done. done.
  - intros [[Hc Hwf]|(Hc & Hwf & Ho)]; rewrite Hc, Hwf.
    + cbn [WriteFile_nil]. eexists. split; [reflexivity|].
      rewrite lookup_insert_ne, lookup_insert_ne, lookup_insert_eq, lookup_insert_eq by done.
      done.
    + cbn [WriteFile_nil]. rewrite Ho. cbn [wal_Open]. eexists. split; [reflexivity|].
      rewrite lookup_insert_ne, lookup_insert_ne, lookup_insert_eq, lookup_insert_eq by done.
      done.
Qed.

Lemma flush_failure_after_publish_witness :
  exists fs',
    Flush coins0 close_fails one_key.1 one_key.2 =
      Some (mkDB (Memtable.NewMemTable coins0) (Wal.mkWAL "db/forge.wal" [])
                 "db" "db/forge.wal" "db/sst" ["db/sst/000001.sst"] 2,
            fs', Some (ErrOS 5)) /\
    fs' !! "db/sst/000001.sst" = Sstable.WriteTable [mkEntry (B "a") (B "1") false] /\
    fs' !! "db/forge.wal" = Some (Wal.record_bytes (Wal.Put (B "a") (B "1"))).
Proof.
  assert (Hrange : Memtable.RangeAll [] [] (mem one_key.1) = Some [mkEntry (B "a") (B "1") false])
    by (vm_compute; reflexivity).
  assert (Hne : [mkEntry (B "a") (B "1") false] <> []) by discriminate.
  assert (Hop : opened one_key.1) by (repeat split; vm_compute; reflexivity).
  destruct (flush_failure_after_publish coins0 close_fails one_key.1 one_key.2 _ (ErrOS 5)
              Hrange Hne eq_refl eq_refl Hop) as [H _].
  apply H. left. reflexivity.
Defined.

(** *** Writes, reads and a flush that goes through *)

(** The memtable of an engine whose memtable was built by [ops]. *)
Lemma built_models coins ops m :
  Memtable.mem_apply_all ops (Memtable.NewMemTable coins) = Some m ->
  exists L, Memtable.Inv (Memtable.sl m) L /\
            Memtable.models (Memtable.sl m) (Memtable.view_of ops).
Proof.
  intros Hm.
  destruct (Memtable.mem_apply_all_models ops (Memtable.NewMemTable coins) []
              (fun _ => None) (Memtable.NewSkipList_Inv coins)
              (Memtable.NewSkipList_models coins)) as (m' & L & Hm' & HI & HV).
  rewrite Hm in Hm'. injection Hm' as <-. by exists L.
Qed.







(** A memtable some operation went into has entries to flush. *)
Lemma built_entries coins ops m :
  Memtable.mem_apply_all ops (Memtable.NewMemTable coins) = Some m ->
  exists entries, Memtable.RangeAll [] [] m = Some entries /\ (ops = [] <-> entries = []).
Proof.
  intros Hm. destruct (built_models _ _ _ Hm) as (L & HI & HV).
  destruct (Memtable.range_models m L _ [] [] HI HV (Memtable.view_of_keyed ops))
    as (es & Hall & _ & Hmem & _).
  exists es. split; [done|]. split.
  - intros ->. destruct es as [|e es]; [done|].
    destruct (proj1 (Hmem e)) as [He _]; [set_solver|]. done.
  - intros ->. destruct ops as [|o ops _] using rev_ind; [done|]. exfalso.
    set (e := match o with
              | Memtable.MPut k v => mkEntry k v false
              | Memtable.MDelete k => mkEntry k [] true
              end).
    assert (He : Memtable.view_of (ops ++ [o]) (Key e) = Some e).
    { unfold Memtable.view_of. rewrite foldl_app. cbn [foldl].
      destruct o as [k v|k]; simpl; unfold Memtable.view_put; by rewrite decide_True. }
    assert (Hin : e ∈ ([] : list Entry)); [|by apply not_elem_of_nil in Hin].
    apply Hmem. split; [done|]. split; [apply Memtable.key_ltb_nil_r|by left].
Qed.

(** X16.  [Flush] does nothing exactly when no operation went into the
    memtable.  On a new memtable it returns at once, whatever would fail:
    engine and files are as before.  After any put or delete, a delete
    alone included, [RangeAll] has entries, and when nothing fails [Flush]
    does not leave the engine as it was. *)
Theorem flush_noop_iff_empty (coins c : nat -> bool) (ops : list Memtable.mem_op)
    (ft : faults) (d : DB) (fs : FS) :
  Memtable.mem_apply_all ops (Memtable.NewMemTable c) = Some (mem d) ->
  (ops = [] -> Flush coins ft d fs = Some (d, fs, None)) /\
  (ops <> [] ->
   (exists entries, Memtable.RangeAll [] [] (mem d) = Some entries /\ entries <> []) /\
   Flush coins no_faults d fs <> Some (d, fs, None)).
Proof.
  intros Hm. destruct (built_entries _ _ _ Hm) as (entries & Hrange & Hiff). split.
  - intros Hops. unfold Flush. rewrite Hrange. cbn [mbind option_bind].
    by rewrite bool_decide_true by (by apply Hiff).
  - intros Hops. assert (Hne : entries <> []) by (by rewrite <- Hiff).
    split; [by exists entries|].
    destruct (Flush_published coins no_faults d fs entries Hrange Hne eq_refl eq_refl)
      as (file & _ & ->).
    cbv zeta. unfold Close, Wal.Flush.
    cbn [mem wal dir walPath sstDir sstables nextID wal_close write_file wal_open no_faults
         WriteFile_nil wal_Open].
    destruct (Wal.Open _ _) as [w' fs']. intros [= Hd _].
    apply (f_equal sstables) in Hd. cbn [sstables] in Hd.
    apply (f_equal length) in Hd. simpl in Hd. lia.
Qed.

Lemma flush_noop_iff_empty_witness :
  ([Memtable.MPut (B "a") (B "1")] = [] ->
   Flush coins0 no_faults one_key.1 one_key.2 = Some (one_key.1, one_key.2, None)) /\
  ([Memtable.MPut (B "a") (B "1")] <> [] ->
   (exists entries, Memtable.RangeAll [] [] (mem one_key.1) = Some entries /\ entries <> []) /\
   Flush coins0 no_faults one_key.1 one_key.2 <> Some (one_key.1, one_key.2, None)).
Proof.
  apply (flush_noop_iff_empty coins0 coins0). vm_compute. reflexivity.
Defined.

(** X17.  A [Flush] in which nothing fails: the table file holds what
    [WriteTable] makes of the memtable's entries, the temporary file is gone,
    the log file is empty, every other file is as before; the new table is
    first in the stack, the next id is one more, the memtable is new and the
    log handle is on the emptied file. *)
Theorem flush_success (coins : nat -> bool) (d : DB) (fs : FS) (entries : list Entry) :
  Memtable.RangeAll [] [] (mem d) = Some entries -> entries <> [] -> opened d ->
  exists file fs',
    Sstable.WriteTable entries = Some file /\
    Flush coins no_faults d fs =
      Some (mkDB (Memtable.NewMemTable coins) (Wal.mkWAL (walPath d) [])
                 (dir d) (walPath d) (sstDir d)
                 (table_path d :: sstables d) ((nextID d + 1) mod 2 ^ 64),
            fs', None) /\
    fs' !! table_path d = Some file /\
    fs' !! tmp_path d = None /\
    fs' !! walPath d = Some [] /\
    (forall p, p <> table_path d -> p <> tmp_path d -> p <> walPath d ->
               fs' !! p = fs !! p).
Proof.
  intros Hrange Hne (Hwal & _ & Hf).
  destruct (walPath_not_table d Hwal) as [Hn1 Hn2].
  pose proof (tmp_not_table d) as Hn3.
  destruct (Flush_published coins no_faults d fs entries Hrange Hne eq_refl eq_refl)
    as (file & Hfile & ->).
  exists file. cbv zeta. unfold Close, Wal.Flush, Wal.file_append.
  cbn [mem wal dir walPath sstDir sstables nextID wal_close write_file wal_open no_faults
       WriteFile_nil wal_Open]. rewrite Hf.
  unfold Wal.Open. rewrite lookup_insert_eq. eexists. split; [done|].
  split; [reflexivity|]. split.
  { by rewrite !lookup_insert_ne, lookup_insert_eq by done. }
  split.
  { by rewrite !lookup_insert_ne, lookup_delete_eq by done. }
  split; [by rewrite lookup_insert_eq|].
  intros p Hp1 Hp2 Hp3.
  by rewrite !lookup_insert_ne, lookup_delete_ne, lookup_insert_ne by done.
Qed.

Lemma flush_success_witness :
  exists file fs',
    Sstable.WriteTable [mkEntry (B "a") (B "1") false] = Some file /\
    Flush coins0 no_faults one_key.1 one_key.2 =
      Some (mkDB (Memtable.NewMemTable coins0) (Wal.mkWAL "db/forge.wal" [])
                 "db" "db/forge.wal" "db/sst" ["db/sst/000001.sst"] 2,
            fs', None) /\
    fs' !! "db/sst/000001.sst" = Some file /\
    fs' !! "db/sst/000001.sst.tmp" = None /\
    fs' !! "db/forge.wal" = Some [] /\
    (forall p, p <> "db/sst/000001.sst" -> p <> "db/sst/000001.sst.tmp" ->
               p <> "db/forge.wal" -> fs' !! p = one_key.2 !! p).
Proof.
  apply (flush_success coins0 one_key.1 one_key.2 [mkEntry (B "a") (B "1") false]).
  - vm_compute. reflexivity.
  - discriminate.
  - repeat split; vm_compute; reflexivity.
Defined.

End Db.
